(** * nuklear-cffi: the header-to-declarations text pipeline

    A shallow embedding of [build_nuklear_defs] and of the command line
    loop of [nuklear-cffi.py].  The script is Python 2: it rewrites the
    preprocessed header with [re.sub] and [re.search].  The regular
    expressions are kept as syntax trees and run by a backtracking
    matcher with the priorities of Python's [re] module (leftmost match,
    greedy quantifiers longest first, lazy quantifiers shortest first). *)

From Stdlib Require Import Ascii String Decimal DecimalString DecimalPos.
From Stdlib Require Import ZArith Lia Bool Arith PeanoNat List.
Import ListNotations.

Set Implicit Arguments.

(** ** Text *)

(** Python 2 [str]: a sequence of 8-bit characters. *)
Definition str := list ascii.

Definition lit (s : string) : str := list_ascii_of_string s.

Fixpoint str_eqb (a b : str) : bool :=
  match a, b with
  | [], [] => true
  | x :: a', y :: b' => Ascii.eqb x y && str_eqb a' b'
  | _, _ => false
  end.

Definition between (lo hi c : ascii) : bool :=
  (nat_of_ascii lo <=? nat_of_ascii c) && (nat_of_ascii c <=? nat_of_ascii hi).

Definition is_digit (c : ascii) : bool := between "0" "9" c.

(** [[a-zA-Z0-9_]] *)
Definition is_word (c : ascii) : bool :=
  between "a" "z" c || between "A" "Z" c || is_digit c || Ascii.eqb c "_".

Definition newline : ascii := ascii_of_nat 10.

(** [[^\n,]] *)
Definition not_nl_comma (c : ascii) : bool :=
  negb (Ascii.eqb c newline || Ascii.eqb c ",").

(** [[^;]] *)
Definition not_semi (c : ascii) : bool := negb (Ascii.eqb c ";").

(** [.] under [re.DOTALL] *)
Definition any_char (c : ascii) : bool := true.

(** The characters [str.strip()] and [int()] treat as blank:
    space, tab, line feed, vertical tab, form feed, carriage return. *)
Definition is_space (c : ascii) : bool :=
  Ascii.eqb c " " || ((9 <=? nat_of_ascii c) && (nat_of_ascii c <=? 13)).

(** ** Regular expressions *)

Inductive greed := Greedy | Lazy.

Inductive regex :=
| Eps
| Chr (c : ascii)
| Cls (p : ascii -> bool)
| Cat (r1 r2 : regex)
| Alt (r1 r2 : regex)
| Star (g : greed) (r : regex)
| Grp (n : nat) (r : regex).

(** [r+] and [r+?] *)
Definition Plus (g : greed) (r : regex) : regex := Cat r (Star g r).

(** A run of literal characters. *)
Fixpoint Lit (s : str) : regex :=
  match s with
  | [] => Eps
  | c :: s' => Cat (Chr c) (Lit s')
  end.

(** Captured groups, latest binding first. *)
Definition caps := list (nat * str).

Fixpoint group (n : nat) (cs : caps) : option str :=
  match cs with
  | [] => None
  | (m, v) :: cs' => if Nat.eqb m n then Some v else group n cs'
  end.

(** The iterations of a starred expression whose body is run by [step]:
    a greedy star tries one more iteration before it tries what follows
    it, a lazy star the other way round.  An iteration has to consume a
    character, so [length s] iterations are all there can be. *)
Fixpoint star_loop (A : Type)
         (step : str -> caps -> (str -> caps -> option A) -> option A)
         (g : greed) (k : str -> caps -> option A)
         (n : nat) (s : str) (cs : caps) {struct n} : option A :=
  match n with
  | O => k s cs
  | S n' =>
      let more :=
        step s cs (fun s1 cs1 =>
                     if length s1 <? length s then star_loop step g k n' s1 cs1
                     else None) in
      match g with
      | Greedy => match more with Some a => Some a | None => k s cs end
      | Lazy => match k s cs with Some a => Some a | None => more end
      end
  end.

(** The matcher, in continuation-passing style: [mtch r s cs k] matches
    [r] at the head of [s] and hands what is left of [s] to [k]; when [k]
    refuses, the next alternative in priority order is tried. *)
Fixpoint mtch (A : Type) (r : regex) (s : str) (cs : caps)
         (k : str -> caps -> option A) {struct r} : option A :=
  match r with
  | Eps => k s cs
  | Chr c =>
      match s with
      | x :: s' => if Ascii.eqb x c then k s' cs else None
      | [] => None
      end
  | Cls p =>
      match s with
      | x :: s' => if p x then k s' cs else None
      | [] => None
      end
  | Cat r1 r2 => mtch r1 s cs (fun s1 cs1 => mtch r2 s1 cs1 k)
  | Alt r1 r2 =>
      match mtch r1 s cs k with
      | Some a => Some a
      | None => mtch r2 s cs k
      end
  | Star g r1 => star_loop (mtch r1) g k (length s) s cs
  | Grp n r1 =>
      mtch r1 s cs
        (fun s1 cs1 => k s1 ((n, firstn (length s - length s1) s) :: cs1))
  end.

Definition group_or_empty (n : nat) (cs : caps) : str :=
  match group n cs with
  | Some v => v
  | None => []
  end.

(** [re.match]: the length of the match anchored at the head of [s], and
    its groups. *)
Definition re_match (r : regex) (s : str) : option (nat * caps) :=
  mtch r s [] (fun s1 cs1 => Some (length s - length s1, cs1)).

(** [re.match(r, s)] read as a truth value. *)
Definition matches_at (r : regex) (s : str) : bool :=
  match re_match r s with
  | Some _ => true
  | None => false
  end.

(** [re.search]: the leftmost position at which [r] matches; the result is
    (start, length, groups). *)
Fixpoint search_from (r : regex) (i : nat) (s : str) : option (nat * nat * caps) :=
  match re_match r s with
  | Some (len, cs) => Some (i, len, cs)
  | None =>
      match s with
      | [] => None
      | _ :: s' => search_from r (S i) s'
      end
  end.

Definition re_search (r : regex) (s : str) : option (nat * nat * caps) :=
  search_from r 0 s.

(** ** Results of fallible code *)

Inductive error :=
| CannotFind (value_name : str)   (* Exception("Cannot find definition for value '%s'") *)
| ValueError (literal : str)      (* int(value, 0) on an invalid literal *)
| RecursionDepth                  (* the recursion went deeper than the fuel *)
| NotLiteral (value_name : str)   (* a name with regex metacharacters: outside this model *)
| CalledProcessError.             (* subprocess.check_output: cpp ended with an error *)

Inductive Res (A : Type) :=
| OK (a : A)
| Err (e : error).
Arguments OK {A} a.
Arguments Err {A} e.

Definition bind (A B : Type) (m : Res A) (f : A -> Res B) : Res B :=
  match m with
  | OK a => f a
  | Err e => Err e
  end.

Notation "x <- m ;; f" := (bind m (fun x => f))
  (at level 61, m at next level, right associativity).

(** ** [re.sub] with a callable replacement *)

(** One scan of [pattern_subx]: at each position the pattern is tried; a
    match is handed to [repl] and its result is joined to the output, the
    scan going on at the end of the match; with no match one character is
    copied.  An empty match is replaced unless it sits at the end of the
    previous match ([adj]), and the scan then moves on by one character.
    The second component logs each (matched text, replacement) in scan order. *)
Fixpoint sub_loop (fuel : nat) (r : regex) (repl : str -> caps -> Res str)
         (adj : bool) (s : str) {struct fuel} : Res (str * list (str * str)) :=
  match fuel with
  | O => OK (s, [])
  | S fuel' =>
      match re_match r s with
      | Some (O, cs) =>
          if adj then
            match s with
            | [] => OK ([], [])
            | c :: s' =>
                rest <- sub_loop fuel' r repl false s' ;;
                OK (c :: fst rest, snd rest)
            end
          else
            t <- repl [] cs ;;
            match s with
            | [] => OK (t, [([], t)])
            | c :: s' =>
                rest <- sub_loop fuel' r repl false s' ;;
                OK (t ++ c :: fst rest, ([], t) :: snd rest)
            end
      | Some (S l, cs) =>
          t <- repl (firstn (S l) s) cs ;;
          rest <- sub_loop fuel' r repl true (skipn (S l) s) ;;
          OK (t ++ fst rest, (firstn (S l) s, t) :: snd rest)
      | None =>
          match s with
          | [] => OK ([], [])
          | c :: s' =>
              rest <- sub_loop fuel' r repl false s' ;;
              OK (c :: fst rest, snd rest)
          end
      end
  end.

Definition re_sub_log (r : regex) (repl : str -> caps -> Res str) (s : str)
  : Res (str * list (str * str)) :=
  sub_loop (S (length s)) r repl false s.

Definition re_sub (r : regex) (repl : str -> caps -> Res str) (s : str) : Res str :=
  p <- re_sub_log r repl s ;; OK (fst p).

(** ** Python built-ins used by the script *)

Fixpoint drop_while (p : ascii -> bool) (s : str) : str :=
  match s with
  | [] => []
  | c :: s' => if p c then drop_while p s' else s
  end.

Fixpoint take_while (p : ascii -> bool) (s : str) : str :=
  match s with
  | [] => []
  | c :: s' => if p c then c :: take_while p s' else []
  end.

(** [s.strip()] *)
Definition strip (s : str) : str :=
  rev (drop_while is_space (rev (drop_while is_space s))).

(** [s.split(c)] for a one-character separator: never the empty list. *)
Fixpoint split_on (c : ascii) (s : str) : list str :=
  match s with
  | [] => [[]]
  | x :: s' =>
      if Ascii.eqb x c then [] :: split_on c s'
      else match split_on c s' with
           | h :: t => (x :: h) :: t
           | [] => [[x]]
           end
  end.

(** [str(n)] of an integer: decimal digits, a leading minus sign. *)
Definition str_of_Z (z : Z) : str := lit (NilZero.string_of_int (Z.to_int z)).

Definition digit_value (c : ascii) : option Z :=
  if is_digit c then Some (Z.of_nat (nat_of_ascii c) - 48)%Z
  else if between "a" "z" c then Some (Z.of_nat (nat_of_ascii c) - 87)%Z
  else if between "A" "Z" c then Some (Z.of_nat (nat_of_ascii c) - 55)%Z
  else None.

(** The longest run of digits of base [b] at the head of [s]: its value
    over [acc], how many characters it has, and what follows it. *)
Fixpoint read_digits (b acc : Z) (s : str) : Z * nat * str :=
  match s with
  | [] => (acc, O, [])
  | c :: s' =>
      match digit_value c with
      | Some d =>
          if (d <? b)%Z then
            let '(v, n, rest) := read_digits b (acc * b + d)%Z s' in (v, S n, rest)
          else (acc, O, s)
      | None => (acc, O, s)
      end
  end.

(** [int(s)] on the text of group 1 of the shift pattern, a run of
    decimal digits. *)
Definition int10 (s : str) : Z := fst (fst (read_digits 10 0 s)).

(** An unsigned literal with the base read off its prefix, as [int(s, 0)]
    does in Python 2: [0x], [0o], [0b], a leading [0] for octal, decimal
    otherwise.  At least one digit is needed. *)
Definition read_literal (s : str) : option (Z * str) :=
  let digits b s :=
    match read_digits b 0 s with
    | (_, O, _) => None
    | (v, S _, rest) => Some (v, rest)
    end in
  match s with
  | "0"%char :: c :: s' =>
      if Ascii.eqb c "x" || Ascii.eqb c "X" then digits 16%Z s'
      else if Ascii.eqb c "o" || Ascii.eqb c "O" then digits 8%Z s'
      else if Ascii.eqb c "b" || Ascii.eqb c "B" then digits 2%Z s'
      else digits 8%Z s
  | "0"%char :: [] => Some (0%Z, [])
  | _ => digits 10%Z s
  end.

(** [int(s, 0)]: blanks, an optional sign, blanks again (Python 2 lets
    them through), the literal, blanks, the end of the text; anything else
    is a [ValueError].  Integers are unbounded.  (The [L] suffix that
    Python 2 lets through on a 0-prefixed literal too large for a C long
    is left out.) *)
Definition int0 (s : str) : Res Z :=
  let s1 := drop_while is_space s in
  let '(neg, s2) :=
    match s1 with
    | "-"%char :: t => (true, drop_while is_space t)
    | "+"%char :: t => (false, drop_while is_space t)
    | _ => (false, s1)
    end in
  match read_literal s2 with
  | Some (v, rest) =>
      match drop_while is_space rest with
      | [] => OK (if neg then (- v)%Z else v)
      | _ :: _ => Err (ValueError s)
      end
  | None => Err (ValueError s)
  end.

Fixpoint mapM (A B : Type) (f : A -> Res B) (l : list A) : Res (list B) :=
  match l with
  | [] => OK []
  | a :: l' => b <- f a ;; bs <- mapM f l' ;; OK (b :: bs)
  end.

(** [reduce(lambda x,y: x|y, values)] on a list that is never empty. *)
Definition reduce_or (values : list Z) : Z :=
  fold_left Z.lor (tl values) (hd 0%Z values).

(** ** The patterns of [build_nuklear_defs] *)

(** ["\\(1 << \\(([0-9]+)\\)\\)"] *)
Definition shift_expr : regex :=
  Cat (Lit (lit "(1 << ("))
      (Cat (Grp 1 (Plus Greedy (Cls is_digit))) (Lit (lit "))"))).

(** ["(nk|NK)_[a-zA-Z0-9_]+"], its group numbered [g]. *)
Definition val_expr_at (g : nat) : regex :=
  Cat (Grp g (Alt (Lit (lit "nk")) (Lit (lit "NK"))))
      (Cat (Chr "_") (Plus Greedy (Cls is_word))).

Definition val_expr : regex := val_expr_at 1.

(** ["%s( *\\| *%s)+" % (val_expr, val_expr)] *)
Definition or_expr : regex :=
  Cat val_expr
      (Plus Greedy
         (Grp 2 (Cat (Star Greedy (Chr " "))
                     (Cat (Chr "|")
                          (Cat (Star Greedy (Chr " ")) (val_expr_at 3)))))).

(** The characters that mean something to [re.compile]. *)
Definition is_meta (c : ascii) : bool :=
  existsb (Ascii.eqb c) (lit ".^$*+?{}[]\|()").

(** The pattern of [lookup_value], for a name that [re.compile] reads as
    itself: the name, blanks, [=], blanks, and as group 1 the run of
    characters other than a line feed and a comma. *)
Definition assign_expr (value_name : str) : regex :=
  Cat (Lit value_name)
      (Cat (Star Greedy (Chr " "))
           (Cat (Chr "=")
                (Cat (Star Greedy (Chr " "))
                     (Grp 1 (Star Greedy (Cls not_nl_comma)))))).

(** ["(struct nk_table {.*?;)[^;]*?sizeof\\(.*?};"] with [re.DOTALL] *)
Definition table_expr : regex :=
  Cat (Grp 1 (Cat (Lit (lit "struct nk_table {"))
                  (Cat (Star Lazy (Cls any_char)) (Chr ";"))))
      (Cat (Star Lazy (Cls not_semi))
           (Cat (Lit (lit "sizeof("))
                (Cat (Star Lazy (Cls any_char)) (Lit (lit "};"))))).

Definition draw_list_clear_decl : str :=
  lit "extern void nk_draw_list_clear(struct nk_draw_list *list);".

(** ["extern void nk_draw_list_clear\\(struct nk_draw_list \\*list\\);"] *)
Definition decl_expr : regex := Lit draw_list_clear_decl.

(** ** The passes of [build_nuklear_defs] *)

(** [evaluate_shift]: [str(1 << int(match.group(1)))] *)
Definition evaluate_shift (m : str) (cs : caps) : Res str :=
  OK (str_of_Z (Z.shiftl 1 (int10 (group_or_empty 1 cs)))).

(** [re.sub(shift_expr, evaluate_shift, preprocessed_text)] *)
Definition fold_shift (preprocessed_text : str) : Res str :=
  re_sub shift_expr evaluate_shift preprocessed_text.

Section or_pass.

(** The closures [lookup_value], [evaluate_or] and [replace_or] read the
    variable [preprocessed_text] of the enclosing call.  The variable is
    bound to the result of [re.sub] only when [re.sub] has returned, and
    a Python string is immutable. *)
Variable preprocessed_text : str.

(** The body of [evaluate_or] over a given [lookup]: Python 2's [map]
    runs the look-ups from left to right and the first exception ends it. *)
Definition evaluate_terms (lookup : str -> Res Z) (expression_text : str) : Res Z :=
  values <- mapM (fun x => lookup (strip x)) (split_on "|" expression_text) ;;
  OK (reduce_or values).

(** [fuel] bounds the depth of the recursion between [lookup_value] and
    [evaluate_or].

    The script formats the name into the pattern it searches for.  A name
    without a character that [re.compile] reads as an operator is read as
    itself, and the pattern is [assign_expr].  A name with such a
    character is searched for as a pattern of its own; this is left out:
    the look-up stops with [NotLiteral], which stands for no outcome of
    the script.  Every statement about look-ups below keeps to names
    without such characters, by a hypothesis on the names or on the
    result. *)
Fixpoint lookup_value (fuel : nat) (value_name : str) : Res Z :=
  match fuel with
  | O => Err RecursionDepth
  | S fuel' =>
      if existsb is_meta value_name then Err (NotLiteral value_name)
      else
        match re_search (assign_expr value_name) preprocessed_text with
        | Some (_, _, cs) =>
            let value := group_or_empty 1 cs in
            if matches_at or_expr value || matches_at val_expr value
            then evaluate_terms (lookup_value fuel') value
            else int0 value
        | None => Err (CannotFind value_name)
        end
  end.

Definition evaluate_or (fuel : nat) (expression_text : str) : Res Z :=
  evaluate_terms (lookup_value fuel) expression_text.

Definition replace_or (fuel : nat) (m : str) (cs : caps) : Res str :=
  v <- evaluate_or fuel m ;; OK (str_of_Z v).

End or_pass.

(** [re.sub(or_expr, replace_or, preprocessed_text)]: the callback is
    closed over the text the pass starts from. *)
Definition fold_or_log (fuel : nat) (preprocessed_text : str) :=
  re_sub_log or_expr (replace_or preprocessed_text fuel) preprocessed_text.

Definition fold_or (fuel : nat) (preprocessed_text : str) : Res str :=
  re_sub or_expr (replace_or preprocessed_text fuel) preprocessed_text.

(** The replacement of the stubbing pass: [x.group(1) + "\n    ...;\n};"] *)
Definition stub_tail : str :=
  newline :: lit "    ...;" ++ newline :: lit "};".

Definition stub_repl (m : str) (cs : caps) : Res str :=
  OK (group_or_empty 1 cs ++ stub_tail).

(** "Stubbing nk_table..." *)
Definition stub_nk_table (preprocessed_text : str) : Res str :=
  re_sub table_expr stub_repl preprocessed_text.

(** "Removing duplicate 'nk_draw_list_clear' declaration...": every match
    of the declaration is replaced by the empty string. *)
Definition remove_duplicate (preprocessed_text : str) : Res str :=
  re_sub decl_expr (fun _ _ => OK []) preprocessed_text.

(** The options [build_nuklear_defs] puts before the header. *)
Definition header_only_options : str := lit "
    #define NK_STATIC_ASSERT(X) 

    ".

Section pipeline.

(** [cpp -P] is an outside program: what it makes of its input is a
    parameter, and it can fail. *)
Variable run_c_preprocessor : str -> Res str.

(** The text [build_nuklear_defs] writes to [filename]; [fuel] bounds the
    depth of the recursion of the OR pass. *)
Definition build_nuklear_defs (fuel : nat) (header extra_cdef : str) : Res str :=
  preprocessed_text <- run_c_preprocessor (header_only_options ++ header) ;;
  preprocessed_text <- fold_shift preprocessed_text ;;
  preprocessed_text <- fold_or fuel preprocessed_text ;;
  preprocessed_text <- stub_nk_table preprocessed_text ;;
  preprocessed_text <- remove_duplicate preprocessed_text ;;
  OK (preprocessed_text ++ extra_cdef).

End pipeline.

(** ** The command line of [__main__] *)

(** The module docstring, printed by [-h] and [--help]. *)
Definition doc : str := lit "
nuklear-cffi.py

Semi-automatically generates a Python binding for the 'nuklear' GUI library,
which is a simple header-only C library with no dependencies.  The binding
makes use of the 'cffi' python package; to use it see the documentation for
'cffi'.

Usage: ./nuklear-cffi.py [--header <filename>]
".

(** How the argument loop ends: [sys.exit] after some [print]s, or control
    goes on to the pipeline with the header file name chosen. *)
Inductive outcome :=
| Exited (printed : list str) (status : Z)
| Proceed (nuklear_header_filename : str).

(** The [while i < len(sys.argv)] loop; [i] grows at every turn, so
    [length argv] turns are enough. *)
Fixpoint parse_args (fuel : nat) (argv : list str) (i : nat)
         (nuklear_header_filename : str) : outcome :=
  match fuel with
  | O => Proceed nuklear_header_filename
  | S fuel' =>
      if i <? length argv then
        let arg := nth i argv [] in
        if str_eqb arg (lit "-h") || str_eqb arg (lit "--help") then
          Exited [doc] 0
        else if str_eqb arg (lit "--header") then
          if i + 1 =? length argv then
            Exited [lit "--header <filename>"] 1
          else
            parse_args fuel' argv (i + 1 + 1) (nth (i + 1) argv [])
        else
          parse_args fuel' argv (i + 1) nuklear_header_filename
      else Proceed nuklear_header_filename
  end.

Definition main_args (argv : list str) : outcome :=
  parse_args (length argv) argv 1 (lit "nuklear/nuklear.h").

(** ** Notions the statements use *)

(** [pat] is a prefix of [s]: what follows it. *)
Fixpoint strip_prefix (pat s : str) : option str :=
  match pat with
  | [] => Some s
  | c :: pat' =>
      match s with
      | x :: s' => if Ascii.eqb x c then strip_prefix pat' s' else None
      | [] => None
      end
  end.

(** The first index at which [pat] occurs in [s]. *)
Fixpoint find_from (pat : str) (i : nat) (s : str) : option nat :=
  match strip_prefix pat s with
  | Some _ => Some i
  | None =>
      match s with
      | [] => None
      | _ :: s' => find_from pat (S i) s'
      end
  end.

Definition find (pat s : str) : option nat := find_from pat 0 s.

Definition occurs (pat s : str) : bool :=
  match find pat s with
  | Some _ => true
  | None => false
  end.

(** The texts a scan of [re.sub] hands to its callback, in scan order
    (for a pattern that has no empty match). *)
Fixpoint scan_matches (fuel : nat) (r : regex) (s : str) : list str :=
  match fuel with
  | O => []
  | S fuel' =>
      match re_match r s with
      | Some (S l, _) => firstn (S l) s :: scan_matches fuel' r (skipn (S l) s)
      | _ =>
          match s with
          | [] => []
          | _ :: s' => scan_matches fuel' r s'
          end
      end
  end.

(** The OR chains the OR-folding pass meets in a text. *)
Definition chains (text : str) : list str :=
  scan_matches (S (length text)) or_expr text.

(** The terms of a chain, as [evaluate_or] cuts it. *)
Definition terms (expression_text : str) : list str :=
  map strip (split_on "|" expression_text).

(** The value [lookup_value] finds for a name: group 1 of the first
    match of the assignment pattern. *)
Definition assigned (text value_name : str) : option str :=
  match re_search (assign_expr value_name) text with
  | Some (_, _, cs) => Some (group_or_empty 1 cs)
  | None => None
  end.

(** The names [lookup_value] goes on to look up from a name without
    pattern characters.  From a name with such a character no look-up is
    followed (see [lookup_value]): [refers] and [reaches] hold only
    steps the script takes, and a statement that needs all of them
    asks for names without such characters. *)
Definition deps (text value_name : str) : list str :=
  if existsb is_meta value_name then []
  else
    match assigned text value_name with
    | Some value =>
        if matches_at or_expr value || matches_at val_expr value
        then terms value
        else []
    | None => []
    end.

Definition refers (text : str) (n m : str) : Prop := In m (deps text n).

(** [n] reaches [m] through one or more assignments. *)
Inductive reaches (text : str) : str -> str -> Prop :=
| reaches_step n m : refers text n m -> reaches text n m
| reaches_trans n m p : refers text n m -> reaches text m p -> reaches text n p.




(** The OR-folding pass as the specification words it: each look-up reads
    the buffer as rewritten so far, the replacements already made
    followed by the text not yet scanned. *)
Fixpoint live_loop (scan depth : nat) (out s : str) : Res str :=
  match scan with
  | O => OK (out ++ s)
  | S scan' =>
      match re_match or_expr s with
      | Some (S l, _) =>
          v <- evaluate_or (out ++ s) depth (firstn (S l) s) ;;
          live_loop scan' depth (out ++ str_of_Z v) (skipn (S l) s)
      | _ =>
          match s with
          | [] => OK out
          | c :: s' => live_loop scan' depth (out ++ [c]) s'
          end
      end
  end.

Definition fold_or_live (depth : nat) (text : str) : Res str :=
  live_loop (S (length text)) depth [] text.

(** What a greedy and a lazy star over one character class come to. *)
Fixpoint greedy_try (A : Type) (p : ascii -> bool) (s : str) (cs : caps)
         (k : str -> caps -> option A) : option A :=
  match s with
  | c :: s' =>
      if p c then
        match greedy_try p s' cs k with
        | Some a => Some a
        | None => k s cs
        end
      else k s cs
  | [] => k s cs
  end.

Fixpoint lazy_try (A : Type) (p : ascii -> bool) (s : str) (cs : caps)
         (k : str -> caps -> option A) : option A :=
  match k s cs with
  | Some a => Some a
  | None =>
      match s with
      | c :: s' => if p c then lazy_try p s' cs k else None
      | [] => None
      end
  end.

(** The least number of characters a match of [r] has. *)
Fixpoint min_len (r : regex) : nat :=
  match r with
  | Eps => 0
  | Chr _ => 1
  | Cls _ => 1
  | Cat r1 r2 => min_len r1 + min_len r2
  | Alt r1 r2 => Nat.min (min_len r1) (min_len r2)
  | Star _ _ => 0
  | Grp _ r1 => min_len r1
  end.

(** ** What the patterns read, and other notions of the proofs *)

(** A pattern that has no empty match. *)
Definition nonempty (r : regex) : Prop :=
  forall s cs, re_match r s <> Some (0, cs).

(** The value of a string of decimal digits read from the left. *)
Fixpoint uint_val (acc : Z) (d : uint) : Z :=
  match d with
  | Nil => acc
  | D0 l => uint_val (10 * acc) l
  | D1 l => uint_val (10 * acc + 1) l
  | D2 l => uint_val (10 * acc + 2) l
  | D3 l => uint_val (10 * acc + 3) l
  | D4 l => uint_val (10 * acc + 4) l
  | D5 l => uint_val (10 * acc + 5) l
  | D6 l => uint_val (10 * acc + 6) l
  | D7 l => uint_val (10 * acc + 7) l
  | D8 l => uint_val (10 * acc + 8) l
  | D9 l => uint_val (10 * acc + 9) l
  end%Z.

(** What the shift pattern reads at the head of a text: the digits of
    group 1 and what follows the match. *)
Definition shift_match (s : str) : option (str * str) :=
  match strip_prefix (lit "(1 << (") s with
  | Some s1 =>
      match take_while is_digit s1 with
      | [] => None
      | ds =>
          match strip_prefix (lit "))") (drop_while is_digit s1) with
          | Some rest => Some (ds, rest)
          | None => None
          end
      end
  | None => None
  end.

(** No proper prefix of [p] is also a suffix of it: two occurrences of
    [p] in a text never overlap. *)
Definition border_free (p : str) : bool :=
  forallb (fun j => negb (str_eqb p (firstn j p ++ firstn (length p - j) p)))
          (seq 1 (length p - 1)).

(** The tail of the pattern, part by part, on a text of [n] characters:
    the closing [};], [sizeof(] and the lazy run up to the closing, the
    lazy run without semicolon up to [sizeof(], and the semicolon that
    ends group 1. *)
Definition close_k (n : nat) (s : str) (cs : caps) : option (nat * caps) :=
  match strip_prefix (lit "};") s with
  | Some rest => Some (n - length rest, cs)
  | None => None
  end.

Definition sizeof_k (n : nat) (s : str) (cs : caps) : option (nat * caps) :=
  match strip_prefix (lit "sizeof(") s with
  | Some s1 => lazy_try any_char s1 cs (close_k n)
  | None => None
  end.

Definition member_k (n : nat) (s : str) (cs : caps) : option (nat * caps) :=
  lazy_try not_semi s cs (sizeof_k n).

Definition semi_k (s0 : str) (s : str) (cs : caps) : option (nat * caps) :=
  match s with
  | x :: s' =>
      if Ascii.eqb x ";" then
        member_k (length s0) s' ((1, firstn (length s0 - length s') s0) :: cs)
      else None
  | [] => None
  end.

(** The blank of [ *] in the assignment pattern. *)
Definition is_blank (c : ascii) : bool := Ascii.eqb c " ".

(** What the assignment pattern of [name] reads at the head of a text:
    the value of group 1 and what follows the match. *)
Definition assign_match (name s : str) : option (str * str) :=
  match strip_prefix name s with
  | Some s1 =>
      match drop_while is_blank s1 with
      | x :: s3 =>
          if Ascii.eqb x "=" then
            Some (take_while not_nl_comma (drop_while is_blank s3),
                  drop_while not_nl_comma (drop_while is_blank s3))
          else None
      | [] => None
      end
  | None => None
  end.



(** The argument loop of [__main__] told over the list of the arguments
    still to read, for the statements about it. *)
Fixpoint parse_list (args : list str) (nuklear_header_filename : str) : outcome :=
  match args with
  | [] => Proceed nuklear_header_filename
  | arg :: rest =>
      if str_eqb arg (lit "-h") || str_eqb arg (lit "--help") then
        Exited [doc] 0
      else if str_eqb arg (lit "--header") then
        match rest with
        | [] => Exited [lit "--header <filename>"] 1
        | filename :: rest' => parse_list rest' filename
        end
      else parse_list rest nuklear_header_filename
  end.

(** [r] cannot match without reading the character [c]. *)
Fixpoint needs (c : ascii) (r : regex) : bool :=
  match r with
  | Eps => false
  | Chr c' => Ascii.eqb c' c
  | Cls _ => false
  | Cat r1 r2 => needs c r1 || needs c r2
  | Alt r1 r2 => needs c r1 && needs c r2
  | Star _ _ => false
  | Grp _ r1 => needs c r1
  end.

(** The texts a pattern can match, whatever the order in which the
    matcher tries them. *)
Inductive lang : regex -> str -> Prop :=
| lang_Eps : lang Eps []
| lang_Chr c : lang (Chr c) [c]
| lang_Cls (p : ascii -> bool) c : p c = true -> lang (Cls p) [c]
| lang_Cat r1 r2 m1 m2 : lang r1 m1 -> lang r2 m2 -> lang (Cat r1 r2) (m1 ++ m2)
| lang_Alt_l r1 r2 m : lang r1 m -> lang (Alt r1 r2) m
| lang_Alt_r r1 r2 m : lang r2 m -> lang (Alt r1 r2) m
| lang_Star_nil g r : lang (Star g r) []
| lang_Star_cons g r m1 m2 :
    lang r m1 -> lang (Star g r) m2 -> lang (Star g r) (m1 ++ m2)
| lang_Grp n r m : lang r m -> lang (Grp n r) m.

(** A name of the shape of [val_expr]: [nk_] or [NK_] and then one or
    more letters, digits and underscores. *)
Definition val_name (t : str) : Prop :=
  exists w, w <> [] /\ forallb is_word w = true /\
            (t = lit "nk_" ++ w \/ t = lit "NK_" ++ w).

(** The part of the chain pattern that repeats: blanks, a bar, blanks,
    a name. *)
Definition or_link : regex :=
  Grp 2 (Cat (Star Greedy (Chr " "))
             (Cat (Chr "|") (Cat (Star Greedy (Chr " ")) (val_expr_at 3)))).

(** The texts in which the character [<] stands nowhere but in shift
    expressions [(1 << (N))], [N] a run of decimal digits. *)
Inductive lt_only_in_shifts : str -> Prop :=
| lt_none s : ~ In "<"%char s -> lt_only_in_shifts s
| lt_shift pre ds rest :
    ~ In "<"%char pre -> ds <> [] -> forallb is_digit ds = true ->
    lt_only_in_shifts rest ->
    lt_only_in_shifts (pre ++ lit "(1 << (" ++ ds ++ lit "))" ++ rest).

(** The names the resolution of an expression looks up: its terms, and
    the names they lead to through the assignments. *)
Definition leads_to (text expression_text n : str) : Prop :=
  In n (terms expression_text) \/
  exists t, In t (terms expression_text) /\ reaches text t n.


(** The text holds the assignment of [value] to [name], and no place
    before it reads [name], blanks and an equals sign: blanks may stand
    on both sides of the equals sign, the value does not start with a
    blank and runs up to a comma, a line feed or the end of the text. *)
Definition assigns (text name value : str) : Prop :=
  exists before k1 k2 after,
    text = before ++ name ++ repeat " "%char k1 ++
           "="%char :: repeat " "%char k2 ++ value ++ after /\
    (after = [] \/
     exists c rest, after = c :: rest /\ (c = newline \/ c = ","%char)) /\
    forallb not_nl_comma value = true /\
    (forall rest, value <> " "%char :: rest) /\
    (forall a k rest,
       text = a ++ name ++ repeat " "%char k ++ "="%char :: rest ->
       length before <= length a).

(** The OR-folding pass run on a part [s] of a text: [re.sub] with the
    callback [replace_or] closed over [preprocessed_text], the text its
    look-ups read. *)
Definition fold_or_in (preprocessed_text : str) (fuel : nat) (s : str) : Res str :=
  re_sub or_expr (replace_or preprocessed_text fuel) s.

(** A text that does not end, or does not start, with a character of a
    name. *)
Definition ends_outside_name (s : str) : bool :=
  match rev s with
  | [] => true
  | c :: _ => negb (is_word c)
  end.

Definition starts_outside_name (s : str) : bool :=
  match s with
  | [] => true
  | c :: _ => negb (is_word c)
  end.

(** After the blanks at the head of the text comes no bar. *)
Definition no_bar_ahead (s : str) : bool :=
  match drop_while is_blank s with
  | c :: _ => negb (Ascii.eqb c "|")
  | [] => true
  end.

(** * Properties *)

Unset Implicit Arguments.

(** ** The matcher *)

Lemma mtch_Lit (A : Type) (l s : str) (cs : caps) (k : str -> caps -> option A) :
  mtch (Lit l) s cs k =
  match strip_prefix l s with
  | Some s' => k s' cs
  | None => None
  end.
Proof.
  revert s. induction l as [|c l IH]; intros s; simpl; [reflexivity|].
  destruct s as [|x s]; [reflexivity|].
  destruct (Ascii.eqb x c); [apply IH|reflexivity].
Qed.

Lemma star_loop_S (A : Type)
      (step : str -> caps -> (str -> caps -> option A) -> option A)
      (g : greed) (k : str -> caps -> option A) (n : nat) (s : str) (cs : caps) :
  star_loop step g k (S n) s cs =
  match g with
  | Greedy =>
      match step s cs (fun s1 cs1 =>
                         if length s1 <? length s then star_loop step g k n s1 cs1
                         else None) with
      | Some a => Some a
      | None => k s cs
      end
  | Lazy =>
      match k s cs with
      | Some a => Some a
      | None =>
          step s cs (fun s1 cs1 =>
                       if length s1 <? length s then star_loop step g k n s1 cs1
                       else None)
      end
  end.
Proof. reflexivity. Qed.

(** A star over a body that reads one character of a class. *)
Lemma star_loop_one (A : Type) (p : ascii -> bool)
      (step : str -> caps -> (str -> caps -> option A) -> option A)
      (g : greed) (k : str -> caps -> option A) :
  (forall s cs k', step s cs k' =
                   match s with
                   | x :: s' => if p x then k' s' cs else None
                   | [] => None
                   end) ->
  forall n s cs, length s <= n ->
  star_loop step g k n s cs =
  match g with
  | Greedy => greedy_try p s cs k
  | Lazy => lazy_try p s cs k
  end.
Proof.
  intros Hstep n. induction n as [|n IH]; intros s cs Hn.
  - destruct s; [|simpl in Hn; lia]. simpl.
    destruct g; [reflexivity|]. destruct (k [] cs); reflexivity.
  - rewrite star_loop_S, Hstep. destruct s as [|x s].
    + simpl. destruct g; [reflexivity|]. destruct (k [] cs); reflexivity.
    + simpl in Hn.
      replace (length s <? length (x :: s)) with true
        by (symmetry; apply Nat.ltb_lt; simpl; lia).
      rewrite (IH s cs) by lia.
      destruct g; simpl; destruct (p x); reflexivity.
Qed.

Lemma mtch_star_cls (A : Type) (p : ascii -> bool) (g : greed) (s : str) (cs : caps)
      (k : str -> caps -> option A) :
  mtch (Star g (Cls p)) s cs k =
  match g with
  | Greedy => greedy_try p s cs k
  | Lazy => lazy_try p s cs k
  end.
Proof.
  change (mtch (Star g (Cls p)) s cs k)
    with (star_loop (mtch (Cls p)) g k (length s) s cs).
  apply star_loop_one; [reflexivity|lia].
Qed.

Lemma mtch_star_chr (A : Type) (c : ascii) (g : greed) (s : str) (cs : caps)
      (k : str -> caps -> option A) :
  mtch (Star g (Chr c)) s cs k =
  match g with
  | Greedy => greedy_try (fun x => Ascii.eqb x c) s cs k
  | Lazy => lazy_try (fun x => Ascii.eqb x c) s cs k
  end.
Proof.
  change (mtch (Star g (Chr c)) s cs k)
    with (star_loop (mtch (Chr c)) g k (length s) s cs).
  apply star_loop_one; [reflexivity|lia].
Qed.

(** A greedy star whose continuation refuses every text that starts with
    one more character of the class takes the whole run. *)
Lemma greedy_try_run (A : Type) (p : ascii -> bool) (k : str -> caps -> option A) :
  (forall c s cs, p c = true -> k (c :: s) cs = None) ->
  forall s cs, greedy_try p s cs k = k (drop_while p s) cs.
Proof.
  intros Hk s cs. induction s as [|c s IH]; simpl; [reflexivity|].
  destruct (p c) eqn:Hc; [|reflexivity].
  rewrite IH. destruct (k (drop_while p s) cs) eqn:E; [reflexivity|].
  apply Hk, Hc.
Qed.

(** So does one whose continuation never refuses. *)
Lemma greedy_try_total (A : Type) (p : ascii -> bool) (k : str -> caps -> option A) :
  (forall s cs, k s cs <> None) ->
  forall s cs, greedy_try p s cs k = k (drop_while p s) cs.
Proof.
  intros Hk s cs. induction s as [|c s IH]; simpl; [reflexivity|].
  destruct (p c) eqn:Hc; [|reflexivity].
  rewrite IH. destruct (k (drop_while p s) cs) eqn:E; [reflexivity|].
  exfalso. exact (Hk _ _ E).
Qed.

(** The continuation is what answers, on a text shorter by at least
    [min_len r] characters. *)
Lemma star_loop_answer (A : Type)
      (step : str -> caps -> (str -> caps -> option A) -> option A)
      (g : greed) (k : str -> caps -> option A) :
  (forall s cs k' a, step s cs k' = Some a ->
     exists s1 cs1, k' s1 cs1 = Some a /\ length s1 <= length s) ->
  forall n s cs a, star_loop step g k n s cs = Some a ->
  exists s1 cs1, k s1 cs1 = Some a /\ length s1 <= length s.
Proof.
  intros Hstep n. induction n as [|n IH]; intros s cs a H.
  - simpl in H. eauto.
  - rewrite star_loop_S in H.
    assert (Hmore : forall a0 k',
      k' = (fun s1 cs1 =>
        if length s1 <? length s then star_loop step g k n s1 cs1 else None) ->
      step s cs k' = Some a0 ->
      exists s1 cs1, k s1 cs1 = Some a0 /\ length s1 <= length s).
    { intros a0 k' -> H0. apply Hstep in H0. destruct H0 as (s1 & cs1 & H0 & Hl).
      destruct (length s1 <? length s); [|discriminate].
      apply IH in H0. destruct H0 as (s2 & cs2 & H0 & Hl2).
      exists s2, cs2. split; [exact H0|lia]. }
    destruct g.
    + destruct (step s cs _) eqn:E.
      * inversion H; subst. eapply Hmore; [reflexivity|exact E].
      * eauto.
    + destruct (k s cs) eqn:E.
      * inversion H; subst. eauto.
      * eapply Hmore; [reflexivity|exact H].
Qed.

Lemma mtch_answer (A : Type) (r : regex) :
  forall s cs (k : str -> caps -> option A) a,
  mtch r s cs k = Some a ->
  exists s1 cs1, k s1 cs1 = Some a /\ length s1 + min_len r <= length s.
Proof.
  induction r as [|c|p|r1 IH1 r2 IH2|r1 IH1 r2 IH2|g r IH|n r IH];
    intros s cs k a H; cbn [mtch] in H; cbn [min_len].
  - exists s, cs. split; [exact H|lia].
  - destruct s as [|x s]; [discriminate|].
    destruct (Ascii.eqb x c); [|discriminate].
    exists s, cs. split; [exact H|simpl; lia].
  - destruct s as [|x s]; [discriminate|].
    destruct (p x); [|discriminate].
    exists s, cs. split; [exact H|simpl; lia].
  - apply IH1 in H. destruct H as (s1 & cs1 & H & Hl).
    apply IH2 in H. destruct H as (s2 & cs2 & H & Hl2).
    exists s2, cs2. split; [exact H|lia].
  - destruct (mtch r1 s cs k) eqn:E.
    + inversion H; subst. apply IH1 in E. destruct E as (s1 & cs1 & E & Hl).
      exists s1, cs1. split; [exact E|lia].
    + apply IH2 in H. destruct H as (s1 & cs1 & H & Hl).
      exists s1, cs1. split; [exact H|lia].
  - apply star_loop_answer in H.
    + destruct H as (s1 & cs1 & H & Hl). exists s1, cs1. split; [exact H|lia].
    + intros s0 cs0 k' a0 H0. apply IH in H0.
      destruct H0 as (s1 & cs1 & H0 & Hl). exists s1, cs1. split; [exact H0|lia].
  - apply IH in H. destruct H as (s1 & cs1 & H & Hl). eauto.
Qed.

Lemma re_match_bounds (r : regex) (s : str) (len : nat) (cs : caps) :
  re_match r s = Some (len, cs) -> min_len r <= len <= length s.
Proof.
  unfold re_match. intros H. apply mtch_answer in H.
  destruct H as (s1 & cs1 & H & Hl). inversion H. lia.
Qed.

Lemma re_match_length (r : regex) (s : str) (len : nat) (cs : caps) :
  re_match r s = Some (len, cs) -> len <= length s.
Proof. intros H. apply re_match_bounds in H. lia. Qed.

(** ** The scan of [re.sub] *)

Lemma search_from_none (r : regex) (s : str) :
  forall i, search_from r i s = None ->
  re_match r s = None /\
  match s with
  | [] => True
  | _ :: s' => search_from r (S i) s' = None
  end.
Proof.
  intros i H. destruct s as [|c s]; simpl in H;
    destruct (re_match r _) as [[len cs]|]; try discriminate; auto.
Qed.

(** A pattern found nowhere leaves the text as it is, whatever the
    callback. *)
Lemma sub_loop_no_match (r : regex) (repl : str -> caps -> Res str) :
  forall fuel i adj s, search_from r i s = None ->
  sub_loop fuel r repl adj s = OK (s, []).
Proof.
  induction fuel as [|fuel IH]; intros i adj s H; [reflexivity|].
  apply search_from_none in H. destruct H as [Hm Hs].
  simpl. rewrite Hm. destruct s as [|c s]; [reflexivity|].
  rewrite (IH (S i) false s Hs). reflexivity.
Qed.

Lemma re_sub_no_match (r : regex) (repl : str -> caps -> Res str) (s : str) :
  re_search r s = None -> re_sub r repl s = OK s.
Proof.
  intros H. unfold re_sub, re_sub_log.
  rewrite (sub_loop_no_match r repl (S (length s)) 0 false s H). reflexivity.
Qed.

Lemma nonempty_min_len (r : regex) : 0 < min_len r -> nonempty r.
Proof. intros H s cs E. apply re_match_bounds in E. lia. Qed.

Lemma nonempty_shift_expr : nonempty shift_expr.
Proof. apply nonempty_min_len. vm_compute. lia. Qed.

Lemma nonempty_or_expr : nonempty or_expr.
Proof. apply nonempty_min_len. vm_compute. lia. Qed.

Lemma nonempty_table_expr : nonempty table_expr.
Proof. apply nonempty_min_len. vm_compute. lia. Qed.

Lemma nonempty_decl_expr : nonempty decl_expr.
Proof. apply nonempty_min_len. vm_compute. lia. Qed.

Lemma skipn_shorter (l : nat) (s : str) :
  S l <= length s -> length (skipn (S l) s) < length s.
Proof. intros H. rewrite length_skipn. lia. Qed.

Lemma sub_loop_fuel (r : regex) (repl : str -> caps -> Res str) :
  forall f1 f2 adj s, length s < f1 -> length s < f2 ->
  sub_loop f1 r repl adj s = sub_loop f2 r repl adj s.
Proof.
  induction f1 as [|f1 IH]; intros f2 adj s H1 H2; [lia|].
  destruct f2 as [|f2]; [lia|]. cbn [sub_loop].
  destruct (re_match r s) as [[[|l] cs]|] eqn:E.
  - destruct s as [|c s]; [reflexivity|]. cbn [length] in H1, H2.
    rewrite (IH f2 false s) by lia. reflexivity.
  - apply re_match_length in E. pose proof (skipn_shorter l s E).
    rewrite (IH f2 true (skipn (S l) s)) by lia. reflexivity.
  - destruct s as [|c s]; [reflexivity|]. cbn [length] in H1, H2.
    rewrite (IH f2 false s) by lia. reflexivity.
Qed.

Lemma sub_loop_adj (r : regex) (repl : str -> caps -> Res str) :
  nonempty r ->
  forall fuel adj s, sub_loop fuel r repl adj s = sub_loop fuel r repl false s.
Proof.
  intros Hne fuel adj s. destruct fuel; [reflexivity|]. cbn [sub_loop].
  destruct (re_match r s) as [[[|l] cs]|] eqn:E; try reflexivity.
  exfalso. exact (Hne _ _ E).
Qed.

(** One turn of the scan, for a pattern that has no empty match. *)
Lemma re_sub_log_step (r : regex) (repl : str -> caps -> Res str) (s : str) :
  nonempty r ->
  re_sub_log r repl s =
  match re_match r s with
  | Some (len, cs) =>
      t <- repl (firstn len s) cs ;;
      rest <- re_sub_log r repl (skipn len s) ;;
      OK (t ++ fst rest, (firstn len s, t) :: snd rest)
  | None =>
      match s with
      | [] => OK ([], [])
      | c :: s' =>
          rest <- re_sub_log r repl s' ;;
          OK (c :: fst rest, snd rest)
      end
  end.
Proof.
  intros Hne. unfold re_sub_log at 1. cbn [sub_loop].
  destruct (re_match r s) as [[[|l] cs]|] eqn:E.
  - exfalso. exact (Hne _ _ E).
  - apply re_match_length in E. pose proof (skipn_shorter l s E).
    unfold re_sub_log.
    rewrite (sub_loop_adj r repl Hne (length s) true).
    rewrite (sub_loop_fuel r repl (length s)
               (S (length (skipn (S l) s))) false) by lia.
    reflexivity.
  - destruct s as [|c s]; reflexivity.
Qed.

(** Induction on texts by their length. *)
Lemma str_length_ind (P : str -> Prop) :
  (forall s, (forall t, length t < length s -> P t) -> P s) ->
  forall s, P s.
Proof.
  intros H s. remember (length s) as n eqn:E. revert s E.
  induction n as [n IH] using lt_wf_ind. intros s E. subst n.
  apply H. intros t Ht. exact (IH (length t) Ht t eq_refl).
Qed.

(** ** The command line *)

Lemma parse_args_S (fuel : nat) (argv : list str) (i : nat) (f : str) :
  parse_args (S fuel) argv i f =
  if i <? length argv then
    if str_eqb (nth i argv []) (lit "-h") || str_eqb (nth i argv []) (lit "--help")
    then Exited [doc] 0
    else if str_eqb (nth i argv []) (lit "--header") then
      if i + 1 =? length argv then Exited [lit "--header <filename>"] 1
      else parse_args fuel argv (i + 1 + 1) (nth (i + 1) argv [])
    else parse_args fuel argv (i + 1) f
  else Proceed f.
Proof. reflexivity. Qed.

(** A command line on which the loop runs to its end: with [--header]
    added as one more argument the loop stops at it. *)
Lemma parse_args_dangling (argv : list str) :
  forall fuel i f g,
  i <= length argv -> length argv - i <= fuel ->
  parse_args fuel argv i f = Proceed g ->
  parse_args (S fuel) (argv ++ [lit "--header"]) i f =
  Exited [lit "--header <filename>"] 1.
Proof.
  induction fuel as [|fuel IH]; intros i f g Hi Hfuel H.
  - assert (i = length argv) by lia. subst i.
    rewrite parse_args_S, length_app, nth_middle. cbn [length].
    replace (length argv <? length argv + 1) with true
      by (symmetry; apply Nat.ltb_lt; lia).
    rewrite Nat.eqb_refl. reflexivity.
  - rewrite parse_args_S in H. rewrite parse_args_S, length_app. cbn [length].
    destruct (i <? length argv) eqn:Hlt.
    + apply Nat.ltb_lt in Hlt.
      replace (i <? length argv + 1) with true
        by (symmetry; apply Nat.ltb_lt; lia).
      rewrite (app_nth1 argv _ _ Hlt).
      destruct (str_eqb (nth i argv []) (lit "-h")
                || str_eqb (nth i argv []) (lit "--help")); [discriminate|].
      destruct (str_eqb (nth i argv []) (lit "--header")).
      * destruct (i + 1 =? length argv) eqn:He; [discriminate|].
        apply Nat.eqb_neq in He.
        replace (i + 1 =? length argv + 1) with false
          by (symmetry; apply Nat.eqb_neq; lia).
        rewrite (app_nth1 argv _ _) by lia.
        apply (IH _ _ g); [lia|lia|exact H].
      * apply (IH _ _ g); [lia|lia|exact H].
    + apply Nat.ltb_ge in Hlt. assert (i = length argv) by lia. subst i.
      replace (length argv <? length argv + 1) with true
        by (symmetry; apply Nat.ltb_lt; lia).
      rewrite nth_middle, Nat.eqb_refl. reflexivity.
Qed.

(** C10 (amended).  When the arguments before it let the loop run to its
    end (no [-h] or [--help] is met, no [--header] is left without its
    file name), a final [--header] makes the program print the usage hint
    of the flag and exit with status 1; control never reaches the pipeline. *)
Theorem header_flag_without_filename (prog : str) (args : list str) (f : str) :
  main_args (prog :: args) = Proceed f ->
  main_args (prog :: args ++ [lit "--header"]) =
  Exited [lit "--header <filename>"] 1.
Proof.
  unfold main_args. intros H.
  change (prog :: args ++ [lit "--header"])
    with ((prog :: args) ++ [lit "--header"]).
  rewrite length_app. cbn [length].
  replace (S (length args) + 1) with (S (S (length args))) by lia.
  apply (parse_args_dangling (prog :: args) _ _ _ f); cbn [length]; try lia.
  exact H.
Qed.

Lemma header_flag_without_filename_witness :
  main_args [lit "nuklear-cffi.py"; lit "--header"; lit "my.h"; lit "--header"] =
  Exited [lit "--header <filename>"] 1.
Proof.
  apply (header_flag_without_filename (lit "nuklear-cffi.py")
           [lit "--header"; lit "my.h"] (lit "my.h")).
  reflexivity.
Defined.

(** C10 as stated fails: [--help] before the final [--header] prints the
    docstring and exits with status 0. *)
Lemma header_flag_after_help :
  main_args [lit "nuklear-cffi.py"; lit "--help"; lit "--header"] = Exited [doc] 0
  /\ main_args [lit "nuklear-cffi.py"; lit "--help"; lit "--header"] <>
     Exited [lit "--header <filename>"] 1.
Proof. split; [reflexivity|discriminate]. Qed.

(** ** The stubbing pass *)

(** C8.  A text in which the pattern of the stubbing pass is found
    nowhere comes out of the pass as it went in, and no error is raised. *)
Theorem stub_nk_table_no_match (text : str) :
  re_search table_expr text = None -> stub_nk_table text = OK text.
Proof. intros H. apply re_sub_no_match, H. Qed.

Lemma stub_nk_table_no_match_witness :
  stub_nk_table (lit "struct nk_foo { int a; char b[sizeof(int)]; };") =
  OK (lit "struct nk_foo { int a; char b[sizeof(int)]; };").
Proof. apply stub_nk_table_no_match. vm_compute. reflexivity. Defined.

(** ** Symbol look-up *)

Lemma lookup_value_S (text : str) (fuel : nat) (value_name : str) :
  lookup_value text (S fuel) value_name =
  if existsb is_meta value_name then Err (NotLiteral value_name)
  else
    match assigned text value_name with
    | Some value =>
        if matches_at or_expr value || matches_at val_expr value
        then evaluate_terms (lookup_value text fuel) value
        else int0 value
    | None => Err (CannotFind value_name)
    end.
Proof.
  unfold assigned. cbn [lookup_value].
  destruct (existsb is_meta value_name); [reflexivity|].
  destruct (re_search (assign_expr value_name) text) as [[[i len] cs]|];
    reflexivity.
Qed.

Lemma is_word_not_meta (c : ascii) : is_word c = true -> is_meta c = false.
Proof.
  destruct c as [[] [] [] [] [] [] [] []]; vm_compute; congruence.
Qed.

Lemma word_not_meta (value_name : str) :
  forallb is_word value_name = true -> existsb is_meta value_name = false.
Proof.
  induction value_name as [|c n IH]; [reflexivity|]. cbn [forallb existsb].
  intros H. apply andb_true_iff in H. destruct H as [Hc Hn].
  rewrite (is_word_not_meta c Hc), (IH Hn). reflexivity.
Qed.

Lemma mapM_fails (A B : Type) (f : A -> Res B) (l : list A) (x : A) :
  In x l -> (exists e, f x = Err e) -> exists e, mapM f l = Err e.
Proof.
  intros Hin [e He]. induction l as [|a l IH]; [contradiction|].
  cbn [mapM]. destruct Hin as [->|Hin].
  - rewrite He. exists e. reflexivity.
  - destruct (f a) as [b|e1]; [|exists e1; reflexivity].
    destruct (IH Hin) as [e2 E2]. cbn [bind]. rewrite E2.
    exists e2. reflexivity.
Qed.

(** A chain with a term whose look-up fails has no value. *)
Lemma evaluate_terms_fails (lookup : str -> Res Z) (expression_text name : str) :
  In name (terms expression_text) -> (exists e, lookup name = Err e) ->
  exists e, evaluate_terms lookup expression_text = Err e.
Proof.
  unfold terms, evaluate_terms. intros Hin He.
  apply in_map_iff in Hin. destruct Hin as (x & Hx & Hin).
  destruct (mapM_fails _ _ (fun x => lookup (strip x)) _ x Hin) as [e E].
  - rewrite Hx. exact He.
  - rewrite E. exists e. reflexivity.
Qed.

(** A scan that meets a text on which the callback fails, fails. *)
Lemma sub_loop_fails (r : regex) (repl : str -> caps -> Res str) (m : str) :
  (forall cs, exists e, repl m cs = Err e) ->
  forall fuel adj s, In m (scan_matches fuel r s) ->
  exists e, sub_loop fuel r repl adj s = Err e.
Proof.
  intros Hm. induction fuel as [|fuel IH]; intros adj s Hin; [contradiction|].
  cbn [scan_matches] in Hin. cbn [sub_loop].
  destruct (re_match r s) as [[[|l] cs]|].
  - destruct s as [|c s]; [contradiction|].
    destruct (IH false s Hin) as [e E].
    destruct adj.
    + rewrite E. exists e. reflexivity.
    + destruct (repl [] cs) as [t|e1]; [|exists e1; reflexivity].
      cbn [bind]. rewrite E. exists e. reflexivity.
  - destruct Hin as [<-|Hin].
    + destruct (Hm cs) as [e E]. rewrite E. exists e. reflexivity.
    + destruct (repl (firstn (S l) s) cs) as [t|e1]; [|exists e1; reflexivity].
      destruct (IH true _ Hin) as [e E]. cbn [bind]. rewrite E.
      exists e. reflexivity.
  - destruct s as [|c s]; [contradiction|].
    destruct (IH false s Hin) as [e E]. rewrite E. exists e. reflexivity.
Qed.

(** A name that refers to a name whose look-up fails has no value. *)
Lemma refers_fails (text n m : str) :
  refers text n m ->
  (forall fuel, exists e, lookup_value text fuel m = Err e) ->
  forall fuel, exists e, lookup_value text fuel n = Err e.
Proof.
  unfold refers, deps. intros Hr Hm fuel.
  destruct fuel as [|fuel]; [exists RecursionDepth; reflexivity|].
  rewrite lookup_value_S.
  destruct (existsb is_meta n); [contradiction|].
  destruct (assigned text n) as [value|]; [|contradiction].
  destruct (matches_at or_expr value || matches_at val_expr value);
    [|contradiction].
  apply (evaluate_terms_fails _ value m Hr), Hm.
Qed.

Lemma reaches_fails (text n m : str) :
  reaches text n m ->
  (forall fuel, exists e, lookup_value text fuel m = Err e) ->
  forall fuel, exists e, lookup_value text fuel n = Err e.
Proof.
  induction 1 as [n m H|n m p H _ IH]; intros Hm.
  - eapply refers_fails; eassumption.
  - eapply refers_fails; [exact H|]. apply IH, Hm.
Qed.

(** C3.  A symbol with no assignment anywhere in the text: its look-up
    raises the exception that names it, and an OR-folding pass that meets
    a chain with that symbol among its terms, or with a term that leads
    to it through the assignments, ends in an error, at any recursion
    depth; no text comes out. *)
Theorem unresolvable_symbol_is_fatal (text name : str) :
  forallb is_word name = true ->
  re_search (assign_expr name) text = None ->
  (forall fuel, lookup_value text (S fuel) name = Err (CannotFind name)) /\
  (forall fuel chain term,
     In chain (chains text) -> In term (terms chain) ->
     term = name \/ reaches text term name ->
     exists e, fold_or fuel text = Err e).
Proof.
  intros Hw Hs.
  assert (Hl : forall fuel, lookup_value text (S fuel) name = Err (CannotFind name)).
  { intros fuel. rewrite lookup_value_S, (word_not_meta name Hw).
    unfold assigned. rewrite Hs. reflexivity. }
  split; [exact Hl|].
  assert (Hall : forall fuel, exists e, lookup_value text fuel name = Err e).
  { intros [|fuel]; [exists RecursionDepth; reflexivity|]. rewrite Hl. eauto. }
  intros fuel chain term Hc Hn Hterm. unfold fold_or, re_sub, re_sub_log.
  destruct (sub_loop_fails or_expr (replace_or text fuel) chain) with
    (fuel := S (length text)) (adj := false) (s := text) as [e E].
  - intros cs. unfold replace_or, evaluate_or.
    destruct (evaluate_terms_fails (lookup_value text fuel) chain term Hn) as [e E].
    + destruct Hterm as [->|Hr]; [apply Hall|].
      apply (reaches_fails text term name Hr Hall).
    + rewrite E. exists e. reflexivity.
  - exact Hc.
  - rewrite E. exists e. reflexivity.
Qed.

Lemma unresolvable_symbol_is_fatal_witness :
  lookup_value (lit "NK_A = 1, NK_F = NK_A | NK_B") 1 (lit "NK_B") =
  Err (CannotFind (lit "NK_B")) /\
  exists e, fold_or 1000 (lit "NK_A = 1, NK_F = NK_A | NK_B") = Err e.
Proof.
  destruct (unresolvable_symbol_is_fatal
              (lit "NK_A = 1, NK_F = NK_A | NK_B") (lit "NK_B")) as [Ha Hb];
    [vm_compute; reflexivity|vm_compute; reflexivity|].
  split; [apply Ha|].
  apply (Hb 1000 (lit "NK_A | NK_B") (lit "NK_B"));
    [vm_compute; auto|vm_compute; auto|left; reflexivity].
Defined.

Lemma mapM_ok (A B : Type) (f : A -> Res B) (l : list A) (bs : list B) :
  Forall2 (fun a b => f a = OK b) l bs -> mapM f l = OK bs.
Proof.
  induction 1 as [|a b l bs Hab _ IH]; [reflexivity|].
  cbn [mapM]. rewrite Hab. cbn [bind]. rewrite IH. reflexivity.
Qed.

Lemma evaluate_terms_ok (lookup : str -> Res Z) (expression_text : str)
      (values : list Z) :
  Forall2 (fun n v => lookup n = OK v) (terms expression_text) values ->
  evaluate_terms lookup expression_text = OK (reduce_or values).
Proof.
  unfold terms, evaluate_terms. intros H.
  rewrite (mapM_ok _ _ (fun x => lookup (strip x)) _ values); [reflexivity|].
  remember (split_on "|" expression_text) as l eqn:El. clear El.
  revert values H. induction l as [|x l IH]; intros values H;
    inversion H; subst; constructor; auto.
Qed.

(** A name assigned an integer literal. *)
Lemma lookup_value_literal (text : str) (fuel : nat) (name value : str) (v : Z) :
  existsb is_meta name = false ->
  assigned text name = Some value ->
  matches_at or_expr value || matches_at val_expr value = false ->
  int0 value = OK v ->
  lookup_value text (S fuel) name = OK v.
Proof.
  intros Hn Ha Hm Hv. rewrite lookup_value_S, Hn, Ha, Hm. exact Hv.
Qed.

(** A name assigned a chain of names. *)
Lemma lookup_value_chain (text : str) (fuel : nat) (name value : str)
      (values : list Z) :
  existsb is_meta name = false ->
  assigned text name = Some value ->
  matches_at or_expr value || matches_at val_expr value = true ->
  Forall2 (fun n v => lookup_value text fuel n = OK v) (terms value) values ->
  lookup_value text (S fuel) name = OK (reduce_or values).
Proof.
  intros Hn Ha Hm Hv. rewrite lookup_value_S, Hn, Ha, Hm.
  apply evaluate_terms_ok, Hv.
Qed.

(** In a text where the look-up finds [1] for [NK_A], [2] for [NK_B] and
    [NK_A | NK_B] for [NK_FLAGS], resolving [NK_FLAGS] gives 3; where it
    also finds [NK_A | NK_B] for [NK_C], [4] for [NK_E] and [NK_C | NK_E]
    for [NK_D], resolving [NK_D] gives 7. *)
Lemma or_chain_resolution_found (text : str) :
  assigned text (lit "NK_A") = Some (lit "1") ->
  assigned text (lit "NK_B") = Some (lit "2") ->
  assigned text (lit "NK_FLAGS") = Some (lit "NK_A | NK_B") ->
  forall fuel,
  evaluate_or text (S (S fuel)) (lit "NK_FLAGS") = OK 3%Z /\
  (assigned text (lit "NK_C") = Some (lit "NK_A | NK_B") ->
   assigned text (lit "NK_E") = Some (lit "4") ->
   assigned text (lit "NK_D") = Some (lit "NK_C | NK_E") ->
   evaluate_or text (S (S (S fuel))) (lit "NK_D") = OK 7%Z).
Proof.
  intros HA HB HF fuel.
  assert (LA : forall f, lookup_value text (S f) (lit "NK_A") = OK 1%Z).
  { intros f. apply (lookup_value_literal text f _ (lit "1")); auto. }
  assert (LB : forall f, lookup_value text (S f) (lit "NK_B") = OK 2%Z).
  { intros f. apply (lookup_value_literal text f _ (lit "2")); auto. }
  assert (LAB : forall f name,
    existsb is_meta name = false ->
    assigned text name = Some (lit "NK_A | NK_B") ->
    lookup_value text (S (S f)) name = OK 3%Z).
  { intros f name Hn Hv.
    apply (lookup_value_chain text (S f) name (lit "NK_A | NK_B") [1; 2]%Z);
      auto.
    change (terms (lit "NK_A | NK_B")) with [lit "NK_A"; lit "NK_B"].
    repeat constructor; auto. }
  split.
  - apply (evaluate_terms_ok _ (lit "NK_FLAGS") [3%Z]).
    change (terms (lit "NK_FLAGS")) with [lit "NK_FLAGS"].
    repeat constructor. apply LAB; auto.
  - intros HC HE HD.
    apply (evaluate_terms_ok _ (lit "NK_D") [7%Z]).
    change (terms (lit "NK_D")) with [lit "NK_D"].
    repeat constructor.
    apply (lookup_value_chain text (S (S fuel)) _ (lit "NK_C | NK_E") [3; 4]%Z);
      auto.
    change (terms (lit "NK_C | NK_E")) with [lit "NK_C"; lit "NK_E"].
    repeat constructor.
    + apply LAB; auto.
    + apply (lookup_value_literal text (S fuel) _ (lit "4")); auto.
Qed.

(** C1 as stated fails.  A term of a chain is always looked up as a
    name, so the literal [4] of [NK_C | 4] has no definition here; the
    value [A | B] does not start with [nk_] or [NK_], so it is no chain
    and goes to [int]; and the search stops at the first place where the
    name is followed by an equals sign, here inside [MY_NK_A = 4], so a
    text that holds [NK_A = 1], [NK_B = 2] and [NK_FLAGS = NK_A | NK_B]
    can resolve [NK_FLAGS] to 6; and the value runs up to the next comma
    or line feed, so what closes the line of [NK_B = 2] goes to [int]
    with it. *)
Lemma or_chain_literal_term_fails :
  evaluate_or (lit "NK_A = 1
NK_B = 2
NK_FLAGS = NK_A | NK_B
NK_C = NK_A | NK_B
NK_D = NK_C | 4
") 1000 (lit "NK_D") = Err (CannotFind (lit "4")) /\
  evaluate_or (lit "A = 1
B = 2
FLAGS = A | B
C = A | B
D = C | 4
") 1000 (lit "FLAGS") = Err (ValueError (lit "A | B")) /\
  evaluate_or (lit "MY_NK_A = 4,
NK_A = 1,
NK_B = 2,
NK_FLAGS = NK_A | NK_B
") 1000 (lit "NK_FLAGS") = OK 6%Z /\
  evaluate_or
    (lit "enum nk_flags { NK_A = 1, NK_FLAGS = NK_A | NK_B, NK_B = 2 };")
    1000 (lit "NK_FLAGS") = Err (ValueError (lit "2 };")).
Proof. repeat split; vm_compute; reflexivity. Qed.

(** ** The OR-folding pass *)

Lemma bind_ok (A B : Type) (m : Res A) (f : A -> Res B) (b : B) :
  bind m f = OK b -> exists a, m = OK a /\ f a = OK b.
Proof. destruct m as [a|e]; [eauto|discriminate]. Qed.

(** Every entry of the log is a text the callback was given and what it
    answered. *)
Lemma sub_loop_log (r : regex) (repl : str -> caps -> Res str) :
  forall fuel adj s out log,
  sub_loop fuel r repl adj s = OK (out, log) ->
  forall m t, In (m, t) log -> exists cs, repl m cs = OK t.
Proof.
  induction fuel as [|fuel IH]; intros adj s out log H m t Hin.
  - inversion H; subst. contradiction.
  - cbn [sub_loop] in H.
    destruct (re_match r s) as [[[|l] cs]|].
    + destruct adj.
      * destruct s as [|c s]; [inversion H; subst; contradiction|].
        apply bind_ok in H. destruct H as ([o1 l1] & H1 & H2).
        inversion H2; subst. eapply IH; eassumption.
      * apply bind_ok in H. destruct H as (t0 & Ht & H).
        destruct s as [|c s].
        -- inversion H; subst. destruct Hin as [E|[]]. inversion E; subst. eauto.
        -- apply bind_ok in H. destruct H as ([o1 l1] & H1 & H2).
           inversion H2; subst. destruct Hin as [E|Hin].
           ++ inversion E; subst. eauto.
           ++ eapply IH; eassumption.
    + apply bind_ok in H. destruct H as (t0 & Ht & H).
      apply bind_ok in H. destruct H as ([o1 l1] & H1 & H2).
      inversion H2; subst. destruct Hin as [E|Hin].
      * inversion E; subst. eauto.
      * eapply IH; eassumption.
    + destruct s as [|c s]; [inversion H; subst; contradiction|].
      apply bind_ok in H. destruct H as ([o1 l1] & H1 & H2).
      inversion H2; subst. eapply IH; eassumption.
Qed.

(** The log lists the matches of the scan. *)
Lemma sub_loop_log_matches (r : regex) (repl : str -> caps -> Res str) :
  nonempty r ->
  forall fuel adj s out log,
  sub_loop fuel r repl adj s = OK (out, log) ->
  map fst log = scan_matches fuel r s.
Proof.
  intros Hne. induction fuel as [|fuel IH]; intros adj s out log H.
  - inversion H; subst. reflexivity.
  - cbn [sub_loop] in H. cbn [scan_matches].
    destruct (re_match r s) as [[[|l] cs]|] eqn:E.
    + exfalso. exact (Hne _ _ E).
    + apply bind_ok in H. destruct H as (t0 & Ht & H).
      apply bind_ok in H. destruct H as ([o1 l1] & H1 & H2).
      inversion H2; subst. cbn [map fst snd]. f_equal. eapply IH, H1.
    + destruct s as [|c s]; [inversion H; subst; reflexivity|].
      apply bind_ok in H. destruct H as ([o1 l1] & H1 & H2).
      inversion H2; subst. eapply IH, H1.
Qed.

(** The chains the OR-folding pass replaces are the chains of the text it
    started from, and each one is replaced by the decimal string of its
    value over that text. *)
Lemma fold_or_log_entries (depth : nat) (text out : str)
        (log : list (str * str)) :
  fold_or_log depth text = OK (out, log) ->
  fold_or depth text = OK out /\
  map fst log = chains text /\
  forall chain t, In (chain, t) log ->
    exists v, evaluate_or text depth chain = OK v /\ t = str_of_Z v.
Proof.
  intros H. split; [|split].
  - unfold fold_or, re_sub. unfold fold_or_log in H. rewrite H. reflexivity.
  - unfold chains. eapply sub_loop_log_matches; [exact nonempty_or_expr|exact H].
  - intros chain t Hin.
    destruct (sub_loop_log _ _ _ _ _ _ _ H chain t Hin) as [cs Hr].
    unfold replace_or in Hr. apply bind_ok in Hr.
    destruct Hr as (v & Hv & Ht). inversion Ht. eauto.
Qed.

(** C7 as stated fails.  In this text the first assignment pattern for
    [NK_A] is [NK_A = 4]; the first chain is replaced by 12 and that
    destroys it, so a look-up in the rewritten buffer would find
    [NK_A = 1] and the last chain would become 9.  The pass writes 12. *)
Lemma or_pass_not_live :
  fold_or 1000 (lit "NK_C | NK_A = 4,
NK_C = 8,
NK_A = 1,
NK_C | NK_A") = OK (lit "12 = 4,
NK_C = 8,
NK_A = 1,
12") /\
  fold_or_live 1000 (lit "NK_C | NK_A = 4,
NK_C = 8,
NK_A = 1,
NK_C | NK_A") = OK (lit "12 = 4,
NK_C = 8,
NK_A = 1,
9") /\
  fold_or 1000 (lit "NK_C | NK_A = 4,
NK_C = 8,
NK_A = 1,
NK_C | NK_A") <> fold_or_live 1000 (lit "NK_C | NK_A = 4,
NK_C = 8,
NK_A = 1,
NK_C | NK_A").
Proof.
  split; [vm_compute; reflexivity|].
  split; [vm_compute; reflexivity|].
  vm_compute. discriminate.
Qed.

(** ** Texts and prefixes *)

Lemma strip_prefix_app (p s : str) : strip_prefix p (p ++ s) = Some s.
Proof.
  induction p as [|c p IH]; [reflexivity|].
  simpl. rewrite Ascii.eqb_refl. exact IH.
Qed.

Lemma strip_prefix_some (p s rest : str) :
  strip_prefix p s = Some rest -> s = p ++ rest.
Proof.
  revert s. induction p as [|c p IH]; intros s H; simpl in H.
  - inversion H. reflexivity.
  - destruct s as [|x s]; [discriminate|].
    destruct (Ascii.eqb_spec x c); [|discriminate].
    subst. simpl. f_equal. apply IH, H.
Qed.

Lemma strip_prefix_ext (p s rest t : str) :
  strip_prefix p s = Some rest -> strip_prefix p (s ++ t) = Some (rest ++ t).
Proof.
  intros H. apply strip_prefix_some in H. subst s.
  rewrite <- app_assoc. apply strip_prefix_app.
Qed.

Lemma take_drop_while (p : ascii -> bool) (s : str) :
  take_while p s ++ drop_while p s = s.
Proof.
  induction s as [|c s IH]; [reflexivity|].
  simpl. destruct (p c); [simpl; f_equal; exact IH|reflexivity].
Qed.

Lemma take_while_all (p : ascii -> bool) (s : str) :
  forallb p (take_while p s) = true.
Proof.
  induction s as [|c s IH]; [reflexivity|].
  simpl. destruct (p c) eqn:E; [simpl; rewrite E; exact IH|reflexivity].
Qed.

Lemma drop_while_length (p : ascii -> bool) (s : str) :
  length (drop_while p s) <= length s.
Proof.
  induction s as [|c s IH]; [simpl; lia|].
  simpl. destruct (p c); simpl; lia.
Qed.

(** The run a greedy class takes, as the slice a group records. *)
Lemma firstn_take_while (p : ascii -> bool) (s : str) :
  firstn (length s - length (drop_while p s)) s = take_while p s.
Proof.
  induction s as [|c s IH]; [reflexivity|].
  cbn [take_while drop_while]. destruct (p c).
  - pose proof (drop_while_length p s). cbn [length].
    replace (S (length s) - length (drop_while p s))
      with (S (length s - length (drop_while p s))) by lia.
    cbn [firstn]. f_equal. exact IH.
  - rewrite Nat.sub_diag. reflexivity.
Qed.

(** A run of the class followed by a character outside it. *)
Lemma take_while_run (p : ascii -> bool) (ds : str) (c : ascii) (rest : str) :
  forallb p ds = true -> p c = false ->
  take_while p (ds ++ c :: rest) = ds /\ drop_while p (ds ++ c :: rest) = c :: rest.
Proof.
  intros Hds Hc. induction ds as [|d ds IH]; simpl.
  - rewrite Hc. auto.
  - simpl in Hds. apply andb_true_iff in Hds. destruct Hds as [Hd Hds].
    rewrite Hd. destruct (IH Hds) as [E1 E2]. rewrite E1, E2. auto.
Qed.

(** ** Decimal strings *)

Lemma read_digits_head (c : ascii) (v acc : Z) (s : str) :
  digit_value c = Some v -> (v <? 10)%Z = true ->
  fst (fst (read_digits 10 acc (c :: s))) =
  fst (fst (read_digits 10 (acc * 10 + v) s)).
Proof.
  intros Hc Hv. cbn [read_digits]. rewrite Hc, Hv.
  destruct (read_digits 10 (acc * 10 + v) s) as [[x n] rest]. reflexivity.
Qed.

Lemma read_digits_uint (d : uint) :
  forall acc,
  fst (fst (read_digits 10 acc (lit (NilEmpty.string_of_uint d)))) = uint_val acc d.
Proof.
  induction d as [|d IH|d IH|d IH|d IH|d IH|d IH|d IH|d IH|d IH|d IH];
    intros acc; [reflexivity|..];
    cbn [NilEmpty.string_of_uint lit list_ascii_of_string uint_val];
    fold (lit (NilEmpty.string_of_uint d));
    (erewrite read_digits_head; [|reflexivity|reflexivity]);
    rewrite IH; f_equal;
    match goal with
    | |- context [Z.of_nat (nat_of_ascii ?c)] =>
        let v := eval vm_compute in (Z.of_nat (nat_of_ascii c)) in
        change (Z.of_nat (nat_of_ascii c)) with v
    end; lia.
Qed.

Lemma uint_val_acc (d : uint) (acc : positive) :
  Zpos (Pos.of_uint_acc d acc) = uint_val (Zpos acc) d.
Proof.
  revert acc.
  induction d as [|d IH|d IH|d IH|d IH|d IH|d IH|d IH|d IH|d IH|d IH];
    intros acc; [reflexivity|..];
    cbn [Pos.of_uint_acc uint_val]; rewrite IH; f_equal; lia.
Qed.

Lemma uint_val_of_uint (d : uint) : Z.of_N (Pos.of_uint d) = uint_val 0 d.
Proof.
  induction d as [|d IH|d IH|d IH|d IH|d IH|d IH|d IH|d IH|d IH|d IH];
    [reflexivity|exact IH|..];
    cbn [Pos.of_uint uint_val Z.of_N]; rewrite uint_val_acc; reflexivity.
Qed.

(** [int] reads back what [str] writes. *)
Lemma int10_str_of_Z (n : Z) : (0 <= n)%Z -> int10 (str_of_Z n) = n.
Proof.
  intros Hn. destruct n as [|p|p]; [reflexivity| |lia].
  unfold int10, str_of_Z. cbn [Z.to_int NilZero.string_of_int].
  unfold NilZero.string_of_uint.
  pose proof (DecimalPos.Unsigned.to_uint_nonnil p) as Hnil.
  pose proof (DecimalPos.Unsigned.of_to p) as Hp.
  destruct (Pos.to_uint p) as [|d|d|d|d|d|d|d|d|d|d] eqn:E;
    [contradiction|..];
    rewrite read_digits_uint, <- uint_val_of_uint, Hp; reflexivity.
Qed.

(** [str] of an integer never starts with an opening parenthesis. *)
Lemma str_of_Z_head (n : Z) :
  exists c rest, str_of_Z n = c :: rest /\ c <> "("%char.
Proof.
  unfold str_of_Z.
  destruct n as [|p|p]; cbn [Z.to_int NilZero.string_of_int].
  - exists "0"%char, []. split; [reflexivity|discriminate].
  - unfold NilZero.string_of_uint.
    destruct (Pos.to_uint p);
      cbn [NilEmpty.string_of_uint lit list_ascii_of_string];
      eexists; eexists; (split; [reflexivity|discriminate]).
  - cbn [lit list_ascii_of_string].
    eexists; eexists; (split; [reflexivity|discriminate]).
Qed.

(** ** The shift pattern *)

Lemma mtch_Cat (A : Type) (r1 r2 : regex) (s : str) (cs : caps)
      (k : str -> caps -> option A) :
  mtch (Cat r1 r2) s cs k = mtch r1 s cs (fun s1 cs1 => mtch r2 s1 cs1 k).
Proof. reflexivity. Qed.

Lemma mtch_Grp (A : Type) (n : nat) (r : regex) (s : str) (cs : caps)
      (k : str -> caps -> option A) :
  mtch (Grp n r) s cs k =
  mtch r s cs (fun s1 cs1 => k s1 ((n, firstn (length s - length s1) s) :: cs1)).
Proof. reflexivity. Qed.

Lemma mtch_Cls (A : Type) (p : ascii -> bool) (s : str) (cs : caps)
      (k : str -> caps -> option A) :
  mtch (Cls p) s cs k =
  match s with
  | x :: s' => if p x then k s' cs else None
  | [] => None
  end.
Proof. reflexivity. Qed.

Lemma mtch_Chr (A : Type) (c : ascii) (s : str) (cs : caps)
      (k : str -> caps -> option A) :
  mtch (Chr c) s cs k =
  match s with
  | x :: s' => if Ascii.eqb x c then k s' cs else None
  | [] => None
  end.
Proof. reflexivity. Qed.

Lemma digit_not_close (c : ascii) : is_digit c = true -> Ascii.eqb c ")" = false.
Proof.
  intros H. destruct (Ascii.eqb_spec c ")"); [subst; discriminate|reflexivity].
Qed.

Lemma re_match_shift (s : str) :
  re_match shift_expr s =
  match shift_match s with
  | Some (ds, rest) => Some (length s - length rest, [(1, ds)])
  | None => None
  end.
Proof.
  unfold re_match, shift_expr, shift_match, Plus.
  rewrite mtch_Cat, mtch_Lit.
  destruct (strip_prefix (lit "(1 << (") s) as [s1|]; [|reflexivity].
  rewrite mtch_Cat, mtch_Grp, mtch_Cat, mtch_Cls.
  destruct s1 as [|d s1]; [reflexivity|].
  cbn [take_while drop_while]. destruct (is_digit d) eqn:Hd; [|reflexivity].
  rewrite mtch_star_cls, greedy_try_run.
  - rewrite mtch_Lit.
    destruct (strip_prefix (lit "))") (drop_while is_digit s1)) as [rest|];
      [|reflexivity].
    rewrite <- (firstn_take_while is_digit s1).
    pose proof (drop_while_length is_digit s1). cbn [length].
    replace (S (length s1) - length (drop_while is_digit s1))
      with (S (length s1 - length (drop_while is_digit s1))) by lia.
    reflexivity.
  - intros c s0 cs Hc. rewrite mtch_Lit. cbn [lit list_ascii_of_string strip_prefix].
    rewrite (digit_not_close c Hc). reflexivity.
Qed.

Lemma shift_match_occ (ds post : str) :
  ds <> [] -> forallb is_digit ds = true ->
  shift_match (lit "(1 << (" ++ ds ++ lit "))" ++ post) = Some (ds, post).
Proof.
  intros Hne Hds. unfold shift_match. rewrite strip_prefix_app.
  change (lit "))" ++ post) with (")"%char :: ")"%char :: post).
  destruct (take_while_run is_digit ds ")" (")"%char :: post) Hds eq_refl)
    as [E1 E2].
  rewrite E1, E2. destruct ds as [|d ds]; [contradiction|reflexivity].
Qed.

Lemma shift_match_inv (s ds rest : str) :
  shift_match s = Some (ds, rest) ->
  ds <> [] /\ forallb is_digit ds = true /\
  s = lit "(1 << (" ++ ds ++ lit "))" ++ rest.
Proof.
  unfold shift_match. intros H.
  destruct (strip_prefix (lit "(1 << (") s) as [s1|] eqn:E1; [|discriminate].
  apply strip_prefix_some in E1.
  pose proof (take_drop_while is_digit s1) as Hs1.
  pose proof (take_while_all is_digit s1) as Hall.
  destruct (take_while is_digit s1) as [|d ds'] eqn:E2; [discriminate|].
  destruct (strip_prefix (lit "))") (drop_while is_digit s1)) as [r|] eqn:E3;
    [|discriminate].
  apply strip_prefix_some in E3. inversion H; subst ds rest.
  split; [discriminate|]. split; [exact Hall|].
  rewrite E1, <- Hs1, E3. reflexivity.
Qed.

Lemma shift_match_ext (s t ds rest : str) :
  shift_match s = Some (ds, rest) -> shift_match (s ++ t) = Some (ds, rest ++ t).
Proof.
  intros H. apply shift_match_inv in H. destruct H as (Hne & Hds & ->).
  rewrite <- !app_assoc. apply shift_match_occ; assumption.
Qed.

(** A character outside the class ends the run wherever it stands. *)
Lemma take_while_stop (p : ascii -> bool) (s : str) (c : ascii) (t : str) :
  p c = false ->
  take_while p (s ++ c :: t) = take_while p s /\
  drop_while p (s ++ c :: t) = drop_while p s ++ c :: t.
Proof.
  intros Hc. induction s as [|x s [IH1 IH2]]; simpl.
  - rewrite Hc. auto.
  - destruct (p x); [rewrite IH1, IH2|]; auto.
Qed.

Lemma close_none_ext (u t : str) :
  strip_prefix (lit "))") u = None ->
  strip_prefix (lit "))") (u ++ "("%char :: t) = None.
Proof.
  destruct u as [|a [|b u]]; cbn [lit list_ascii_of_string strip_prefix app];
    intros H; try reflexivity.
  - destruct (Ascii.eqb a ")"); reflexivity.
  - destruct (Ascii.eqb a ")"); [|reflexivity].
    destruct (Ascii.eqb b ")"); [discriminate|reflexivity].
Qed.

(** No match of the shift pattern starts before an occurrence of the
    pattern and runs into it. *)
Lemma shift_match_none_ext (s t : str) :
  s <> [] -> shift_match s = None ->
  shift_match (s ++ "("%char :: "1"%char :: " "%char :: t) = None.
Proof.
  intros Hne H. unfold shift_match in *.
  destruct (strip_prefix (lit "(1 << (") s) as [s1|] eqn:E1.
  - rewrite (strip_prefix_ext _ _ _ _ E1).
    destruct (take_while_stop is_digit s1 "(" ("1"%char :: " "%char :: t) eq_refl)
      as [T1 T2].
    rewrite T1, T2.
    destruct (take_while is_digit s1) as [|d ds]; [reflexivity|].
    destruct (strip_prefix (lit "))") (drop_while is_digit s1)) eqn:E2;
      [discriminate|].
    rewrite (close_none_ext _ _ E2). reflexivity.
  - clear H.
    destruct s as [|c1 [|c2 [|c3 [|c4 [|c5 [|c6 [|c7 s]]]]]]];
      [contradiction|..];
      cbn [app lit list_ascii_of_string strip_prefix] in *;
      repeat match goal with
             | |- context [Ascii.eqb ?a ?b] =>
                 first [ is_var a; destruct (Ascii.eqb a b)
                       | let v := eval vm_compute in (Ascii.eqb a b) in
                         change (Ascii.eqb a b) with v ];
                 cbv iota
             end;
      try reflexivity; try discriminate.
Qed.

(** ** Scanning a text in two parts *)

Lemma re_match_nil (r : regex) : nonempty r -> re_match r [] = None.
Proof.
  intros Hne. destruct (re_match r []) as [[len cs]|] eqn:E; [|reflexivity].
  pose proof (re_match_length _ _ _ _ E) as Hl. simpl in Hl.
  assert (len = 0) by lia. subst. exfalso. exact (Hne _ _ E).
Qed.

Lemma re_sub_log_nil (r : regex) (repl : str -> caps -> Res str) :
  nonempty r -> re_sub_log r repl [] = OK ([], []).
Proof.
  intros Hne. rewrite (re_sub_log_step r repl [] Hne), (re_match_nil r Hne).
  reflexivity.
Qed.

(** The scan of [s ++ t] is the scan of [s] followed by the scan of [t]
    when no match that starts in [s] runs into [t]. *)
Lemma re_sub_log_app (r : regex) (repl : str -> caps -> Res str) (t : str) :
  nonempty r ->
  (forall s len cs, re_match r s = Some (len, cs) ->
                    re_match r (s ++ t) = Some (len, cs)) ->
  (forall s, s <> [] -> re_match r s = None -> re_match r (s ++ t) = None) ->
  forall s,
  re_sub_log r repl (s ++ t) =
  (x <- re_sub_log r repl s ;;
   y <- re_sub_log r repl t ;;
   OK (fst x ++ fst y, snd x ++ snd y)).
Proof.
  intros Hne Hext Hnone s. pattern s. apply str_length_ind. clear s. intros s IH.
  destruct s as [|c s].
  - rewrite (re_sub_log_nil r repl Hne). cbn [app bind fst snd].
    destruct (re_sub_log r repl t) as [[o l]|e]; reflexivity.
  - rewrite (re_sub_log_step r repl ((c :: s) ++ t) Hne).
    rewrite (re_sub_log_step r repl (c :: s) Hne).
    destruct (re_match r (c :: s)) as [[len cs]|] eqn:E.
    + rewrite (Hext _ _ _ E).
      pose proof (re_match_length _ _ _ _ E) as Hl.
      assert (Hpos : len <> 0) by (intros ->; exact (Hne _ _ E)).
      rewrite firstn_app, skipn_app.
      replace (len - length (c :: s)) with 0 by lia.
      cbn [firstn skipn]. rewrite app_nil_r.
      rewrite IH by (rewrite length_skipn; cbn [length] in *; lia).
      destruct (repl (firstn len (c :: s)) cs) as [t0|e]; [|reflexivity].
      cbn [bind].
      destruct (re_sub_log r repl (skipn len (c :: s))) as [[o1 l1]|e];
        [|reflexivity].
      cbn [bind fst snd].
      destruct (re_sub_log r repl t) as [[o2 l2]|e]; [|reflexivity].
      cbn [bind fst snd]. rewrite app_assoc. reflexivity.
    + assert (Hcs : c :: s <> []) by discriminate.
      rewrite (Hnone _ Hcs E). cbn [app].
      rewrite IH by (cbn [length]; lia).
      destruct (re_sub_log r repl s) as [[o1 l1]|e]; [|reflexivity].
      cbn [bind fst snd].
      destruct (re_sub_log r repl t) as [[o2 l2]|e]; reflexivity.
Qed.

(** A callback that never fails gives a scan that never fails. *)
Lemma sub_loop_total (r : regex) (repl : str -> caps -> Res str) :
  (forall m cs, exists t, repl m cs = OK t) ->
  forall fuel adj s, exists p, sub_loop fuel r repl adj s = OK p.
Proof.
  intros Hr. induction fuel as [|fuel IH]; intros adj s; [simpl; eauto|].
  cbn [sub_loop].
  destruct (re_match r s) as [[[|l] cs]|].
  - destruct adj.
    + destruct s as [|c s]; [eauto|].
      destruct (IH false s) as [p ->]. cbn [bind]. eauto.
    + destruct (Hr [] cs) as [t ->]. cbn [bind].
      destruct s as [|c s]; [eauto|].
      destruct (IH false s) as [p ->]. cbn [bind]. eauto.
  - destruct (Hr (firstn (S l) s) cs) as [t ->]. cbn [bind].
    destruct (IH true (skipn (S l) s)) as [p ->]. cbn [bind]. eauto.
  - destruct s as [|c s]; [eauto|].
    destruct (IH false s) as [p ->]. cbn [bind]. eauto.
Qed.

Lemma fold_shift_total (text : str) : exists out, fold_shift text = OK out.
Proof.
  unfold fold_shift, re_sub, re_sub_log.
  destruct (sub_loop_total shift_expr evaluate_shift) with
    (fuel := S (length text)) (adj := false) (s := text) as [p ->].
  - intros m cs. unfold evaluate_shift. eauto.
  - cbn [bind]. eauto.
Qed.

(** ** Shift folding *)

Lemma re_match_shift_ext (t s : str) (len : nat) (cs : caps) :
  re_match shift_expr s = Some (len, cs) ->
  re_match shift_expr (s ++ t) = Some (len, cs).
Proof.
  rewrite !re_match_shift. intros H.
  destruct (shift_match s) as [[ds rest]|] eqn:E; [|discriminate].
  rewrite (shift_match_ext _ t _ _ E).
  apply shift_match_inv in E. destruct E as (_ & _ & E).
  inversion H; subst len cs. f_equal. f_equal.
  rewrite E, !length_app. lia.
Qed.

Lemma re_match_shift_none_ext (t s : str) :
  s <> [] -> re_match shift_expr s = None ->
  re_match shift_expr (s ++ "("%char :: "1"%char :: " "%char :: t) = None.
Proof.
  rewrite !re_match_shift. intros Hne H.
  destruct (shift_match s) as [[ds rest]|] eqn:E; [discriminate|].
  rewrite (shift_match_none_ext s t Hne E). reflexivity.
Qed.

Lemma firstn_skipn_app (a b : str) :
  firstn (length (a ++ b) - length b) (a ++ b) = a /\
  skipn (length (a ++ b) - length b) (a ++ b) = b.
Proof.
  rewrite length_app. replace (length a + length b - length b) with (length a) by lia.
  rewrite firstn_app, skipn_app, Nat.sub_diag, firstn_all, skipn_all.
  cbn [firstn skipn app]. rewrite app_nil_r. auto.
Qed.

(** C2.  Wherever [(1 << (N))] stands in a text, with [N] a run of
    decimal digits, shift folding writes in its place the decimal string
    of 2 to the power [N], between the foldings of what stands before it
    and of what stands after it; nothing is looked up. *)
Theorem shift_folding (pre ds post : str) :
  ds <> [] -> forallb is_digit ds = true ->
  exists pre' post',
    fold_shift pre = OK pre' /\ fold_shift post = OK post' /\
    fold_shift (pre ++ lit "(1 << (" ++ ds ++ lit "))" ++ post) =
    OK (pre' ++ str_of_Z (2 ^ int10 ds) ++ post').
Proof.
  intros Hne Hds.
  destruct (fold_shift_total pre) as [pre' Hpre].
  destruct (fold_shift_total post) as [post' Hpost].
  exists pre', post'. split; [exact Hpre|]. split; [exact Hpost|].
  unfold fold_shift, re_sub in *.
  rewrite (re_sub_log_app shift_expr evaluate_shift _ nonempty_shift_expr).
  - destruct (re_sub_log shift_expr evaluate_shift pre) as [[o1 l1]|e];
      [|discriminate].
    inversion Hpre; subst pre'. clear Hpre. cbn [bind fst snd].
    rewrite (re_sub_log_step shift_expr evaluate_shift _ nonempty_shift_expr).
    rewrite re_match_shift, (shift_match_occ ds post Hne Hds).
    replace (lit "(1 << (" ++ ds ++ lit "))" ++ post)
      with ((lit "(1 << (" ++ ds ++ lit "))") ++ post)
      by (rewrite <- !app_assoc; reflexivity).
    destruct (firstn_skipn_app (lit "(1 << (" ++ ds ++ lit "))") post) as [E1 E2].
    rewrite E1, E2.
    unfold evaluate_shift at 1. cbn [group_or_empty group Nat.eqb bind].
    destruct (re_sub_log shift_expr evaluate_shift post) as [[o2 l2]|e];
      [|discriminate].
    inversion Hpost; subst post'. cbn [bind fst snd].
    rewrite Z.shiftl_1_l. reflexivity.
  - intros s len cs. apply re_match_shift_ext.
  - intros s. apply re_match_shift_none_ext.
Qed.

Lemma shift_folding_witness :
  exists pre' post',
    fold_shift (lit "NK_WINDOW_ROM = ") = OK pre' /\
    fold_shift (lit ",") = OK post' /\
    fold_shift (lit "NK_WINDOW_ROM = " ++ lit "(1 << (" ++ lit "31" ++ lit "))" ++ lit ",") =
    OK (pre' ++ str_of_Z (2 ^ int10 (lit "31")) ++ post').
Proof.
  apply (shift_folding (lit "NK_WINDOW_ROM = ") (lit "31") (lit ","));
    [discriminate|reflexivity].
Defined.

Example shift_folding_0 : fold_shift (lit "(1 << (0))") = OK (lit "1").
Proof. reflexivity. Qed.

Example shift_folding_1 : fold_shift (lit "(1 << (1))") = OK (lit "2").
Proof. reflexivity. Qed.

Example shift_folding_8 : fold_shift (lit "(1 << (8))") = OK (lit "256").
Proof. reflexivity. Qed.

Example shift_folding_31 : fold_shift (lit "(1 << (31))") = OK (lit "2147483648").
Proof. reflexivity. Qed.

(** A pass that meets an occurrence changes the text: where the first
    occurrence started with a parenthesis the output has a digit. *)
Lemma fold_shift_changes (s : str) :
  forall i, search_from shift_expr i s <> None ->
  forall out log, re_sub_log shift_expr evaluate_shift s = OK (out, log) ->
  out <> s.
Proof.
  induction s as [|c s IH]; intros i Hs out log H.
  - exfalso. apply Hs. cbn [search_from].
    rewrite (re_match_nil _ nonempty_shift_expr). reflexivity.
  - rewrite (re_sub_log_step _ _ _ nonempty_shift_expr) in H.
    cbn [search_from] in Hs.
    destruct (re_match shift_expr (c :: s)) as [[len cs]|] eqn:E.
    + rewrite re_match_shift in E.
      destruct (shift_match (c :: s)) as [[ds rest]|] eqn:Em; [|discriminate].
      apply shift_match_inv in Em. destruct Em as (_ & _ & Em).
      cbn [lit list_ascii_of_string app] in Em. inversion Em; subst c.
      unfold evaluate_shift at 1 in H. cbn [bind] in H.
      apply bind_ok in H. destruct H as ([o1 l1] & _ & H).
      inversion H; subst out.
      destruct (str_of_Z_head (Z.shiftl 1 (int10 (group_or_empty 1 cs))))
        as (d & tl & Ed & Hd).
      rewrite Ed. cbn [app]. intros Heq. inversion Heq. contradiction.
    + apply bind_ok in H. destruct H as ([o1 l1] & H1 & H).
      inversion H; subst out. cbn [fst]. intros Heq. inversion Heq.
      revert H2. eapply IH; eassumption.
Qed.

(** A second pass returns the output of the first unchanged exactly
    when that output holds no occurrence of the shift pattern. *)
Lemma fold_shift_fixed_iff (text : str) :
  exists out,
    fold_shift text = OK out /\
    (fold_shift out = OK out <-> re_search shift_expr out = None).
Proof.
  destruct (fold_shift_total text) as [out Hout].
  exists out. split; [exact Hout|]. split.
  - intros H. destruct (re_search shift_expr out) as [[[i len] cs]|] eqn:E;
      [|reflexivity].
    exfalso. unfold fold_shift, re_sub in H.
    apply bind_ok in H. destruct H as ([o l] & H1 & H2).
    inversion H2; subst o.
    apply (fold_shift_changes out 0) with (out := out) (log := l);
      [unfold re_search in E; rewrite E; discriminate|exact H1|reflexivity].
  - intros H. apply re_sub_no_match, H.
Qed.

(** C5 as stated fails: folding the inner shift of a nested one leaves a
    new occurrence, which a second pass folds. *)
Lemma shift_folding_not_idempotent :
  fold_shift (lit "(1 << ((1 << (3))))") = OK (lit "(1 << (8))") /\
  fold_shift (lit "(1 << (8))") = OK (lit "256") /\
  re_search shift_expr (lit "(1 << (8))") <> None.
Proof.
  split; [vm_compute; reflexivity|].
  split; [vm_compute; reflexivity|].
  vm_compute. discriminate.
Qed.

(** ** Removing the duplicate declaration *)

Lemma str_eqb_refl (a : str) : str_eqb a a = true.
Proof.
  induction a as [|c a IH]; [reflexivity|].
  simpl. rewrite Ascii.eqb_refl. exact IH.
Qed.

Lemma str_eqb_eq (a b : str) : str_eqb a b = true <-> a = b.
Proof.
  revert b. induction a as [|x a IH]; intros [|y b]; simpl;
    try (split; [discriminate|discriminate]); [tauto|].
  rewrite andb_true_iff, IH. split.
  - intros [Hx ->]. apply Ascii.eqb_eq in Hx. subst. reflexivity.
  - intros H. inversion H; subst. split; [apply Ascii.eqb_refl|reflexivity].
Qed.

Lemma str_eqb_neq (a b : str) : a <> b -> str_eqb a b = false.
Proof.
  intros H. destruct (str_eqb a b) eqn:E; [|reflexivity].
  apply str_eqb_eq in E. contradiction.
Qed.

Lemma re_match_Lit (p s : str) :
  re_match (Lit p) s =
  match strip_prefix p s with
  | Some rest => Some (length s - length rest, [])
  | None => None
  end.
Proof. unfold re_match. apply mtch_Lit. Qed.

Lemma re_match_Lit_ext (p t s : str) (len : nat) (cs : caps) :
  re_match (Lit p) s = Some (len, cs) ->
  re_match (Lit p) (s ++ t) = Some (len, cs).
Proof.
  rewrite !re_match_Lit. intros H.
  destruct (strip_prefix p s) as [rest|] eqn:E; [|discriminate].
  rewrite (strip_prefix_ext _ _ _ t E).
  apply strip_prefix_some in E. inversion H; subst len cs s.
  f_equal. f_equal. rewrite !length_app. lia.
Qed.

Lemma strip_prefix_border (p s b : str) :
  border_free p = true ->
  s <> [] -> strip_prefix p s = None -> strip_prefix p (s ++ p ++ b) = None.
Proof.
  intros Hbf Hne Hs.
  destruct (strip_prefix p (s ++ p ++ b)) as [r|] eqn:E; [exfalso|reflexivity].
  apply strip_prefix_some in E.
  assert (Hp : firstn (length p) (s ++ p ++ b) = p).
  { rewrite E, firstn_app, Nat.sub_diag, firstn_all. cbn [firstn].
    apply app_nil_r. }
  destruct (Nat.le_gt_cases (length p) (length s)) as [Hle|Hlt].
  - rewrite firstn_app in Hp. replace (length p - length s) with 0 in Hp by lia.
    cbn [firstn] in Hp. rewrite app_nil_r in Hp.
    rewrite <- (firstn_skipn (length p) s), Hp, strip_prefix_app in Hs.
    discriminate.
  - assert (Hs' : s = firstn (length s) p).
    { assert (H1 : firstn (length s) (s ++ p ++ b) = firstn (length s) (p ++ r))
        by (rewrite E; reflexivity).
      rewrite firstn_app, Nat.sub_diag, firstn_all in H1. cbn [firstn] in H1.
      rewrite app_nil_r in H1.
      rewrite firstn_app in H1.
      replace (length s - length p) with 0 in H1 by lia.
      cbn [firstn] in H1. rewrite app_nil_r in H1. exact H1. }
    rewrite firstn_app, (firstn_all2 (n:=length p) s) in Hp by lia.
    rewrite firstn_app in Hp.
    replace (length p - length s - length p) with 0 in Hp by lia.
    cbn [firstn] in Hp. rewrite app_nil_r in Hp.
    unfold border_free in Hbf. rewrite forallb_forall in Hbf.
    assert (Hin : In (length s) (seq 1 (length p - 1))).
    { apply in_seq. destruct s; [contradiction|]. cbn [length] in *. lia. }
    apply Hbf in Hin. rewrite <- Hs', Hp, str_eqb_refl in Hin. discriminate.
Qed.

Lemma border_free_decl : border_free draw_list_clear_decl = true.
Proof. vm_compute. reflexivity. Qed.

Lemma remove_duplicate_total (text : str) :
  exists out, remove_duplicate text = OK out.
Proof.
  unfold remove_duplicate, re_sub, re_sub_log.
  destruct (sub_loop_total decl_expr (fun _ _ => OK [])) with
    (fuel := S (length text)) (adj := false) (s := text) as [p ->].
  - intros m cs. eauto.
  - cbn [bind]. eauto.
Qed.

(** C4 (amended).  The rewriter deletes the declaration wherever it
    stands: a text with the declaration in it comes out as what the
    rewriter makes of the part before it followed by what it makes of the
    part after it.  No occurrence is kept, the first no more than a
    second. *)
Theorem remove_duplicate_deletes (a b : str) :
  exists a' b',
    remove_duplicate a = OK a' /\ remove_duplicate b = OK b' /\
    remove_duplicate (a ++ draw_list_clear_decl ++ b) = OK (a' ++ b').
Proof.
  destruct (remove_duplicate_total a) as [a' Ha].
  destruct (remove_duplicate_total b) as [b' Hb].
  exists a', b'. split; [exact Ha|]. split; [exact Hb|].
  unfold remove_duplicate, re_sub in *.
  rewrite (re_sub_log_app decl_expr _ _ nonempty_decl_expr).
  - destruct (re_sub_log decl_expr (fun _ _ => OK []) a) as [[o1 l1]|e];
      [|discriminate].
    inversion Ha; subst a'. cbn [bind fst snd].
    rewrite (re_sub_log_step decl_expr _ _ nonempty_decl_expr).
    unfold decl_expr at 1. rewrite re_match_Lit, strip_prefix_app.
    destruct (firstn_skipn_app draw_list_clear_decl b) as [E1 E2].
    rewrite E1, E2. cbn [bind].
    destruct (re_sub_log decl_expr (fun _ _ => OK []) b) as [[o2 l2]|e];
      [|discriminate].
    inversion Hb; subst b'. reflexivity.
  - intros s len cs. apply re_match_Lit_ext.
  - intros s Hne. unfold decl_expr. rewrite !re_match_Lit. intros H.
    destruct (strip_prefix draw_list_clear_decl s) eqn:E; [discriminate|].
    rewrite (strip_prefix_border _ _ _ border_free_decl Hne E). reflexivity.
Qed.

(** C4 as stated fails: of two identical declarations none is left. *)
Lemma remove_duplicate_keeps_none :
  remove_duplicate
    (draw_list_clear_decl ++ newline :: draw_list_clear_decl ++ [newline]) =
  OK [newline; newline] /\
  occurs draw_list_clear_decl [newline; newline] = false.
Proof. split; vm_compute; reflexivity. Qed.

(** ** Lazy stars *)

Lemma lazy_try_here (A : Type) (p : ascii -> bool) (s : str) (cs : caps)
      (k : str -> caps -> option A) (a : A) :
  k s cs = Some a -> lazy_try p s cs k = Some a.
Proof. intros H. destruct s; simpl; rewrite H; reflexivity. Qed.

Lemma lazy_try_ext (A : Type) (p : ascii -> bool) (k k' : str -> caps -> option A) :
  (forall s cs, k s cs = k' s cs) ->
  forall s cs, lazy_try p s cs k = lazy_try p s cs k'.
Proof.
  intros H s cs. induction s as [|c s IH]; simpl; rewrite H; [reflexivity|].
  rewrite IH. reflexivity.
Qed.

(** A lazy star steps over a run on which what follows it fails. *)
Lemma lazy_try_skip (A : Type) (p : ascii -> bool) (k : str -> caps -> option A)
      (cs : caps) (x : str) :
  forall m,
  forallb p m = true ->
  (forall m1 m2, m = m1 ++ m2 -> m2 <> [] -> k (m2 ++ x) cs = None) ->
  lazy_try p (m ++ x) cs k = lazy_try p x cs k.
Proof.
  induction m as [|c m IH]; intros Hp Hk; [reflexivity|].
  cbn [forallb] in Hp. apply andb_true_iff in Hp. destruct Hp as [Hc Hm].
  cbn [app lazy_try].
  assert (Hcm : c :: m <> []) by discriminate.
  pose proof (Hk [] (c :: m) eq_refl Hcm) as E. cbn [app] in E.
  rewrite E, Hc. apply IH; [exact Hm|].
  intros m1 m2 E' Hne. apply (Hk (c :: m1) m2); [rewrite E'; reflexivity|exact Hne].
Qed.

(** It stops earlier only with the same answer. *)
Lemma lazy_try_skip_same (A : Type) (p : ascii -> bool) (k : str -> caps -> option A)
      (cs : caps) (x : str) (a : A) :
  forall m,
  forallb p m = true ->
  (forall m1 m2, m = m1 ++ m2 -> m2 <> [] ->
     k (m2 ++ x) cs = None \/ k (m2 ++ x) cs = Some a) ->
  k x cs = Some a ->
  lazy_try p (m ++ x) cs k = Some a.
Proof.
  induction m as [|c m IH]; intros Hp Hk Hx.
  - apply lazy_try_here, Hx.
  - cbn [forallb] in Hp. apply andb_true_iff in Hp. destruct Hp as [Hc Hm].
    cbn [app lazy_try].
    assert (Hcm : c :: m <> []) by discriminate.
    destruct (Hk [] (c :: m) eq_refl Hcm) as [E|E];
      cbn [app] in E; rewrite E; [|reflexivity].
    rewrite Hc. apply IH; [exact Hm| |exact Hx].
    intros m1 m2 E' Hne.
    apply (Hk (c :: m1) m2); [rewrite E'; reflexivity|exact Hne].
Qed.

(** ** Occurrences *)

Lemma find_from_none (pat : str) :
  forall a b i, find_from pat i (a ++ b) = None -> strip_prefix pat b = None.
Proof.
  induction a as [|c a IH]; intros b i H.
  - cbn [app] in H. destruct b as [|x b]; cbn [find_from] in H;
      destruct (strip_prefix pat _); [discriminate|reflexivity|discriminate|reflexivity].
  - cbn [app find_from] in H.
    destruct (strip_prefix pat (c :: a ++ b)); [discriminate|].
    eapply IH, H.
Qed.

(** Where [pat] does not occur, no suffix starts with it. *)
Lemma occurs_false_suffix (pat a b : str) :
  occurs pat (a ++ b) = false -> strip_prefix pat b = None.
Proof.
  unfold occurs, find. intros H.
  destruct (find_from pat 0 (a ++ b)) eqn:E; [discriminate|].
  eapply find_from_none, E.
Qed.

(** Before the first occurrence of [pat], no suffix starts with it. *)
Lemma find_from_first (pat b : str) :
  forall a i, find_from pat i (a ++ b) = Some (i + length a) ->
  forall a1 a2, a = a1 ++ a2 -> a2 <> [] -> strip_prefix pat (a2 ++ b) = None.
Proof.
  induction a as [|c a IH]; intros i H a1 a2 E Hne.
  - destruct a1; [|discriminate]. cbn [app] in E. subst a2. contradiction.
  - cbn [app find_from] in H.
    destruct (strip_prefix pat (c :: a ++ b)) as [r|] eqn:Ec.
    + inversion H. cbn [length] in *. lia.
    + destruct a1 as [|c1 a1].
      * cbn [app] in E. subst a2. exact Ec.
      * cbn [app] in E. inversion E; subst c1 a.
        apply (IH (S i)) with (a1 := a1); [|reflexivity|exact Hne].
        rewrite H. f_equal. cbn [length]. lia.
Qed.

(** ** The pattern of the stubbing pass *)

Lemma mtch_member (n : nat) (s : str) (cs : caps) :
  mtch (Cat (Star Lazy (Cls not_semi))
            (Cat (Lit (lit "sizeof("))
                 (Cat (Star Lazy (Cls any_char)) (Lit (lit "};")))))
       s cs (fun s1 cs1 => Some (n - length s1, cs1)) =
  member_k n s cs.
Proof.
  rewrite mtch_Cat, mtch_star_cls. unfold member_k.
  apply lazy_try_ext. intros s1 cs1.
  rewrite mtch_Cat, mtch_Lit. unfold sizeof_k.
  destruct (strip_prefix (lit "sizeof(") s1) as [s2|]; [|reflexivity].
  rewrite mtch_Cat, mtch_star_cls.
  apply lazy_try_ext. intros s3 cs3. rewrite mtch_Lit. reflexivity.
Qed.

Lemma re_match_table (s : str) :
  re_match table_expr s =
  match strip_prefix (lit "struct nk_table {") s with
  | Some s1 => lazy_try any_char s1 [] (semi_k s)
  | None => None
  end.
Proof.
  unfold re_match, table_expr.
  rewrite mtch_Cat, mtch_Grp, mtch_Cat, mtch_Lit.
  destruct (strip_prefix (lit "struct nk_table {") s) as [s1|]; [|reflexivity].
  rewrite mtch_Cat, mtch_star_cls.
  apply lazy_try_ext. intros s2 cs2.
  rewrite mtch_Chr. unfold semi_k.
  destruct s2 as [|x s2]; [reflexivity|].
  destruct (Ascii.eqb x ";"); [|reflexivity].
  apply mtch_member.
Qed.

Lemma forallb_any_char (s : str) : forallb any_char s = true.
Proof. induction s as [|c s IH]; [reflexivity|exact IH]. Qed.

Lemma close_none_after (m post : str) :
  m <> [] -> strip_prefix (lit "};") m = None ->
  strip_prefix (lit "};") (m ++ lit "};" ++ post) = None.
Proof.
  intros Hne H. destruct m as [|a [|b m]]; [contradiction|..];
    cbn [lit list_ascii_of_string strip_prefix app] in *.
  - destruct (Ascii.eqb a "}"); reflexivity.
  - destruct (Ascii.eqb a "}"); [|reflexivity].
    destruct (Ascii.eqb b ";"); [discriminate|reflexivity].
Qed.

(** The lazy run before the closing stops at the first [};]. *)
Lemma close_first (n : nat) (cs : caps) (u post : str) :
  occurs (lit "};") u = false ->
  forall u1 u2, u = u1 ++ u2 ->
  lazy_try any_char (u2 ++ lit "};" ++ post) cs (close_k n) =
  Some (n - length post, cs).
Proof.
  intros Hu u1 u2 E.
  rewrite lazy_try_skip.
  - apply lazy_try_here. unfold close_k. rewrite strip_prefix_app. reflexivity.
  - apply forallb_any_char.
  - intros m1 m2 E2 Hne. unfold close_k.
    rewrite close_none_after; [reflexivity|exact Hne|].
    apply (occurs_false_suffix _ (u1 ++ m1) m2).
    rewrite <- app_assoc, <- E2, <- E. exact Hu.
Qed.

(** A pattern without the character [x] does not start where [x] comes
    too early. *)
Lemma strip_prefix_stop (x : ascii) (y : str) :
  forall pat f,
  existsb (Ascii.eqb x) pat = false ->
  strip_prefix pat f = None ->
  strip_prefix pat (f ++ x :: y) = None.
Proof.
  induction pat as [|q pat IH]; intros f Hx H; [discriminate|].
  cbn [existsb] in Hx. apply orb_false_iff in Hx. destruct Hx as [Hq Hpat].
  destruct f as [|c f]; cbn [app strip_prefix] in *.
  - rewrite Hq. reflexivity.
  - destruct (Ascii.eqb c q); [apply IH; assumption|reflexivity].
Qed.

(** A member without [sizeof(] ends the lazy run without semicolon at its
    semicolon: the pattern fails there. *)
Lemma member_fail (n : nat) (y : str) (cs : caps) :
  forall f,
  (forall f1 f2, f = f1 ++ f2 -> strip_prefix (lit "sizeof(") f2 = None) ->
  member_k n (f ++ ";"%char :: y) cs = None.
Proof.
  unfold member_k. induction f as [|c f IH]; intros Hf.
  - reflexivity.
  - cbn [app lazy_try]. unfold sizeof_k at 1.
    pose proof (strip_prefix_stop ";" y (lit "sizeof(") (c :: f) eq_refl
                  (Hf [] (c :: f) eq_refl)) as E.
    cbn [app] in E. rewrite E.
    destruct (not_semi c); [|reflexivity].
    apply IH. intros f1 f2 E2. apply (Hf (c :: f1) f2). rewrite E2. reflexivity.
Qed.

(** The match of the pattern at the head of a definition of
    [struct nk_table]: leading members without [sizeof(], a member that
    reaches [sizeof(] before any semicolon, and the first [};] after the
    leading members.  Group 1 is the opening with the leading members. *)
Lemma re_match_table_struct (fixed m r post : str) :
  occurs (lit "sizeof(") fixed = false ->
  forallb not_semi m = true ->
  occurs (lit "};") (m ++ lit "sizeof(" ++ r) = false ->
  re_match table_expr
    ((lit "struct nk_table {" ++ fixed ++ [";"%char]) ++
     (m ++ lit "sizeof(" ++ r) ++ lit "};" ++ post) =
  Some (length ((lit "struct nk_table {" ++ fixed ++ [";"%char]) ++
                (m ++ lit "sizeof(" ++ r) ++ lit "};" ++ post) - length post,
        [(1, lit "struct nk_table {" ++ fixed ++ [";"%char])]).
Proof.
  intros H1 H2 H3.
  remember ((lit "struct nk_table {" ++ fixed ++ [";"%char]) ++
            (m ++ lit "sizeof(" ++ r) ++ lit "};" ++ post) as s eqn:Es.
  rewrite re_match_table.
  assert (E0 : s = lit "struct nk_table {" ++ fixed ++
                   ";"%char :: m ++ lit "sizeof(" ++ r ++ lit "};" ++ post).
  { rewrite Es, <- !app_assoc. reflexivity. }
  rewrite E0 at 1. rewrite strip_prefix_app.
  rewrite lazy_try_skip.
  - apply lazy_try_here. unfold semi_k.
    change (Ascii.eqb ";" ";") with true. cbv iota.
    replace (firstn (length s - length (m ++ lit "sizeof(" ++ r ++ lit "};" ++ post)) s)
      with (lit "struct nk_table {" ++ fixed ++ [";"%char]).
    2:{ rewrite Es.
        replace (m ++ lit "sizeof(" ++ r ++ lit "};" ++ post)
          with ((m ++ lit "sizeof(" ++ r) ++ lit "};" ++ post)
          by (rewrite <- !app_assoc; reflexivity).
        symmetry. apply firstn_skipn_app. }
    unfold member_k. apply lazy_try_skip_same.
    + exact H2.
    + intros m1 m2 Em Hne. unfold sizeof_k.
      destruct (strip_prefix (lit "sizeof(")
                  (m2 ++ lit "sizeof(" ++ r ++ lit "};" ++ post)) as [s3|] eqn:E3;
        [right|left; reflexivity].
      apply strip_prefix_some in E3.
      assert (E4 : s3 = skipn 7 (m2 ++ lit "sizeof(" ++ r) ++ lit "};" ++ post).
      { apply (f_equal (skipn 7)) in E3.
        change (skipn 7 (lit "sizeof(" ++ s3)) with s3 in E3.
        rewrite <- E3.
        replace (m2 ++ lit "sizeof(" ++ r ++ lit "};" ++ post)
          with ((m2 ++ lit "sizeof(" ++ r) ++ lit "};" ++ post)
          by (rewrite <- !app_assoc; reflexivity).
        rewrite skipn_app.
        replace (7 - length (m2 ++ lit "sizeof(" ++ r)) with 0
          by (rewrite !length_app; cbn [length lit list_ascii_of_string]; lia).
        reflexivity. }
      rewrite E4.
      apply (close_first _ _ (m ++ lit "sizeof(" ++ r) post H3
               (m1 ++ firstn 7 (m2 ++ lit "sizeof(" ++ r))).
      rewrite <- app_assoc, firstn_skipn, Em, <- app_assoc. reflexivity.
    + unfold sizeof_k. rewrite strip_prefix_app.
      apply (close_first _ _ (m ++ lit "sizeof(" ++ r) post H3
               (m ++ lit "sizeof(")).
      rewrite <- app_assoc. reflexivity.
  - apply forallb_any_char.
  - intros m1 m2 Em Hne. destruct m2 as [|c m2]; [contradiction|].
    cbn [app]. unfold semi_k. destruct (Ascii.eqb c ";"); [|reflexivity].
    apply member_fail. intros f1 f2 Ef.
    apply (occurs_false_suffix _ (m1 ++ c :: f1) f2).
    rewrite <- app_assoc. cbn [app]. rewrite <- Ef, <- Em. exact H1.
Qed.

(** The scan copies a stretch in which the pattern matches nowhere. *)
Lemma re_sub_log_skip (r : regex) (repl : str -> caps -> Res str) (t : str) :
  nonempty r ->
  forall pre,
  (forall p1 p2, pre = p1 ++ p2 -> p2 <> [] -> re_match r (p2 ++ t) = None) ->
  re_sub_log r repl (pre ++ t) =
  (y <- re_sub_log r repl t ;; OK (pre ++ fst y, snd y)).
Proof.
  intros Hne. induction pre as [|c pre IH]; intros Hp.
  - cbn [app]. destruct (re_sub_log r repl t) as [[o l]|e]; reflexivity.
  - rewrite (re_sub_log_step r repl _ Hne).
    assert (Hc : c :: pre <> []) by discriminate.
    rewrite (Hp [] (c :: pre) eq_refl Hc). cbn [app].
    rewrite IH.
    + destruct (re_sub_log r repl t) as [[o l]|e]; reflexivity.
    + intros p1 p2 E Hne2. apply (Hp (c :: p1) p2); [rewrite E; reflexivity|exact Hne2].
Qed.

Lemma stub_nk_table_total (text : str) : exists out, stub_nk_table text = OK out.
Proof.
  unfold stub_nk_table, re_sub, re_sub_log.
  destruct (sub_loop_total table_expr stub_repl) with
    (fuel := S (length text)) (adj := false) (s := text) as [p ->].
  - intros m cs. unfold stub_repl. eauto.
  - cbn [bind]. eauto.
Qed.

(** C6 (amended).  Where a text has, from its first [struct nk_table {]
    on, a stretch without [sizeof(] that ends with a semicolon (the
    leading members), then a stretch without semicolon that leads to a
    [sizeof(], and then the first [};] after that [sizeof(], the rewriter
    keeps the opening and the leading members and writes the opaque tail
    [...;] and a closing [};] in place of all that follows them up to
    that [};]; the text before is kept and the text after is rewritten in
    the same way. *)
Theorem stub_nk_table_stubs (pre fixed m r post : str) :
  find (lit "struct nk_table {")
       (pre ++ ((lit "struct nk_table {" ++ fixed ++ [";"%char]) ++
                (m ++ lit "sizeof(" ++ r) ++ lit "};" ++ post)) =
  Some (length pre) ->
  occurs (lit "sizeof(") fixed = false ->
  forallb not_semi m = true ->
  occurs (lit "};") (m ++ lit "sizeof(" ++ r) = false ->
  exists post',
    stub_nk_table post = OK post' /\
    stub_nk_table
      (pre ++ ((lit "struct nk_table {" ++ fixed ++ [";"%char]) ++
               (m ++ lit "sizeof(" ++ r) ++ lit "};" ++ post)) =
    OK (pre ++ (lit "struct nk_table {" ++ fixed ++ [";"%char]) ++
        stub_tail ++ post').
Proof.
  intros Hfind H1 H2 H3.
  destruct (stub_nk_table_total post) as [post' Hpost].
  exists post'. split; [exact Hpost|].
  unfold stub_nk_table, re_sub in *.
  rewrite (re_sub_log_skip table_expr stub_repl _ nonempty_table_expr).
  - rewrite (re_sub_log_step table_expr stub_repl _ nonempty_table_expr).
    rewrite (re_match_table_struct fixed m r post H1 H2 H3).
    replace ((lit "struct nk_table {" ++ fixed ++ [";"%char]) ++
             (m ++ lit "sizeof(" ++ r) ++ lit "};" ++ post)
      with (((lit "struct nk_table {" ++ fixed ++ [";"%char]) ++
             (m ++ lit "sizeof(" ++ r) ++ lit "};") ++ post)
      by (rewrite <- !app_assoc; reflexivity).
    destruct (firstn_skipn_app
                ((lit "struct nk_table {" ++ fixed ++ [";"%char]) ++
                 (m ++ lit "sizeof(" ++ r) ++ lit "};") post) as [E1 E2].
    rewrite E1, E2.
    unfold stub_repl at 1. cbn [group_or_empty group Nat.eqb bind].
    destruct (re_sub_log table_expr stub_repl post) as [[o l]|e];
      [|discriminate].
    inversion Hpost; subst post'. cbn [bind fst snd].
    rewrite <- !app_assoc. reflexivity.
  - intros p1 p2 E Hne. rewrite re_match_table.
    rewrite (find_from_first _ _ pre 0 Hfind p1 p2 E Hne). reflexivity.
Qed.

Lemma stub_nk_table_stubs_witness :
  exists post',
    stub_nk_table (lit "
struct nk_pool;") = OK post' /\
    stub_nk_table
      (lit "struct nk_window;
" ++ ((lit "struct nk_table {" ++ lit "
    unsigned int seq;
    unsigned int size" ++ [";"%char]) ++
          (lit "
    nk_hash keys[" ++ lit "sizeof(" ++ lit "struct nk_window) / sizeof(nk_uint)];
    struct nk_table *next, *prev;
") ++ lit "};" ++ lit "
struct nk_pool;")) =
    OK (lit "struct nk_window;
" ++ (lit "struct nk_table {" ++ lit "
    unsigned int seq;
    unsigned int size" ++ [";"%char]) ++ stub_tail ++ post').
Proof.
  apply (stub_nk_table_stubs (lit "struct nk_window;
") (lit "
    unsigned int seq;
    unsigned int size") (lit "
    nk_hash keys[") (lit "struct nk_window) / sizeof(nk_uint)];
    struct nk_table *next, *prev;
") (lit "
struct nk_pool;")); vm_compute; reflexivity.
Defined.

(** C6 as stated fails: the pattern starts with the name [nk_table], and
    a struct of another name, of the shape the claim describes, is left
    as it is, [sizeof] and all. *)
Lemma stub_other_struct_untouched :
  stub_nk_table (lit "struct nk_pool { int seq; char keys[sizeof(int)]; };") =
  OK (lit "struct nk_pool { int seq; char keys[sizeof(int)]; };").
Proof. vm_compute. reflexivity. Qed.

(** The pattern follows the text, not the braces: when [struct nk_table]
    has no [sizeof(] of its own, the match runs on to the next one, and
    it is the struct around that one that loses its tail. *)
Example stub_runs_into_next_struct :
  stub_nk_table
    (lit "struct nk_table { int a; }; struct nk_foo { int b; char c[sizeof(int)]; };") =
  OK (lit "struct nk_table { int a; }; struct nk_foo { int b;" ++ stub_tail).
Proof. vm_compute. reflexivity. Qed.

(** ** The assignment pattern *)

Lemma re_match_assign (name s : str) :
  re_match (assign_expr name) s =
  match assign_match name s with
  | Some (v, rest) => Some (length s - length rest, [(1, v)])
  | None => None
  end.
Proof.
  unfold re_match, assign_expr, assign_match.
  rewrite mtch_Cat, mtch_Lit.
  destruct (strip_prefix name s) as [s1|]; [|reflexivity].
  rewrite mtch_Cat, mtch_star_chr.
  rewrite greedy_try_run.
  2:{ intros c s0 cs Hc. rewrite mtch_Cat, mtch_Chr.
      apply Ascii.eqb_eq in Hc. subst c. reflexivity. }
  fold is_blank. rewrite mtch_Cat, mtch_Chr.
  destruct (drop_while is_blank s1) as [|x s3]; [reflexivity|].
  destruct (Ascii.eqb x "="); [|reflexivity].
  rewrite mtch_Cat, mtch_star_chr.
  assert (HK : forall s0 cs0,
    mtch (Grp 1 (Star Greedy (Cls not_nl_comma))) s0 cs0
         (fun s2 cs2 => Some (length s - length s2, cs2)) =
    Some (length s - length (drop_while not_nl_comma s0),
          (1, take_while not_nl_comma s0) :: cs0)).
  { intros s0 cs0. rewrite mtch_Grp, mtch_star_cls, greedy_try_total.
    - rewrite firstn_take_while. reflexivity.
    - intros; discriminate. }
  rewrite greedy_try_total.
  - fold is_blank. apply HK.
  - intros s0 cs0. rewrite HK. discriminate.
Qed.






(** ** Termination of the resolution *)



Lemma mapM_stable (A B : Type) (f g : A -> Res B) (l : list A) :
  (forall x, In x l -> f x <> Err RecursionDepth -> g x = f x) ->
  mapM f l <> Err RecursionDepth -> mapM g l = mapM f l.
Proof.
  induction l as [|a l IH]; intros Hfg Hf; [reflexivity|].
  cbn [mapM] in *. pose proof (Hfg a (or_introl eq_refl)) as Ha.
  destruct (f a) as [b|e]; cbn [bind] in *.
  - rewrite Ha by discriminate. cbn [bind].
    rewrite IH; [reflexivity| |].
    + intros x Hx. apply Hfg. right. exact Hx.
    + destruct (mapM f l); cbn [bind] in Hf; congruence.
  - rewrite Ha by congruence. reflexivity.
Qed.

Lemma evaluate_terms_stable (f g : str -> Res Z) (e : str) :
  (forall x, f x <> Err RecursionDepth -> g x = f x) ->
  evaluate_terms f e <> Err RecursionDepth ->
  evaluate_terms g e = evaluate_terms f e.
Proof.
  unfold evaluate_terms. intros Hfg Hf.
  rewrite (mapM_stable _ _ (fun x => f (strip x)) (fun x => g (strip x))).
  - reflexivity.
  - intros x _. apply Hfg.
  - destruct (mapM (fun x => f (strip x)) (split_on "|" e));
      cbn [bind] in Hf; congruence.
Qed.

(** A look-up that did not run out of depth gives the same with more. *)
Lemma lookup_value_stable (text : str) :
  forall fuel name,
  lookup_value text fuel name <> Err RecursionDepth ->
  lookup_value text (S fuel) name = lookup_value text fuel name.
Proof.
  induction fuel as [|fuel IH]; intros name H; [exfalso; apply H; reflexivity|].
  rewrite lookup_value_S in H. rewrite (lookup_value_S text (S fuel)).
  rewrite (lookup_value_S text fuel).
  destruct (existsb is_meta name); [reflexivity|].
  destruct (assigned text name) as [value|]; [|reflexivity].
  destruct (matches_at or_expr value || matches_at val_expr value);
    [|reflexivity].
  apply evaluate_terms_stable; [exact IH|exact H].
Qed.

Lemma lookup_value_stable_le (text : str) (name : str) (fuel0 : nat) :
  lookup_value text fuel0 name <> Err RecursionDepth ->
  forall fuel, fuel0 <= fuel ->
  lookup_value text fuel name = lookup_value text fuel0 name.
Proof.
  intros H fuel Hle. induction Hle as [|fuel Hle IH]; [reflexivity|].
  rewrite lookup_value_stable; rewrite IH; [reflexivity|exact H].
Qed.

Lemma reaches_snoc (text n m p : str) :
  reaches text n m -> refers text m p -> reaches text n p.
Proof.
  induction 1 as [n m H|n m q H _ IH]; intros Hp.
  - eapply reaches_trans; [exact H|apply reaches_step, Hp].
  - eapply reaches_trans; [exact H|apply IH, Hp].
Qed.








(** *** A test for texts without cycle *)







(** A term with a pattern character: here the resolution of [NK_Z] leads
    to [NK_B+1], which the script searches for as a pattern.  The
    statement above does not speak of such a text. *)
Example resolution_leads_to_pattern :
  leads_to (lit "NK_B1 = NK_Q|NK_B+1, NK_Z = NK_B1|NK_Q") (lit "NK_Z")
           (lit "NK_B+1") /\
  existsb is_meta (lit "NK_B+1") = true.
Proof.
  split; [|reflexivity]. right. exists (lit "NK_Z"). split; [left; reflexivity|].
  apply reaches_trans with (m := lit "NK_B1"); [|apply reaches_step];
    unfold refers; vm_compute; auto.
Qed.

Example resolution_of_nested_chain :
  evaluate_or (lit "NK_A = 1,
NK_B = 2,
NK_FLAGS = NK_A | NK_B,
NK_ALL = NK_FLAGS | NK_A") 3 (lit "NK_ALL | NK_B") = OK 3%Z.
Proof. vm_compute. reflexivity. Qed.

(** A text with a cycle: the resolution runs out of any depth. *)
Example resolution_of_cycle :
  evaluate_or (lit "NK_A = NK_B | NK_A,
NK_B = 2") 1000 (lit "NK_A") = Err RecursionDepth.
Proof. vm_compute. reflexivity. Qed.

(** ** The whole pipeline *)

(** A small header with a shift, a chain, the table and the duplicated
    declaration, the preprocessor standing by. *)
Example pipeline_on_a_small_header :
  build_nuklear_defs (fun s => OK (skipn (length header_only_options) s)) 1000
    (lit "enum nk_flags {
  NK_A = (1 << (0)),
  NK_B = (1 << (1)),
  NK_AB = NK_A | NK_B
};
struct nk_table {
    unsigned int seq;
    nk_hash keys[sizeof(int)];
};
extern void nk_draw_list_clear(struct nk_draw_list *list);
") (lit "extern int extra;") =
  OK (lit "enum nk_flags {
  NK_A = 1,
  NK_B = 2,
  NK_AB = 3
};
struct nk_table {
    unsigned int seq;
    ...;
};

extern int extra;").
Proof. vm_compute. reflexivity. Qed.

(** * Further properties of the script *)

(** ** The argument loop *)

Lemma nth_skipn_hd (argv : list str) (i : nat) :
  i < length argv -> skipn i argv = nth i argv [] :: skipn (S i) argv.
Proof.
  revert i. induction argv as [|a argv IH]; intros i Hi; [simpl in Hi; lia|].
  destruct i as [|i]; [reflexivity|].
  cbn [length] in Hi. cbn [skipn nth]. apply IH. lia.
Qed.

(** The index loop reads the arguments as the list recursion does. *)
Lemma parse_args_list (argv : list str) :
  forall fuel i f,
  i <= length argv -> length argv - i <= fuel ->
  parse_args fuel argv i f = parse_list (skipn i argv) f.
Proof.
  induction fuel as [|fuel IH]; intros i f Hi Hfuel.
  - assert (i = length argv) by lia. subst i. rewrite skipn_all. reflexivity.
  - rewrite parse_args_S. destruct (i <? length argv) eqn:Hlt.
    + apply Nat.ltb_lt in Hlt. rewrite (nth_skipn_hd argv i Hlt).
      cbn [parse_list].
      destruct (str_eqb (nth i argv []) (lit "-h")
                || str_eqb (nth i argv []) (lit "--help")); [reflexivity|].
      destruct (str_eqb (nth i argv []) (lit "--header")).
      * destruct (i + 1 =? length argv) eqn:He.
        -- apply Nat.eqb_eq in He. rewrite skipn_all2 by lia. reflexivity.
        -- apply Nat.eqb_neq in He.
           rewrite (nth_skipn_hd argv (S i)) by lia.
           replace (i + 1 + 1) with (S (S i)) by lia.
           replace (i + 1) with (S i) by lia.
           apply IH; lia.
      * replace (i + 1) with (S i) by lia. apply IH; lia.
    + apply Nat.ltb_ge in Hlt. rewrite skipn_all2 by lia. reflexivity.
Qed.

Lemma main_args_list (prog : str) (args : list str) :
  main_args (prog :: args) = parse_list args (lit "nuklear/nuklear.h").
Proof.
  unfold main_args. rewrite parse_args_list; cbn [length]; try lia.
  reflexivity.
Qed.

(** Arguments on which the loop runs to its end hand the file name they
    chose to the arguments that follow. *)
Lemma parse_list_app (rest : list str) :
  forall n args f g, length args <= n ->
  parse_list args f = Proceed g ->
  parse_list (args ++ rest) f = parse_list rest g.
Proof.
  induction n as [|n IH]; intros args f g Hn H.
  - destruct args; [|simpl in Hn; lia]. inversion H. reflexivity.
  - destruct args as [|a args]; [inversion H; reflexivity|].
    cbn [app parse_list] in *. cbn [length] in Hn.
    destruct (str_eqb a (lit "-h") || str_eqb a (lit "--help")); [discriminate|].
    destruct (str_eqb a (lit "--header")).
    + destruct args as [|x args]; [discriminate|].
      cbn [app]. cbn [length] in Hn. apply (IH args x g); [lia|exact H].
    + apply (IH args f g); [lia|exact H].
Qed.

(** X1.  Arguments that are none of [-h], [--help] and [--header] are
    passed over: the program goes on with the bundled header. *)
Theorem unknown_arguments_are_ignored (prog : str) (args : list str) :
  ~ In (lit "-h") args -> ~ In (lit "--help") args ->
  ~ In (lit "--header") args ->
  main_args (prog :: args) = Proceed (lit "nuklear/nuklear.h").
Proof.
  rewrite main_args_list. generalize (lit "nuklear/nuklear.h").
  induction args as [|a args IH]; intros f H1 H2 H3; [reflexivity|].
  cbn [parse_list].
  rewrite (str_eqb_neq a (lit "-h")) by (intros ->; apply H1; left; reflexivity).
  rewrite (str_eqb_neq a (lit "--help")) by (intros ->; apply H2; left; reflexivity).
  rewrite (str_eqb_neq a (lit "--header")) by (intros ->; apply H3; left; reflexivity).
  cbn [orb]. apply IH; intros Hin; [apply H1|apply H2|apply H3]; right; exact Hin.
Qed.

Lemma unknown_arguments_are_ignored_witness :
  main_args [lit "nuklear-cffi.py"; lit "--verbose"; lit "-header"; lit "my.h"] =
  Proceed (lit "nuklear/nuklear.h").
Proof.
  apply unknown_arguments_are_ignored;
    intros H; repeat (destruct H as [H|H]; [discriminate|]); exact H.
Defined.

(** X2.  After arguments on which the loop runs to its end, [--header]
    and one more argument choose that argument as the header file,
    whatever it is: it is never read as a flag, and the last [--header]
    is the one that counts. *)
Theorem header_flag_takes_next_argument (prog : str) (args : list str)
        (g filename : str) :
  main_args (prog :: args) = Proceed g ->
  main_args (prog :: args ++ [lit "--header"; filename]) = Proceed filename.
Proof.
  rewrite !main_args_list. intros H.
  rewrite (parse_list_app _ (length args) args _ g (le_n _) H). reflexivity.
Qed.

Lemma header_flag_takes_next_argument_witness :
  main_args ([lit "nuklear-cffi.py"; lit "--header"; lit "a.h"] ++
             [lit "--header"; lit "--help"]) = Proceed (lit "--help").
Proof.
  apply (header_flag_takes_next_argument (lit "nuklear-cffi.py")
           [lit "--header"; lit "a.h"] (lit "a.h") (lit "--help")).
  reflexivity.
Defined.

(** X3.  After arguments on which the loop runs to its end, [-h] or
    [--help] prints the docstring and ends the program with status 0,
    whatever follows it. *)
Theorem help_flag_exits (prog : str) (args rest : list str) (g flag : str) :
  main_args (prog :: args) = Proceed g ->
  flag = lit "-h" \/ flag = lit "--help" ->
  main_args (prog :: args ++ flag :: rest) = Exited [doc] 0.
Proof.
  rewrite !main_args_list. intros H Hflag.
  rewrite (parse_list_app _ (length args) args _ g (le_n _) H).
  destruct Hflag as [->| ->]; reflexivity.
Qed.

Lemma help_flag_exits_witness :
  main_args ([lit "nuklear-cffi.py"; lit "--header"; lit "a.h"] ++
             lit "-h" :: [lit "--header"]) = Exited [doc] 0.
Proof.
  apply (help_flag_exits (lit "nuklear-cffi.py") [lit "--header"; lit "a.h"]
           [lit "--header"] (lit "a.h") (lit "-h")).
  - reflexivity.
  - left. reflexivity.
Defined.

(** ** Texts a pattern cannot match *)

(** The matcher asks its continuation about suffixes of the text only. *)
Lemma star_loop_ext_suffix (A : Type)
      (step : str -> caps -> (str -> caps -> option A) -> option A)
      (g : greed) (k k' : str -> caps -> option A) :
  (forall s cs k1 k2,
     (forall a s1 cs1, s = a ++ s1 -> k1 s1 cs1 = k2 s1 cs1) ->
     step s cs k1 = step s cs k2) ->
  forall n s cs,
  (forall a s1 cs1, s = a ++ s1 -> k s1 cs1 = k' s1 cs1) ->
  star_loop step g k n s cs = star_loop step g k' n s cs.
Proof.
  intros Hstep n. induction n as [|n IH]; intros s cs Hk.
  - simpl. apply (Hk []). reflexivity.
  - rewrite !star_loop_S.
    assert (Hm :
      step s cs
        (fun s1 cs1 =>
           if length s1 <? length s then star_loop step g k n s1 cs1 else None) =
      step s cs
        (fun s1 cs1 =>
           if length s1 <? length s then star_loop step g k' n s1 cs1 else None)).
    { apply Hstep. intros a s1 cs1 E.
      destruct (length s1 <? length s); [|reflexivity].
      apply IH. intros a' s2 cs2 E2. apply (Hk (a ++ a')).
      rewrite E, E2, app_assoc. reflexivity. }
    rewrite Hm, (Hk [] s cs eq_refl). reflexivity.
Qed.

Lemma mtch_ext_suffix (A : Type) (r : regex) :
  forall s cs (k k' : str -> caps -> option A),
  (forall a s1 cs1, s = a ++ s1 -> k s1 cs1 = k' s1 cs1) ->
  mtch r s cs k = mtch r s cs k'.
Proof.
  induction r as [|c|p|r1 IH1 r2 IH2|r1 IH1 r2 IH2|g r IH|n r IH];
    intros s cs k k' Hk; cbn [mtch].
  - apply (Hk []). reflexivity.
  - destruct s as [|x s]; [reflexivity|].
    destruct (Ascii.eqb x c); [|reflexivity]. apply (Hk [x]). reflexivity.
  - destruct s as [|x s]; [reflexivity|].
    destruct (p x); [|reflexivity]. apply (Hk [x]). reflexivity.
  - apply IH1. intros a s1 cs1 E. apply IH2. intros a' s2 cs2 E2.
    apply (Hk (a ++ a')). rewrite E, E2, app_assoc. reflexivity.
  - rewrite (IH1 s cs k k' Hk), (IH2 s cs k k' Hk). reflexivity.
  - apply star_loop_ext_suffix; [|exact Hk].
    intros s0 cs0 k1 k2 H. apply IH, H.
  - apply IH. intros a s1 cs1 E. apply (Hk a). exact E.
Qed.

Lemma mtch_refused (A : Type) (r : regex) (s : str) (cs : caps) :
  mtch r s cs (fun _ _ => @None A) = None.
Proof.
  destruct (mtch r s cs (fun _ _ => None)) as [a|] eqn:E; [|reflexivity].
  apply mtch_answer in E. destruct E as (s1 & cs1 & E & _). discriminate.
Qed.

(** A pattern that needs a character the text does not have fails. *)
Lemma mtch_needs (A : Type) (c : ascii) (r : regex) :
  needs c r = true ->
  forall s cs (k : str -> caps -> option A),
  ~ In c s -> mtch r s cs k = None.
Proof.
  induction r as [|c'|p|r1 IH1 r2 IH2|r1 IH1 r2 IH2|g r IH|n r IH];
    intros Hn s cs k Hs; cbn [needs] in Hn; try discriminate; cbn [mtch].
  - destruct s as [|x s]; [reflexivity|].
    destruct (Ascii.eqb_spec x c'); [|reflexivity].
    apply Ascii.eqb_eq in Hn. subst. exfalso. apply Hs. left. reflexivity.
  - apply orb_true_iff in Hn. destruct Hn as [Hn|Hn].
    + apply IH1; assumption.
    + rewrite (mtch_ext_suffix A r1 s cs _ (fun _ _ => None)).
      * apply mtch_refused.
      * intros a s1 cs1 E. apply IH2; [exact Hn|].
        intros Hin. apply Hs. rewrite E. apply in_or_app. right. exact Hin.
  - apply andb_true_iff in Hn. destruct Hn as [Hn1 Hn2].
    rewrite IH1, IH2; auto.
  - apply IH; assumption.
Qed.

Lemma re_search_needs (c : ascii) (r : regex) (s : str) :
  needs c r = true -> ~ In c s -> re_search r s = None.
Proof.
  intros Hn. unfold re_search. generalize 0.
  induction s as [|x s IH]; intros i Hs; cbn [search_from]; unfold re_match;
    rewrite (mtch_needs _ c r Hn) by exact Hs; [reflexivity|].
  apply IH. intros Hin. apply Hs. right. exact Hin.
Qed.

Lemma fold_or_plain (fuel : nat) (text : str) :
  ~ In "|"%char text -> fold_or fuel text = OK text.
Proof.
  intros H. unfold fold_or. apply re_sub_no_match.
  apply (re_search_needs "|"); [reflexivity|exact H].
Qed.

(** X4.  A text without the character [|] comes out of the OR-folding
    pass as it went in, at any recursion depth: a symbol that stands
    alone is not looked up and not rewritten, and no error is raised. *)
Theorem fold_or_without_bar (fuel : nat) (text : str) :
  ~ In "|"%char text -> fold_or fuel text = OK text.
Proof.
  intros H. unfold fold_or. apply re_sub_no_match.
  apply (re_search_needs "|"); [reflexivity|exact H].
Qed.

Lemma fold_or_without_bar_witness :
  fold_or 0 (lit "NK_WINDOW_DYNAMIC = NK_WINDOW_PRIVATE,") =
  OK (lit "NK_WINDOW_DYNAMIC = NK_WINDOW_PRIVATE,").
Proof.
  apply fold_or_without_bar.
  intros H; repeat (destruct H as [H|H]; [discriminate|]); exact H.
Defined.

(** A pattern that starts with a literal is found nowhere in a text
    without that literal. *)
Lemma search_none_by_prefix (r : regex) (p : str) :
  (forall s, strip_prefix p s = None -> re_match r s = None) ->
  forall b a i, occurs p (a ++ b) = false -> search_from r i b = None.
Proof.
  intros Hr. induction b as [|x b IH]; intros a i Ho; cbn [search_from];
    rewrite (Hr _ (occurs_false_suffix p a _ Ho)); [reflexivity|].
  apply (IH (a ++ [x])). rewrite <- app_assoc. exact Ho.
Qed.

Lemma fold_shift_without_shift (text : str) :
  occurs (lit "(1 << (") text = false -> fold_shift text = OK text.
Proof.
  intros H. apply re_sub_no_match.
  apply (search_none_by_prefix shift_expr (lit "(1 << (")) with (a := []);
    [|exact H].
  intros s Hs. rewrite re_match_shift. unfold shift_match. rewrite Hs. reflexivity.
Qed.

Lemma stub_without_table (text : str) :
  occurs (lit "struct nk_table {") text = false -> stub_nk_table text = OK text.
Proof.
  intros H. apply re_sub_no_match.
  apply (search_none_by_prefix table_expr (lit "struct nk_table {")) with (a := []);
    [|exact H].
  intros s Hs. rewrite re_match_table, Hs. reflexivity.
Qed.

Lemma remove_duplicate_without_decl (text : str) :
  occurs draw_list_clear_decl text = false -> remove_duplicate text = OK text.
Proof.
  intros H. apply re_sub_no_match.
  apply (search_none_by_prefix decl_expr draw_list_clear_decl) with (a := []);
    [|exact H].
  intros s Hs. unfold decl_expr. rewrite re_match_Lit, Hs. reflexivity.
Qed.

(** X5.  When the preprocessor returns a text that holds no [(1 << (],
    no [|], no [struct nk_table {] and not the duplicated declaration,
    [build_nuklear_defs] writes that text as it is, followed by the
    extra declarations. *)
Theorem pipeline_leaves_plain_text (run_c_preprocessor : str -> Res str)
        (fuel : nat) (header extra_cdef text : str) :
  run_c_preprocessor (header_only_options ++ header) = OK text ->
  occurs (lit "(1 << (") text = false ->
  ~ In "|"%char text ->
  occurs (lit "struct nk_table {") text = false ->
  occurs draw_list_clear_decl text = false ->
  build_nuklear_defs run_c_preprocessor fuel header extra_cdef =
  OK (text ++ extra_cdef).
Proof.
  intros Hrun H1 H2 H3 H4. unfold build_nuklear_defs.
  rewrite Hrun. cbn [bind].
  rewrite (fold_shift_without_shift text H1). cbn [bind].
  rewrite (fold_or_plain fuel text H2). cbn [bind].
  rewrite (stub_without_table text H3). cbn [bind].
  rewrite (remove_duplicate_without_decl text H4). reflexivity.
Qed.

Lemma pipeline_leaves_plain_text_witness :
  build_nuklear_defs (fun s => OK (skipn (length header_only_options) s)) 0
    (lit "struct nk_color {nk_byte r,g,b,a;};
extern void nk_clear(struct nk_context*);
") (lit "extern int extra;") =
  OK (lit "struct nk_color {nk_byte r,g,b,a;};
extern void nk_clear(struct nk_context*);
" ++ lit "extern int extra;").
Proof.
  apply pipeline_leaves_plain_text; try (vm_compute; reflexivity).
  intros H; repeat (destruct H as [H|H]; [discriminate|]); exact H.
Defined.

(** ** The value of a chain *)

Lemma split_on_nonempty (c : ascii) (s : str) : split_on c s <> [].
Proof.
  destruct s as [|x s]; cbn [split_on]; [discriminate|].
  destruct (Ascii.eqb x c); [discriminate|].
  destruct (split_on c s); discriminate.
Qed.

Lemma split_on_app (c : ascii) (a b : str) :
  split_on c (a ++ c :: b) = split_on c a ++ split_on c b.
Proof.
  induction a as [|x a IH]; cbn [app split_on].
  - rewrite Ascii.eqb_refl. reflexivity.
  - destruct (Ascii.eqb x c); [rewrite IH; reflexivity|].
    rewrite IH. pose proof (split_on_nonempty c a) as Hne.
    destruct (split_on c a) as [|h t]; [contradiction|reflexivity].
Qed.

Lemma mapM_app (A B : Type) (f : A -> Res B) (l1 l2 : list A) :
  mapM f (l1 ++ l2) =
  (x <- mapM f l1 ;; y <- mapM f l2 ;; OK (x ++ y)).
Proof.
  induction l1 as [|a l1 IH]; cbn [app mapM bind].
  - destruct (mapM f l2); reflexivity.
  - destruct (f a) as [b|e]; [|reflexivity]. cbn [bind]. rewrite IH.
    destruct (mapM f l1) as [x|e]; [|reflexivity]. cbn [bind].
    destruct (mapM f l2) as [y|e]; reflexivity.
Qed.

Lemma mapM_length (A B : Type) (f : A -> Res B) (l : list A) (bs : list B) :
  mapM f l = OK bs -> length bs = length l.
Proof.
  revert bs. induction l as [|a l IH]; intros bs H; cbn [mapM] in H.
  - inversion H. reflexivity.
  - apply bind_ok in H. destruct H as (b & _ & H).
    apply bind_ok in H. destruct H as (bs' & H1 & H).
    inversion H; subst. cbn [length]. f_equal. apply IH, H1.
Qed.

Lemma fold_left_lor (l : list Z) (v b : Z) :
  fold_left Z.lor l (Z.lor v b) = Z.lor v (fold_left Z.lor l b).
Proof.
  revert b. induction l as [|x l IH]; intros b; [reflexivity|].
  cbn [fold_left]. rewrite <- Z.lor_assoc. apply IH.
Qed.

Lemma reduce_or_app (l1 l2 : list Z) :
  l1 <> [] -> l2 <> [] ->
  reduce_or (l1 ++ l2) = Z.lor (reduce_or l1) (reduce_or l2).
Proof.
  intros H1 H2. destruct l1 as [|a l1]; [contradiction|].
  destruct l2 as [|b l2]; [contradiction|].
  unfold reduce_or. cbn [app hd tl]. rewrite fold_left_app. cbn [fold_left].
  apply fold_left_lor.
Qed.

Lemma evaluate_terms_bar (lookup : str -> Res Z) (a b : str) :
  evaluate_terms lookup (a ++ "|"%char :: b) =
  (va <- evaluate_terms lookup a ;;
   vb <- evaluate_terms lookup b ;;
   OK (Z.lor va vb)).
Proof.
  unfold evaluate_terms. rewrite split_on_app, mapM_app.
  destruct (mapM (fun x => lookup (strip x)) (split_on "|" a)) as [x|e] eqn:Ea;
    [|reflexivity].
  cbn [bind].
  destruct (mapM (fun x => lookup (strip x)) (split_on "|" b)) as [y|e] eqn:Eb;
    [|reflexivity].
  cbn [bind]. f_equal. apply reduce_or_app.
  - apply mapM_length in Ea. pose proof (split_on_nonempty "|" a).
    destruct x; [|discriminate]. destruct (split_on "|" a); [contradiction|discriminate].
  - apply mapM_length in Eb. pose proof (split_on_nonempty "|" b).
    destruct y; [|discriminate]. destruct (split_on "|" b); [contradiction|discriminate].
Qed.

(** X7.  The value of [a|b] is the bitwise OR of the value of [a] and the
    value of [b], the terms of [a] being looked up first: an error in
    [a] is raised before anything of [b] is looked up. *)
Theorem evaluate_or_bar (text : str) (fuel : nat) (a b : str) :
  evaluate_or text fuel (a ++ "|"%char :: b) =
  (va <- evaluate_or text fuel a ;;
   vb <- evaluate_or text fuel b ;;
   OK (Z.lor va vb)).
Proof. apply evaluate_terms_bar. Qed.

(** X8.  The value of a chain does not depend on the order of its
    parts, and a part written twice counts once: when [a|b] has a value,
    [b|a] and [a|b|a] have the same. *)
Theorem evaluate_or_order (text : str) (fuel : nat) (a b : str) (v : Z) :
  evaluate_or text fuel (a ++ "|"%char :: b) = OK v ->
  evaluate_or text fuel (b ++ "|"%char :: a) = OK v /\
  evaluate_or text fuel (a ++ "|"%char :: b ++ "|"%char :: a) = OK v.
Proof.
  unfold evaluate_or. rewrite !evaluate_terms_bar. intros H.
  apply bind_ok in H. destruct H as (va & Ha & H).
  apply bind_ok in H. destruct H as (vb & Hb & H). inversion H; subst v.
  rewrite Ha, Hb. cbn [bind]. split.
  - rewrite Z.lor_comm. reflexivity.
  - f_equal. rewrite (Z.lor_comm vb va), Z.lor_assoc, Z.lor_diag. reflexivity.
Qed.

Lemma evaluate_or_order_witness :
  evaluate_or (lit "NK_A = 1, NK_B = 6,") 1 (lit "NK_B " ++ "|"%char :: lit " NK_A") =
  OK 7%Z /\
  evaluate_or (lit "NK_A = 1, NK_B = 6,") 1
    (lit " NK_A" ++ "|"%char :: lit "NK_B " ++ "|"%char :: lit " NK_A") = OK 7%Z.
Proof.
  apply (evaluate_or_order (lit "NK_A = 1, NK_B = 6,") 1 (lit " NK_A") (lit "NK_B ")).
  vm_compute. reflexivity.
Defined.

(** ** Symbols on a cycle *)

Lemma refers_fails_at (text : str) (fuel : nat) (n m : str) :
  refers text n m ->
  (exists e, lookup_value text fuel m = Err e) ->
  exists e, lookup_value text (S fuel) n = Err e.
Proof.
  unfold refers, deps. intros Hr Hm. rewrite lookup_value_S.
  destruct (existsb is_meta n); [contradiction|].
  destruct (assigned text n) as [value|]; [|contradiction].
  destruct (matches_at or_expr value || matches_at val_expr value);
    [|contradiction].
  apply (evaluate_terms_fails _ value m Hr), Hm.
Qed.

(** A cycle through [n] goes on to a cycle through a name [n] refers to. *)
Lemma reaches_cycle_next (text n : str) :
  reaches text n n -> exists m, refers text n m /\ reaches text m m.
Proof.
  intros H. inversion H as [a b Hr|a m b Hr Hm]; subst.
  - exists n. split; assumption.
  - exists m. split; [exact Hr|]. eapply reaches_snoc; eassumption.
Qed.

Lemma cycle_fails (text : str) :
  forall fuel n, reaches text n n -> exists e, lookup_value text fuel n = Err e.
Proof.
  induction fuel as [|fuel IH]; intros n H; [exists RecursionDepth; reflexivity|].
  destruct (reaches_cycle_next text n H) as (m & Hr & Hm).
  apply (refers_fails_at text fuel n m Hr), IH, Hm.
Qed.

(** X9.  A symbol whose assignment leads back to itself, directly or
    through other symbols, has no value at any recursion depth, and an
    OR-folding pass that meets a chain with such a symbol among its terms
    ends in an error. *)
Theorem cyclic_symbol_never_resolves (text name : str) :
  reaches text name name ->
  (forall fuel, exists e, lookup_value text fuel name = Err e) /\
  (forall fuel chain,
     In chain (chains text) -> In name (terms chain) ->
     exists e, fold_or fuel text = Err e).
Proof.
  intros H. split; [intros fuel; apply cycle_fails, H|].
  intros fuel chain Hc Hn. unfold fold_or, re_sub, re_sub_log.
  destruct (sub_loop_fails or_expr (replace_or text fuel) chain) with
    (fuel := S (length text)) (adj := false) (s := text) as [e E].
  - intros cs. unfold replace_or, evaluate_or.
    destruct (evaluate_terms_fails (lookup_value text fuel) chain name Hn) as [e E].
    + apply cycle_fails, H.
    + rewrite E. exists e. reflexivity.
  - exact Hc.
  - rewrite E. exists e. reflexivity.
Qed.

Lemma cyclic_symbol_never_resolves_witness :
  (forall fuel, exists e,
     lookup_value (lit "NK_A = NK_B | NK_C, NK_B = NK_A | NK_C, NK_C = 4,")
       fuel (lit "NK_B") = Err e) /\
  exists e,
    fold_or 1000 (lit "NK_A = NK_B | NK_C, NK_B = NK_A | NK_C, NK_C = 4,") = Err e.
Proof.
  destruct (cyclic_symbol_never_resolves
              (lit "NK_A = NK_B | NK_C, NK_B = NK_A | NK_C, NK_C = 4,")
              (lit "NK_B")) as [Ha Hb].
  - apply reaches_trans with (m := lit "NK_A"); [|apply reaches_step];
      unfold refers; vm_compute; auto.
  - split; [exact Ha|].
    apply (Hb 1000 (lit "NK_B | NK_C")); vm_compute; auto.
Defined.

(** ** Reading back a written integer *)

Lemma read_digits_cons (c : ascii) (v acc : Z) (s : str) :
  digit_value c = Some v -> (v <? 10)%Z = true ->
  read_digits 10 acc (c :: s) =
  let '(x, n, rest) := read_digits 10 (acc * 10 + v) s in (x, S n, rest).
Proof. intros Hc Hv. cbn [read_digits]. rewrite Hc, Hv. reflexivity. Qed.

Lemma read_digits_uint_rest (rest : str) :
  (forall acc, read_digits 10 acc rest = (acc, O, rest)) ->
  forall d acc,
  read_digits 10 acc (lit (NilEmpty.string_of_uint d) ++ rest) =
  (uint_val acc d, Decimal.nb_digits d, rest).
Proof.
  intros Hrest.
  induction d as [|d IH|d IH|d IH|d IH|d IH|d IH|d IH|d IH|d IH|d IH];
    intros acc; [apply Hrest|..];
    cbn [NilEmpty.string_of_uint lit list_ascii_of_string uint_val
         Decimal.nb_digits app];
    fold (lit (NilEmpty.string_of_uint d));
    (erewrite read_digits_cons; [|reflexivity|reflexivity]);
    rewrite IH; f_equal; f_equal; f_equal;
    match goal with
    | |- context [Z.of_nat (nat_of_ascii ?c)] =>
        let v := eval vm_compute in (Z.of_nat (nat_of_ascii c)) in
        change (Z.of_nat (nat_of_ascii c)) with v
    end; lia.
Qed.

Lemma is_space_not_digit (c : ascii) :
  is_space c = true -> digit_value c = None.
Proof.
  destruct c as [[] [] [] [] [] [] [] []]; vm_compute; congruence.
Qed.

Lemma read_digits_blank (pad : str) :
  forallb is_space pad = true ->
  forall acc, read_digits 10 acc pad = (acc, O, pad).
Proof.
  intros H acc. destruct pad as [|c pad]; [reflexivity|].
  cbn [forallb] in H. apply andb_true_iff in H. destruct H as [Hc _].
  cbn [read_digits]. rewrite (is_space_not_digit c Hc). reflexivity.
Qed.

Lemma drop_while_all (p : ascii -> bool) (s : str) :
  forallb p s = true -> drop_while p s = [].
Proof.
  induction s as [|c s IH]; [reflexivity|]. cbn [forallb drop_while].
  intros H. apply andb_true_iff in H. destruct H as [Hc Hs].
  rewrite Hc. apply IH, Hs.
Qed.

Lemma nzhead_not_D0 (d d' : uint) : Decimal.nzhead d <> D0 d'.
Proof.
  induction d; cbn [Decimal.nzhead]; try discriminate. exact IHd.
Qed.

(** The decimal digits of a positive number do not start with [0]. *)
Lemma to_uint_head (p : positive) :
  match Pos.to_uint p with
  | Nil | D0 _ => False
  | _ => True
  end.
Proof.
  pose proof (DecimalPos.Unsigned.to_uint_nonzero p) as Hz.
  pose proof (DecimalPos.Unsigned.to_of (Pos.to_uint p)) as H.
  rewrite DecimalPos.Unsigned.of_to in H. cbn [N.to_uint] in H.
  destruct (Pos.to_uint p) as [|d|d|d|d|d|d|d|d|d|d] eqn:E; try exact I.
  - apply (DecimalPos.Unsigned.to_uint_nonnil p E).
  - unfold Decimal.unorm in H. cbn [Decimal.nzhead] in H.
    destruct (Decimal.nzhead d) eqn:En; try discriminate.
    + apply Hz. exact H.
    + apply (nzhead_not_D0 d d). rewrite En. symmetry. exact H.
Qed.

(** The digits [str] writes for a positive number, blanks after them,
    read as a literal: decimal, the blanks left over. *)
Lemma read_literal_to_uint (p : positive) (pad : str) :
  forallb is_space pad = true ->
  read_literal (lit (NilEmpty.string_of_uint (Pos.to_uint p)) ++ pad) =
  Some (Zpos p, pad).
Proof.
  intros Hpad. pose proof (to_uint_head p) as Hh.
  pose proof (DecimalPos.Unsigned.of_to p) as Hp.
  assert (Hv : uint_val 0 (Pos.to_uint p) = Zpos p).
  { rewrite <- uint_val_of_uint, Hp. reflexivity. }
  pose proof (read_digits_uint_rest pad (read_digits_blank pad Hpad)
                (Pos.to_uint p) 0%Z) as Hr.
  destruct (Pos.to_uint p) as [|d|d|d|d|d|d|d|d|d|d]; try contradiction;
    cbn [NilEmpty.string_of_uint lit list_ascii_of_string app] in Hr |- *;
    fold (lit (NilEmpty.string_of_uint d)) in Hr |- *;
    unfold read_literal; cbv iota beta zeta; rewrite Hr;
    cbn [Decimal.nb_digits]; rewrite Hv; reflexivity.
Qed.

(** [int(s, 0)] reads back what [str] writes, blanks after it or not. *)
Lemma int0_str_of_Z (v : Z) (pad : str) :
  forallb is_space pad = true -> int0 (str_of_Z v ++ pad) = OK v.
Proof.
  intros Hpad.
  destruct v as [|p|p];
    [change (str_of_Z 0) with ["0"%char]|unfold str_of_Z..];
    cbn [Z.to_int NilZero.string_of_int].
  - cbn [app]. unfold int0. cbn [drop_while]. change (is_space "0") with false.
    cbv iota beta.
    destruct pad as [|c pad].
    + reflexivity.
    + cbn [forallb] in Hpad. apply andb_true_iff in Hpad.
      destruct Hpad as [Hc Hpad].
      unfold read_literal. cbv iota beta zeta.
      destruct (Ascii.eqb c "x" || Ascii.eqb c "X") eqn:E1.
      { exfalso. destruct c as [[] [] [] [] [] [] [] []]; vm_compute in Hc, E1;
          congruence. }
      destruct (Ascii.eqb c "o" || Ascii.eqb c "O") eqn:E2.
      { exfalso. destruct c as [[] [] [] [] [] [] [] []]; vm_compute in Hc, E2;
          congruence. }
      destruct (Ascii.eqb c "b" || Ascii.eqb c "B") eqn:E3.
      { exfalso. destruct c as [[] [] [] [] [] [] [] []]; vm_compute in Hc, E3;
          congruence. }
      cbn [read_digits]. rewrite (is_space_not_digit c Hc).
      change (digit_value "0") with (Some 0%Z). cbv iota beta.
      change (0 <? 8)%Z with true. cbv iota beta.
      cbn [drop_while]. rewrite Hc, (drop_while_all is_space pad Hpad).
      reflexivity.
  - pose proof (read_literal_to_uint p pad Hpad) as Hr.
    pose proof (to_uint_head p) as Hh.
    unfold NilZero.string_of_uint.
    destruct (Pos.to_uint p) as [|d|d|d|d|d|d|d|d|d|d]; try contradiction;
      cbn [NilEmpty.string_of_uint lit list_ascii_of_string app] in Hr |- *;
      fold (lit (NilEmpty.string_of_uint d)) in Hr |- *;
      unfold int0; cbn [drop_while];
      match goal with
      | |- context [is_space ?c] => change (is_space c) with false
      end; cbv iota beta; rewrite Hr, (drop_while_all is_space pad Hpad);
      reflexivity.
  - pose proof (read_literal_to_uint p pad Hpad) as Hr.
    pose proof (to_uint_head p) as Hh.
    unfold NilZero.string_of_uint.
    cbn [String.append lit list_ascii_of_string app].
    fold (lit (NilZero.string_of_uint (Pos.to_uint p))).
    unfold NilZero.string_of_uint.
    destruct (Pos.to_uint p) as [|d|d|d|d|d|d|d|d|d|d]; try contradiction;
      cbn [NilEmpty.string_of_uint lit list_ascii_of_string app] in Hr |- *;
      fold (lit (NilEmpty.string_of_uint d)) in Hr |- *;
      unfold int0; cbn [drop_while];
      change (is_space "-") with false; cbv iota beta;
      cbn [drop_while];
      match goal with
      | |- context [is_space ?c] => change (is_space c) with false
      end; cbv iota beta; rewrite Hr, (drop_while_all is_space pad Hpad);
      reflexivity.
Qed.

Lemma val_expr_head (A : Type) (g : nat) (c : ascii) (s : str) (cs : caps)
      (k : str -> caps -> option A) :
  Ascii.eqb c "n" = false -> Ascii.eqb c "N" = false ->
  mtch (val_expr_at g) (c :: s) cs k = None.
Proof.
  intros Hn HN. unfold val_expr_at. rewrite mtch_Cat, mtch_Grp.
  cbn [mtch]. rewrite !mtch_Lit. cbn [strip_prefix lit list_ascii_of_string].
  rewrite Hn, HN. reflexivity.
Qed.

(** A text that starts with neither [n] nor [N] is no chain and no name. *)
Lemma not_a_chain (c : ascii) (s : str) :
  Ascii.eqb c "n" = false -> Ascii.eqb c "N" = false ->
  matches_at or_expr (c :: s) || matches_at val_expr (c :: s) = false.
Proof.
  intros Hn HN. unfold matches_at, re_match, or_expr, val_expr.
  rewrite mtch_Cat, !val_expr_head by assumption. reflexivity.
Qed.

Lemma str_of_Z_first (v : Z) :
  exists c rest, str_of_Z v = c :: rest /\
                 Ascii.eqb c "n" = false /\ Ascii.eqb c "N" = false.
Proof.
  unfold str_of_Z.
  destruct v as [|p|p]; cbn [Z.to_int NilZero.string_of_int].
  - exists "0"%char, []. repeat split.
  - unfold NilZero.string_of_uint.
    destruct (Pos.to_uint p);
      cbn [NilEmpty.string_of_uint lit list_ascii_of_string];
      eexists; eexists; (split; [reflexivity|split; reflexivity]).
  - cbn [lit list_ascii_of_string String.append].
    eexists; eexists; (split; [reflexivity|split; reflexivity]).
Qed.

(** X10.  A name whose assignment holds what [str] writes for an integer,
    the text that [evaluate_shift] and [replace_or] put in, resolves to
    that integer, with blanks after the digits or without: the text is
    taken neither for a chain of names nor for an octal literal. *)
Theorem written_integer_is_read_back (text name : str) (v : Z) (pad : str)
        (fuel : nat) :
  existsb is_meta name = false ->
  forallb is_space pad = true ->
  assigned text name = Some (str_of_Z v ++ pad) ->
  lookup_value text (S fuel) name = OK v.
Proof.
  intros Hn Hpad Ha. rewrite lookup_value_S, Hn, Ha.
  destruct (str_of_Z_first v) as (c & rest & E & Hc1 & Hc2).
  rewrite E at 1 2. cbn [app]. rewrite (not_a_chain c _ Hc1 Hc2).
  apply int0_str_of_Z, Hpad.
Qed.

Lemma written_integer_is_read_back_witness :
  lookup_value (lit "NK_A = -12 , NK_B = 7") 1 (lit "NK_A") = OK (-12)%Z.
Proof.
  apply (written_integer_is_read_back
           (lit "NK_A = -12 , NK_B = 7") (lit "NK_A") (-12)%Z (lit " ") 0);
    vm_compute; reflexivity.
Defined.

(** ** Where a value comes from *)

Lemma search_from_first (r : regex) :
  forall s i j len cs, search_from r i s = Some (j, len, cs) ->
  exists a b, s = a ++ b /\ re_match r b = Some (len, cs) /\
    forall a1 a2, a = a1 ++ a2 -> a2 <> [] -> re_match r (a2 ++ b) = None.
Proof.
  induction s as [|c s IH]; intros i j len cs H; cbn [search_from] in H.
  - destruct (re_match r []) as [[l0 c0]|] eqn:E; [|discriminate].
    inversion H; subst. exists [], []. repeat split; [exact E|].
    intros a1 a2 Ha Hne. symmetry in Ha. apply app_eq_nil in Ha.
    destruct Ha as [_ Ha]. contradiction.
  - destruct (re_match r (c :: s)) as [[l0 c0]|] eqn:E.
    + inversion H; subst. exists [], (c :: s). repeat split; [exact E|].
      intros a1 a2 Ha Hne. symmetry in Ha. apply app_eq_nil in Ha.
      destruct Ha as [_ Ha]. contradiction.
    + apply IH in H. destruct H as (a & b & -> & H & Hfirst).
      exists (c :: a), b. repeat split; [exact H|].
      intros a1 a2 Ha Hne. destruct a1 as [|x a1]; cbn [app] in Ha.
      * subst a2. exact E.
      * inversion Ha; subst. apply (Hfirst a1 a2 eq_refl Hne).
Qed.

Lemma take_while_blank (s : str) :
  take_while is_blank s = repeat " "%char (length (take_while is_blank s)).
Proof.
  induction s as [|c s IH]; [reflexivity|]. cbn [take_while].
  unfold is_blank at 1 3. destruct (Ascii.eqb_spec c " "); [|reflexivity].
  subst c. cbn [length repeat]. f_equal. exact IH.
Qed.

Lemma drop_while_head (p : ascii -> bool) (s : str) (c : ascii) (t : str) :
  drop_while p s = c :: t -> p c = false.
Proof.
  induction s as [|x s IH]; [discriminate|]. cbn [drop_while].
  destruct (p x) eqn:E; [exact IH|]. intros H. inversion H; subst. exact E.
Qed.

(** X11.  The value [lookup_value] finds for a name without pattern
    characters stands in the text
    after the name, blanks, an equals sign and blanks again, at the first
    place where the name is followed in this way; it goes up to the next
    comma or line feed, or to the end of the text, so it holds neither of
    the two, and it does not start with a blank. *)
Theorem assigned_value_shape (text name value : str) :
  existsb is_meta name = false ->
  assigned text name = Some value ->
  (exists before k1 k2 after,
     text = before ++ name ++ repeat " "%char k1 ++
            "="%char :: repeat " "%char k2 ++ value ++ after /\
     (after = [] \/
      exists c rest, after = c :: rest /\ (c = newline \/ c = ","%char)) /\
     (forall a1 a2,
        before = a1 ++ a2 -> a2 <> [] ->
        re_match (assign_expr name)
          (a2 ++ name ++ repeat " "%char k1 ++
           "="%char :: repeat " "%char k2 ++ value ++ after) = None)) /\
  forallb not_nl_comma value = true /\
  (forall rest, value <> " "%char :: rest).
Proof.
  unfold assigned, re_search. intros _ H.
  destruct (search_from (assign_expr name) 0 text) as [[[j len] cs]|] eqn:E;
    [|discriminate].
  inversion H; subst value. clear H.
  apply search_from_first in E. destruct E as (a & b & -> & E & Hfirst).
  rewrite re_match_assign in E. unfold assign_match in E.
  destruct (strip_prefix name b) as [s1|] eqn:E1; [|discriminate].
  apply strip_prefix_some in E1.
  pose proof (take_drop_while is_blank s1) as E2.
  rewrite take_while_blank in E2.
  destruct (drop_while is_blank s1) as [|x s3]; [discriminate|].
  destruct (Ascii.eqb_spec x "="); [|discriminate]. subst x.
  pose proof (take_drop_while is_blank s3) as E3.
  rewrite take_while_blank in E3.
  inversion E; subst cs. cbn [group_or_empty group Nat.eqb].
  pose proof (take_drop_while not_nl_comma (drop_while is_blank s3)) as E4.
  assert (Hb : b = name ++ repeat " "%char (length (take_while is_blank s1)) ++
                   "="%char :: repeat " "%char (length (take_while is_blank s3)) ++
                   take_while not_nl_comma (drop_while is_blank s3) ++
                   drop_while not_nl_comma (drop_while is_blank s3)).
  { rewrite E4, E3, E2. exact E1. }
  split; [|split].
  - exists a, (length (take_while is_blank s1)),
           (length (take_while is_blank s3)),
           (drop_while not_nl_comma (drop_while is_blank s3)).
    rewrite <- Hb. split; [reflexivity|]. split; [|exact Hfirst].
    destruct (drop_while not_nl_comma (drop_while is_blank s3)) as [|c rest] eqn:Ed;
      [left; reflexivity|right].
    exists c, rest. split; [reflexivity|].
    apply drop_while_head in Ed. unfold not_nl_comma in Ed.
    apply negb_false_iff, orb_true_iff in Ed.
    destruct Ed as [Ed|Ed]; apply Ascii.eqb_eq in Ed; auto.
  - apply take_while_all.
  - intros rest Hv.
    destruct (drop_while is_blank s3) as [|c t] eqn:Ed; [discriminate|].
    apply drop_while_head in Ed. cbn [take_while] in Hv.
    destruct (not_nl_comma c); [|discriminate].
    inversion Hv; subst c. discriminate.
Qed.

Lemma assigned_value_shape_witness :
  (exists before k1 k2 after,
     lit "x = NK_A, NK_A  = NK_B | 4, NK_A = 2" =
       before ++ lit "NK_A" ++ repeat " "%char k1 ++
       "="%char :: repeat " "%char k2 ++ lit "NK_B | 4" ++ after /\
     (after = [] \/
      exists c rest, after = c :: rest /\ (c = newline \/ c = ","%char)) /\
     (forall a1 a2,
        before = a1 ++ a2 -> a2 <> [] ->
        re_match (assign_expr (lit "NK_A"))
          (a2 ++ lit "NK_A" ++ repeat " "%char k1 ++
           "="%char :: repeat " "%char k2 ++ lit "NK_B | 4" ++ after) = None)) /\
  forallb not_nl_comma (lit "NK_B | 4") = true /\
  (forall rest, lit "NK_B | 4" <> " "%char :: rest).
Proof.
  apply (assigned_value_shape (lit "x = NK_A, NK_A  = NK_B | 4, NK_A = 2")
           (lit "NK_A") (lit "NK_B | 4")); vm_compute; reflexivity.
Defined.

(** ** The terms of the chains of a text *)

Lemma star_loop_lang (A : Type) (r : regex)
      (step : str -> caps -> (str -> caps -> option A) -> option A)
      (g : greed) (k : str -> caps -> option A) :
  (forall s cs k' a, step s cs k' = Some a ->
     exists m s1 cs1, s = m ++ s1 /\ lang r m /\ k' s1 cs1 = Some a) ->
  forall n s cs a, star_loop step g k n s cs = Some a ->
  exists m s1 cs1, s = m ++ s1 /\ lang (Star g r) m /\ k s1 cs1 = Some a.
Proof.
  intros Hstep n. induction n as [|n IH]; intros s cs a H.
  - cbn [star_loop] in H. exists [], s, cs. repeat split; [constructor|exact H].
  - rewrite star_loop_S in H.
    assert (Hnil : k s cs = Some a ->
      exists m s1 cs1, s = m ++ s1 /\ lang (Star g r) m /\ k s1 cs1 = Some a).
    { intros Hk. exists [], s, cs. repeat split; [constructor|exact Hk]. }
    assert (Hmore : forall k',
      k' = (fun s1 cs1 =>
        if length s1 <? length s then star_loop step g k n s1 cs1 else None) ->
      step s cs k' = Some a ->
      exists m s1 cs1, s = m ++ s1 /\ lang (Star g r) m /\ k s1 cs1 = Some a).
    { intros k' -> H0. apply Hstep in H0.
      destruct H0 as (m1 & s1 & cs1 & -> & Hm1 & H0).
      destruct (length s1 <? length (m1 ++ s1)); [|discriminate].
      apply IH in H0. destruct H0 as (m2 & s2 & cs2 & -> & Hm2 & H0).
      exists (m1 ++ m2), s2, cs2. rewrite app_assoc.
      repeat split; [constructor; assumption|exact H0]. }
    destruct g.
    + destruct (step s cs _) eqn:E.
      * inversion H; subst. eapply Hmore; [reflexivity|exact E].
      * apply Hnil, H.
    + destruct (k s cs) eqn:E.
      * inversion H; subst. exists [], s, cs.
        repeat split; [constructor|exact E].
      * eapply Hmore; [reflexivity|exact H].
Qed.

(** What the matcher hands on is what is left after a text of the
    pattern. *)
Lemma mtch_lang (A : Type) (r : regex) :
  forall s cs (k : str -> caps -> option A) a,
  mtch r s cs k = Some a ->
  exists m s1 cs1, s = m ++ s1 /\ lang r m /\ k s1 cs1 = Some a.
Proof.
  induction r as [|c|p|r1 IH1 r2 IH2|r1 IH1 r2 IH2|g r IH|n r IH];
    intros s cs k a H; cbn [mtch] in H.
  - exists [], s, cs. repeat split; [constructor|exact H].
  - destruct s as [|x s]; [discriminate|].
    destruct (Ascii.eqb_spec x c); [|discriminate]. subst x.
    exists [c], s, cs. repeat split; [constructor|exact H].
  - destruct s as [|x s]; [discriminate|].
    destruct (p x) eqn:E; [|discriminate].
    exists [x], s, cs. repeat split; [constructor; exact E|exact H].
  - apply IH1 in H. destruct H as (m1 & s1 & cs1 & -> & Hm1 & H).
    apply IH2 in H. destruct H as (m2 & s2 & cs2 & -> & Hm2 & H).
    exists (m1 ++ m2), s2, cs2. rewrite app_assoc.
    repeat split; [constructor; assumption|exact H].
  - destruct (mtch r1 s cs k) eqn:E.
    + inversion H; subst. apply IH1 in E.
      destruct E as (m & s1 & cs1 & -> & Hm & E).
      exists m, s1, cs1. repeat split; [apply lang_Alt_l, Hm|exact E].
    + apply IH2 in H. destruct H as (m & s1 & cs1 & -> & Hm & H).
      exists m, s1, cs1. repeat split; [apply lang_Alt_r, Hm|exact H].
  - apply (star_loop_lang A r) in H; [exact H|]. intros s0 cs0 k' a0 H0.
    apply (IH _ _ _ _ H0).
  - apply IH in H. destruct H as (m & s1 & cs1 & -> & Hm & H).
    eexists m, s1, _. repeat split; [constructor; exact Hm|exact H].
Qed.

Lemma re_match_lang (r : regex) (s : str) (len : nat) (cs : caps) :
  re_match r s = Some (len, cs) -> lang r (firstn len s).
Proof.
  unfold re_match. intros H. apply mtch_lang in H.
  destruct H as (m & s1 & cs1 & -> & Hm & H). inversion H; subst.
  rewrite length_app.
  replace (length m + length s1 - length s1) with (length m + 0) by lia.
  rewrite firstn_app_2. cbn [firstn]. rewrite app_nil_r. exact Hm.
Qed.

Lemma scan_matches_lang (r : regex) :
  forall fuel s m, In m (scan_matches fuel r s) -> lang r m.
Proof.
  induction fuel as [|fuel IH]; intros s m H; [contradiction|].
  cbn [scan_matches] in H.
  destruct (re_match r s) as [[[|l] cs]|] eqn:E.
  - destruct s as [|c s]; [contradiction|]. apply (IH _ _ H).
  - destruct H as [<-|H]; [|apply (IH _ _ H)].
    apply (re_match_lang r s (S l) cs E).
  - destruct s as [|c s]; [contradiction|]. apply (IH _ _ H).
Qed.

Lemma lang_Lit (l m : str) : lang (Lit l) m -> m = l.
Proof.
  revert m. induction l as [|c l IH]; intros m H; cbn [Lit] in H.
  - inversion H. reflexivity.
  - inversion H as [| | |r1 r2 m1 m2 H1 H2| | | | |]; subst.
    inversion H1; subst. cbn [app]. f_equal. apply IH, H2.
Qed.

Lemma lang_star_cls (g : greed) (p : ascii -> bool) (m : str) :
  lang (Star g (Cls p)) m -> forallb p m = true.
Proof.
  intros H. remember (Star g (Cls p)) as r eqn:Er.
  induction H as [| | | | | | |g0 r0 m1 m2 H1 _ H2 IH2|]; try discriminate.
  - reflexivity.
  - inversion Er; subst. inversion H1; subst. cbn [app forallb].
    rewrite IH2 by reflexivity.
    match goal with Hp : p _ = true |- _ => rewrite Hp end. reflexivity.
Qed.

Lemma lang_star_blank (g : greed) (m : str) :
  lang (Star g (Chr " ")) m -> forallb is_blank m = true.
Proof.
  intros H. remember (Star g (Chr " ")) as r eqn:Er.
  induction H as [| | | | | | |g0 r0 m1 m2 H1 _ H2 IH2|]; try discriminate.
  - reflexivity.
  - inversion Er; subst. inversion H1; subst. cbn [app forallb].
    rewrite IH2 by reflexivity. reflexivity.
Qed.

Lemma lang_val_expr (g : nat) (m : str) : lang (val_expr_at g) m -> val_name m.
Proof.
  unfold val_expr_at, Plus. intros H.
  inversion H as [| | |r1 r2 m1 m2 H1 H2| | | | |]; subst. clear H.
  inversion H1 as [| | | | | | | |n r m H3]; subst. clear H1.
  inversion H2 as [| | |r1 r2 m2' m3 H4 H5| | | | |]; subst. clear H2.
  inversion H4; subst. clear H4.
  inversion H5 as [| | |r1 r2 m4 m5 H6 H7| | | | |]; subst. clear H5.
  inversion H6 as [| |p c Hc| | | | | |]; subst. clear H6.
  apply lang_star_cls in H7.
  exists (c :: m5). split; [discriminate|]. split.
  - cbn [forallb]. rewrite Hc, H7. reflexivity.
  - inversion H3 as [| | | |r1 r2 m0 Hl|r1 r2 m0 Hl| | |]; subst;
      (apply (lang_Lit (lit "nk")) in Hl || apply (lang_Lit (lit "NK")) in Hl);
      subst; [left|right]; reflexivity.
Qed.

Lemma val_name_word (t : str) :
  val_name t -> t <> [] /\ forallb is_word t = true.
Proof.
  intros (w & Hw & Hall & [->| ->]); (split; [discriminate|]);
    cbn [lit list_ascii_of_string app forallb]; rewrite Hall; reflexivity.
Qed.

Lemma is_word_plain (c : ascii) :
  is_word c = true -> is_space c = false /\ c <> "|"%char.
Proof.
  destruct c as [[] [] [] [] [] [] [] []]; vm_compute; intros H;
    (split; [congruence|discriminate]) || discriminate.
Qed.

Lemma is_blank_space (c : ascii) :
  is_blank c = true -> is_space c = true /\ c <> "|"%char.
Proof.
  unfold is_blank. intros H. apply Ascii.eqb_eq in H. subst c.
  split; [reflexivity|discriminate].
Qed.

Lemma split_on_none (c : ascii) (s : str) : ~ In c s -> split_on c s = [s].
Proof.
  induction s as [|x s IH]; intros H; [reflexivity|]. cbn [split_on].
  destruct (Ascii.eqb_spec x c) as [->|Hx]; [exfalso; apply H; left; reflexivity|].
  rewrite IH; [reflexivity|]. intros Hin. apply H. right. exact Hin.
Qed.

Lemma drop_while_app_all (p : ascii -> bool) (a b : str) :
  forallb p a = true -> drop_while p (a ++ b) = drop_while p b.
Proof.
  induction a as [|c a IH]; [reflexivity|]. cbn [forallb app drop_while].
  intros H. apply andb_true_iff in H. destruct H as [Hc Ha].
  rewrite Hc. apply IH, Ha.
Qed.

Lemma forallb_rev (p : ascii -> bool) (s : str) :
  forallb p (rev s) = forallb p s.
Proof.
  induction s as [|c s IH]; [reflexivity|]. cbn [rev forallb].
  rewrite forallb_app, IH. cbn [forallb]. rewrite andb_true_r. apply andb_comm.
Qed.

Lemma forallb_weaken (p q : ascii -> bool) (s : str) :
  (forall c, p c = true -> q c = true) ->
  forallb p s = true -> forallb q s = true.
Proof.
  intros Hpq. induction s as [|c s IH]; [reflexivity|]. cbn [forallb].
  intros H. apply andb_true_iff in H. destruct H as [Hc Hs].
  rewrite (Hpq c Hc), (IH Hs). reflexivity.
Qed.

(** A word with blanks on either side, stripped. *)
Lemma strip_padded (sp v sp1 : str) :
  forallb is_blank sp = true -> forallb is_word v = true -> v <> [] ->
  forallb is_blank sp1 = true ->
  strip (sp ++ v ++ sp1) = v.
Proof.
  intros Hsp Hv Hne Hsp1. unfold strip.
  assert (Hs : forall s, forallb is_blank s = true -> forallb is_space s = true).
  { intros s. apply forallb_weaken. intros c Hc. apply is_blank_space, Hc. }
  assert (Hd : forall w t, forallb is_word w = true -> w <> [] ->
                           drop_while is_space (w ++ t) = w ++ t).
  { intros [|c w] t Hw Hn; [contradiction|]. cbn [forallb] in Hw.
    apply andb_true_iff in Hw. destruct Hw as [Hc _].
    cbn [app drop_while]. destruct (is_word_plain c Hc) as [-> _]. reflexivity. }
  rewrite (drop_while_app_all is_space sp _ (Hs sp Hsp)), (Hd v sp1 Hv Hne).
  rewrite rev_app_distr, drop_while_app_all
    by (rewrite forallb_rev; apply Hs, Hsp1).
  rewrite <- (app_nil_r (rev v)), Hd.
  - rewrite app_nil_r. apply rev_involutive.
  - rewrite forallb_rev. exact Hv.
  - intros E. apply Hne. rewrite <- (rev_involutive v), E. reflexivity.
Qed.

Lemma no_bar_padded (sp v sp1 : str) :
  forallb is_blank sp = true -> forallb is_word v = true ->
  forallb is_blank sp1 = true ->
  ~ In "|"%char (sp ++ v ++ sp1).
Proof.
  intros Hsp Hv Hsp1 Hin.
  assert (Hb : forall s, forallb is_blank s = true -> ~ In "|"%char s).
  { intros s Hs H. rewrite forallb_forall in Hs.
    apply (proj2 (is_blank_space _ (Hs _ H))). reflexivity. }
  apply in_app_or in Hin. destruct Hin as [Hin|Hin]; [apply (Hb sp Hsp Hin)|].
  apply in_app_or in Hin. destruct Hin as [Hin|Hin]; [|apply (Hb sp1 Hsp1 Hin)].
  rewrite forallb_forall in Hv.
  apply (proj2 (is_word_plain _ (Hv _ Hin))). reflexivity.
Qed.

Lemma terms_padded (sp v sp1 : str) :
  forallb is_blank sp = true -> val_name v ->
  forallb is_blank sp1 = true ->
  terms (sp ++ v ++ sp1) = [v].
Proof.
  intros Hsp Hv Hsp1. destruct (val_name_word v Hv) as [Hne Hw].
  unfold terms. rewrite split_on_none by (apply no_bar_padded; assumption).
  cbn [map]. rewrite strip_padded by assumption. reflexivity.
Qed.

Lemma terms_bar (a b : str) : terms (a ++ "|"%char :: b) = terms a ++ terms b.
Proof. unfold terms. rewrite split_on_app. apply map_app. Qed.

Lemma lang_or_link (m : str) :
  lang or_link m ->
  exists sp1 sp2 v,
    m = sp1 ++ "|"%char :: sp2 ++ v /\ forallb is_blank sp1 = true /\
    forallb is_blank sp2 = true /\ val_name v.
Proof.
  unfold or_link. intros H.
  inversion H as [| | | | | | | |n r m0 H1]; subst. clear H.
  inversion H1 as [| | |r1 r2 sp1 m2 Hsp1 H2| | | | |]; subst. clear H1.
  inversion H2 as [| | |r1 r2 b m3 Hb H3| | | | |]; subst. clear H2.
  inversion Hb; subst. clear Hb.
  inversion H3 as [| | |r1 r2 sp2 v Hsp2 Hv| | | | |]; subst. clear H3.
  exists sp1, sp2, v. split; [reflexivity|].
  split; [apply (lang_star_blank _ _ Hsp1)|].
  split; [apply (lang_star_blank _ _ Hsp2)|apply (lang_val_expr _ _ Hv)].
Qed.

Lemma chain_tail_terms (t : str) :
  lang (Star Greedy or_link) t ->
  forall sp v, forallb is_blank sp = true -> val_name v ->
  Forall val_name (terms (sp ++ v ++ t)) /\ terms (sp ++ v ++ t) <> [].
Proof.
  intros H. remember (Star Greedy or_link) as r eqn:Er.
  induction H as [| | | | | | |g0 r0 m1 m2 H1 _ H2 IH2|]; try discriminate;
    intros sp v Hsp Hv.
  - rewrite (terms_padded sp v [] Hsp Hv eq_refl).
    split; [constructor; [exact Hv|constructor]|discriminate].
  - inversion Er; subst. apply lang_or_link in H1.
    destruct H1 as (sp1 & sp2 & v1 & -> & Hsp1 & Hsp2 & Hv1).
    replace (sp ++ v ++ (sp1 ++ "|"%char :: sp2 ++ v1) ++ m2)
      with ((sp ++ v ++ sp1) ++ "|"%char :: sp2 ++ v1 ++ m2)
      by (rewrite <- !app_assoc; cbn [app]; rewrite <- ?app_assoc; reflexivity).
    rewrite terms_bar, (terms_padded sp v sp1 Hsp Hv Hsp1).
    destruct (IH2 eq_refl sp2 v1 Hsp2 Hv1) as [Hall _].
    split; [constructor; assumption|discriminate].
Qed.

(** The terms of a text of the chain pattern: two names or more. *)
Lemma lang_or_expr_terms (chain : str) :
  lang or_expr chain ->
  Forall val_name (terms chain) /\ 2 <= length (terms chain).
Proof.
  change or_expr with (Cat val_expr (Cat or_link (Star Greedy or_link))).
  intros H.
  inversion H as [| | |r1 r2 v0 m H0 H1| | | | |]; subst. clear H.
  inversion H1 as [| | |r1 r2 m1 t Hm1 Ht| | | | |]; subst. clear H1.
  apply lang_val_expr in H0. apply lang_or_link in Hm1.
  destruct Hm1 as (sp1 & sp2 & v1 & -> & Hsp1 & Hsp2 & Hv1).
  replace (v0 ++ (sp1 ++ "|"%char :: sp2 ++ v1) ++ t)
    with (([] ++ v0 ++ sp1) ++ "|"%char :: sp2 ++ v1 ++ t)
    by (cbn [app]; rewrite <- !app_assoc; cbn [app]; rewrite <- ?app_assoc;
        reflexivity).
  rewrite terms_bar, (terms_padded [] v0 sp1 eq_refl H0 Hsp1).
  destruct (chain_tail_terms t Ht sp2 v1 Hsp2 Hv1) as [Hall Hne].
  split; [constructor; assumption|].
  cbn [app length]. destruct (terms (sp2 ++ v1 ++ t)); [contradiction|].
  cbn [length]. lia.
Qed.

(** X12.  Every chain the OR-folding pass meets in a text is cut by
    [evaluate_or] into two terms or more, and every term is a name of the
    shape [nk_...] or [NK_...] made of letters, digits and underscores:
    the pattern that [lookup_value] builds from it has no character that
    [re.compile] reads as anything but itself. *)
Theorem chain_terms_are_names (text chain : str) :
  In chain (chains text) ->
  2 <= length (terms chain) /\
  forall t, In t (terms chain) ->
    forallb is_word t = true /\
    (exists w, w <> [] /\ (t = lit "nk_" ++ w \/ t = lit "NK_" ++ w)) /\
    existsb is_meta t = false.
Proof.
  unfold chains. intros H. apply scan_matches_lang, lang_or_expr_terms in H.
  destruct H as [Hall Hlen]. split; [exact Hlen|].
  intros t Ht. rewrite Forall_forall in Hall. specialize (Hall t Ht).
  destruct (val_name_word t Hall) as [_ Hw].
  split; [exact Hw|]. split; [|apply word_not_meta, Hw].
  destruct Hall as (w & Hne & _ & Hshape). exists w. auto.
Qed.

Lemma chain_terms_are_names_witness :
  2 <= length (terms (lit "NK_A | nk_b|NK_C")) /\
  forall t, In t (terms (lit "NK_A | nk_b|NK_C")) ->
    forallb is_word t = true /\
    (exists w, w <> [] /\ (t = lit "nk_" ++ w \/ t = lit "NK_" ++ w)) /\
    existsb is_meta t = false.
Proof.
  apply (chain_terms_are_names (lit "x = NK_A | nk_b|NK_C + 1,")).
  vm_compute. auto.
Defined.

(** ** The recursion depth *)

Lemma sub_loop_mono (r : regex) (repl1 repl2 : str -> caps -> Res str) :
  (forall m cs t, repl1 m cs = OK t -> repl2 m cs = OK t) ->
  forall fuel adj s p,
  sub_loop fuel r repl1 adj s = OK p -> sub_loop fuel r repl2 adj s = OK p.
Proof.
  intros Hrepl. induction fuel as [|fuel IH]; intros adj s p H; [exact H|].
  cbn [sub_loop] in H |- *.
  destruct (re_match r s) as [[[|l] cs]|].
  - destruct adj.
    + destruct s as [|c s]; [exact H|].
      apply bind_ok in H. destruct H as (rest & H1 & H2).
      rewrite (IH _ _ _ H1). exact H2.
    + apply bind_ok in H. destruct H as (t & H1 & H2).
      rewrite (Hrepl _ _ _ H1). cbn [bind].
      destruct s as [|c s]; [exact H2|].
      apply bind_ok in H2. destruct H2 as (rest & H2 & H3).
      rewrite (IH _ _ _ H2). exact H3.
  - apply bind_ok in H. destruct H as (t & H1 & H2).
    rewrite (Hrepl _ _ _ H1). cbn [bind].
    apply bind_ok in H2. destruct H2 as (rest & H2 & H3).
    rewrite (IH _ _ _ H2). exact H3.
  - destruct s as [|c s]; [exact H|].
    apply bind_ok in H. destruct H as (rest & H1 & H2).
    rewrite (IH _ _ _ H1). exact H2.
Qed.

Lemma evaluate_or_depth (text : str) (fuel fuel' : nat) (chain : str) (v : Z) :
  fuel <= fuel' ->
  evaluate_or text fuel chain = OK v -> evaluate_or text fuel' chain = OK v.
Proof.
  unfold evaluate_or. intros Hle H.
  rewrite (evaluate_terms_stable (lookup_value text fuel) (lookup_value text fuel')).
  - exact H.
  - intros x Hx. apply lookup_value_stable_le; assumption.
  - rewrite H. discriminate.
Qed.

Lemma fold_or_depth (text : str) (fuel fuel' : nat) (t : str) :
  fuel <= fuel' -> fold_or fuel text = OK t -> fold_or fuel' text = OK t.
Proof.
  unfold fold_or, re_sub, re_sub_log. intros Hle H.
  apply bind_ok in H. destruct H as (p & H1 & H2).
  assert (Hrepl : forall m cs t0,
            replace_or text fuel m cs = OK t0 ->
            replace_or text fuel' m cs = OK t0).
  { unfold replace_or. intros m cs t0 H0.
    apply bind_ok in H0. destruct H0 as (v & Hv & H0).
    rewrite (evaluate_or_depth text fuel fuel' m v Hle Hv). exact H0. }
  rewrite (sub_loop_mono or_expr _ _ Hrepl _ _ _ _ H1). exact H2.
Qed.

(** X13.  What [build_nuklear_defs] writes does not depend on how deep
    the recursion of the look-up may go: a text that comes out within a
    depth comes out at any greater depth. *)
Theorem output_does_not_depend_on_depth
        (run_c_preprocessor : str -> Res str) (fuel fuel' : nat)
        (header extra_cdef out : str) :
  fuel <= fuel' ->
  build_nuklear_defs run_c_preprocessor fuel header extra_cdef = OK out ->
  build_nuklear_defs run_c_preprocessor fuel' header extra_cdef = OK out.
Proof.
  unfold build_nuklear_defs. intros Hle H.
  apply bind_ok in H. destruct H as (t1 & H1 & H). rewrite H1. cbn [bind].
  apply bind_ok in H. destruct H as (t2 & H2 & H). rewrite H2. cbn [bind].
  apply bind_ok in H. destruct H as (t3 & H3 & H).
  rewrite (fold_or_depth t2 fuel fuel' t3 Hle H3). exact H.
Qed.

Lemma output_does_not_depend_on_depth_witness :
  build_nuklear_defs
    (fun _ => OK (lit "NK_A = (1 << (2)), NK_B = 2, NK_C = NK_A, x = NK_C | NK_B;"))
    1000 (lit "nuklear.h") (lit "void f(void);") =
  OK (lit "NK_A = 4, NK_B = 2, NK_C = NK_A, x = 6;void f(void);").
Proof.
  apply (output_does_not_depend_on_depth _ 2 1000); [lia|].
  vm_compute. reflexivity.
Defined.

(** ** Folding shifts twice *)

Lemma fold_shift_no_lt (s : str) : ~ In "<"%char s -> fold_shift s = OK s.
Proof.
  intros H. apply re_sub_no_match.
  apply (re_search_needs "<" shift_expr s); [reflexivity|exact H].
Qed.

(** The folding of a text with a shift expression in it, from the
    foldings of the parts before and after the expression. *)
Lemma fold_shift_app (pre ds post pre' post' : str) :
  ds <> [] -> forallb is_digit ds = true ->
  fold_shift pre = OK pre' -> fold_shift post = OK post' ->
  fold_shift (pre ++ lit "(1 << (" ++ ds ++ lit "))" ++ post) =
  OK (pre' ++ str_of_Z (2 ^ int10 ds) ++ post').
Proof.
  intros Hne Hds Hpre Hpost.
  unfold fold_shift, re_sub in *.
  rewrite (re_sub_log_app shift_expr evaluate_shift _ nonempty_shift_expr).
  - destruct (re_sub_log shift_expr evaluate_shift pre) as [[o1 l1]|e];
      [|discriminate].
    inversion Hpre; subst pre'. clear Hpre. cbn [bind fst snd].
    rewrite (re_sub_log_step shift_expr evaluate_shift _ nonempty_shift_expr).
    rewrite re_match_shift, (shift_match_occ ds post Hne Hds).
    replace (lit "(1 << (" ++ ds ++ lit "))" ++ post)
      with ((lit "(1 << (" ++ ds ++ lit "))") ++ post)
      by (rewrite <- !app_assoc; reflexivity).
    destruct (firstn_skipn_app (lit "(1 << (" ++ ds ++ lit "))") post) as [E1 E2].
    rewrite E1, E2.
    unfold evaluate_shift at 1. cbn [group_or_empty group Nat.eqb bind].
    destruct (re_sub_log shift_expr evaluate_shift post) as [[o2 l2]|e];
      [|discriminate].
    inversion Hpost; subst post'. cbn [bind fst snd].
    rewrite Z.shiftl_1_l. reflexivity.
  - intros s len cs. apply re_match_shift_ext.
  - intros s. apply re_match_shift_none_ext.
Qed.

Lemma string_of_uint_digits (d : uint) :
  forallb is_digit (lit (NilEmpty.string_of_uint d)) = true.
Proof.
  induction d; cbn [NilEmpty.string_of_uint lit list_ascii_of_string forallb];
    [reflexivity|..]; fold (lit (NilEmpty.string_of_uint d)); rewrite IHd;
    reflexivity.
Qed.

(** [str] of an integer writes digits, after a minus sign or not. *)
Lemma str_of_Z_no_lt (v : Z) : ~ In "<"%char (str_of_Z v).
Proof.
  assert (Hd : forall d, ~ In "<"%char (lit (NilEmpty.string_of_uint d))).
  { intros d H. pose proof (string_of_uint_digits d) as Hall.
    rewrite forallb_forall in Hall. specialize (Hall _ H). discriminate. }
  unfold str_of_Z. destruct v as [|p|p]; cbn [Z.to_int NilZero.string_of_int].
  - intros [H|[]]. discriminate.
  - unfold NilZero.string_of_uint.
    destruct (Pos.to_uint p) eqn:E; try (rewrite <- E; apply Hd).
    intros [H|[]]. discriminate.
  - cbn [lit list_ascii_of_string String.append].
    fold (lit (NilZero.string_of_uint (Pos.to_uint p))).
    intros [H|H]; [discriminate|]. revert H.
    unfold NilZero.string_of_uint.
    destruct (Pos.to_uint p) eqn:E; try (rewrite <- E; apply Hd).
    intros [H|[]]. discriminate.
Qed.

Lemma fold_shift_leaves_no_lt (text : str) :
  lt_only_in_shifts text ->
  exists out, fold_shift text = OK out /\ ~ In "<"%char out.
Proof.
  induction 1 as [s Hs|pre ds rest Hpre Hne Hds _ (out & Hout & Hlt)].
  - exists s. split; [apply fold_shift_no_lt, Hs|exact Hs].
  - exists (pre ++ str_of_Z (2 ^ int10 ds) ++ out). split.
    + apply fold_shift_app; [exact Hne|exact Hds| |exact Hout].
      apply fold_shift_no_lt, Hpre.
    + intros Hin. apply in_app_or in Hin. destruct Hin as [Hin|Hin];
        [exact (Hpre Hin)|].
      apply in_app_or in Hin. destruct Hin as [Hin|Hin];
        [exact (str_of_Z_no_lt _ Hin)|exact (Hlt Hin)].
Qed.

(** C5 (amended).  On a text in which [<] stands nowhere but in shift
    expressions [(1 << (N))], one pass of shift folding leaves no [<], so
    no occurrence of the shift pattern, and a second pass returns the
    output of the first unchanged. *)
Theorem shift_folding_twice (text : str) :
  lt_only_in_shifts text ->
  exists out,
    fold_shift text = OK out /\
    ~ In "<"%char out /\
    re_search shift_expr out = None /\
    fold_shift out = OK out.
Proof.
  intros H. destruct (fold_shift_leaves_no_lt text H) as (out & Hout & Hlt).
  exists out. split; [exact Hout|]. split; [exact Hlt|]. split.
  - apply (re_search_needs "<" shift_expr out); [reflexivity|exact Hlt].
  - apply fold_shift_no_lt, Hlt.
Qed.

Lemma shift_folding_twice_witness :
  exists out,
    fold_shift (lit "enum nk_panel_flags {
  NK_WINDOW_BORDER = " ++ lit "(1 << (" ++ lit "0" ++ lit "))" ++ lit ",
  NK_WINDOW_ROM = " ++ lit "(1 << (" ++ lit "12" ++ lit "))" ++ lit "
};") = OK out /\
    ~ In "<"%char out /\
    re_search shift_expr out = None /\
    fold_shift out = OK out.
Proof.
  apply (shift_folding_twice (lit "enum nk_panel_flags {
  NK_WINDOW_BORDER = " ++ lit "(1 << (" ++ lit "0" ++ lit "))" ++ lit ",
  NK_WINDOW_ROM = " ++ lit "(1 << (" ++ lit "12" ++ lit "))" ++ lit "
};")).
  apply lt_shift;
    [vm_compute; intuition discriminate|discriminate|reflexivity|].
  apply lt_shift;
    [vm_compute; intuition discriminate|discriminate|reflexivity|].
  apply lt_none. vm_compute. intuition discriminate.
Defined.

(** ** Assignments in a text *)

Lemma search_from_app (r : regex) (b : str) (len : nat) (cs : caps) :
  re_match r b = Some (len, cs) ->
  forall a i,
  (forall a1 a2, a = a1 ++ a2 -> a2 <> [] -> re_match r (a2 ++ b) = None) ->
  search_from r i (a ++ b) = Some (i + length a, len, cs).
Proof.
  intros Hb. induction a as [|c a IH]; intros i Hfirst.
  - cbn [app length]. rewrite Nat.add_0_r.
    destruct b; cbn [search_from]; rewrite Hb; reflexivity.
  - cbn [app search_from].
    assert (Hca : c :: a <> []) by discriminate.
    pose proof (Hfirst [] (c :: a) eq_refl Hca) as Hn. cbn [app] in Hn.
    rewrite Hn, IH.
    + cbn [length]. f_equal. f_equal. f_equal. lia.
    + intros a1 a2 E Hne. apply (Hfirst (c :: a1) a2); [rewrite E; reflexivity|exact Hne].
Qed.

Lemma drop_while_repeat_blank (k : nat) (s : str) :
  drop_while is_blank (repeat " "%char k ++ s) = drop_while is_blank s.
Proof. induction k as [|k IH]; [reflexivity|exact IH]. Qed.

Lemma take_while_id (p : ascii -> bool) (s : str) :
  forallb p s = true -> take_while p s = s.
Proof.
  induction s as [|c s IH]; [reflexivity|]. cbn [forallb take_while].
  intros H. apply andb_true_iff in H. destruct H as [Hc Hs].
  rewrite Hc, (IH Hs). reflexivity.
Qed.

(** What the assignment pattern reads where the name stands before
    blanks and an equals sign. *)
Lemma assign_match_here (name rest : str) (k : nat) :
  assign_match name (name ++ repeat " "%char k ++ "="%char :: rest) =
  Some (take_while not_nl_comma (drop_while is_blank rest),
        drop_while not_nl_comma (drop_while is_blank rest)).
Proof.
  unfold assign_match. rewrite strip_prefix_app, drop_while_repeat_blank.
  reflexivity.
Qed.

Lemma assigns_assigned (text name value : str) :
  assigns text name value -> assigned text name = Some value.
Proof.
  intros (before & k1 & k2 & after & -> & Hafter & Hval & Hnb & Hfirst).
  unfold assigned, re_search.
  assert (Hd : drop_while is_blank (repeat " "%char k2 ++ value ++ after) =
               value ++ after).
  { rewrite drop_while_repeat_blank.
    destruct value as [|c value].
    - destruct Hafter as [->|(c & rest & -> & [->| ->])]; reflexivity.
    - cbn [app drop_while]. unfold is_blank.
      destruct (Ascii.eqb_spec c " "); [|reflexivity].
      subst c. exfalso. apply (Hnb value). reflexivity. }
  assert (Ht : take_while not_nl_comma (value ++ after) = value /\
               drop_while not_nl_comma (value ++ after) = after).
  { destruct Hafter as [->|(c & rest & -> & Hc)].
    - rewrite app_nil_r, (take_while_id _ _ Hval), (drop_while_all _ _ Hval).
      auto.
    - apply take_while_run; [exact Hval|].
      destruct Hc as [->| ->]; reflexivity. }
  rewrite (search_from_app (assign_expr name)
             (name ++ repeat " "%char k1 ++ "="%char ::
              repeat " "%char k2 ++ value ++ after)
             (length (name ++ repeat " "%char k1 ++ "="%char ::
                      repeat " "%char k2 ++ value ++ after) - length after)
             [(1, value)]).
  - reflexivity.
  - rewrite re_match_assign, assign_match_here, Hd.
    destruct Ht as [-> ->]. reflexivity.
  - intros a1 a2 E Hne. rewrite re_match_assign.
    destruct (assign_match name _) as [[v rest]|] eqn:Em; [exfalso|reflexivity].
    unfold assign_match in Em.
    destruct (strip_prefix name _) as [s1|] eqn:E1; [|discriminate].
    apply strip_prefix_some in E1.
    pose proof (take_drop_while is_blank s1) as E2.
    rewrite take_while_blank in E2.
    destruct (drop_while is_blank s1) as [|x s3]; [discriminate|].
    destruct (Ascii.eqb_spec x "="); [|discriminate]. subst x.
    assert (Hle : length before <= length a1).
    { apply (Hfirst a1 (length (take_while is_blank s1)) s3).
      rewrite E, <- app_assoc, E1, E2. reflexivity. }
    rewrite E, length_app in Hle. destruct a2; [contradiction|].
    cbn [length] in Hle. lia.
Qed.

Lemma assigned_assigns (text name value : str) :
  assigned text name = Some value -> assigns text name value.
Proof.
  unfold assigned, re_search. intros H.
  destruct (search_from (assign_expr name) 0 text) as [[[j len] cs]|] eqn:E;
    [|discriminate].
  inversion H; subst value. clear H.
  apply search_from_first in E. destruct E as (a & b & -> & E & Hfirst).
  rewrite re_match_assign in E. unfold assign_match in E.
  destruct (strip_prefix name b) as [s1|] eqn:E1; [|discriminate].
  apply strip_prefix_some in E1.
  pose proof (take_drop_while is_blank s1) as E2.
  rewrite take_while_blank in E2.
  destruct (drop_while is_blank s1) as [|x s3]; [discriminate|].
  destruct (Ascii.eqb_spec x "="); [|discriminate]. subst x.
  pose proof (take_drop_while is_blank s3) as E3.
  rewrite take_while_blank in E3.
  inversion E; subst cs. cbn [group_or_empty group Nat.eqb].
  pose proof (take_drop_while not_nl_comma (drop_while is_blank s3)) as E4.
  assert (Hb : b = name ++ repeat " "%char (length (take_while is_blank s1)) ++
                   "="%char :: repeat " "%char (length (take_while is_blank s3)) ++
                   take_while not_nl_comma (drop_while is_blank s3) ++
                   drop_while not_nl_comma (drop_while is_blank s3)).
  { rewrite E4, E3, E2. exact E1. }
  exists a, (length (take_while is_blank s1)),
         (length (take_while is_blank s3)),
         (drop_while not_nl_comma (drop_while is_blank s3)).
  rewrite <- Hb. split; [reflexivity|]. split; [|split; [|split]].
  - destruct (drop_while not_nl_comma (drop_while is_blank s3)) as [|c rest] eqn:Ed;
      [left; reflexivity|right].
    exists c, rest. split; [reflexivity|].
    apply drop_while_head in Ed. unfold not_nl_comma in Ed.
    apply negb_false_iff, orb_true_iff in Ed.
    destruct Ed as [Ed|Ed]; apply Ascii.eqb_eq in Ed; auto.
  - apply take_while_all.
  - intros rest Hv.
    destruct (drop_while is_blank s3) as [|c t] eqn:Ed; [discriminate|].
    apply drop_while_head in Ed. cbn [take_while] in Hv.
    destruct (not_nl_comma c); [|discriminate].
    inversion Hv; subst c. discriminate.
  - intros a0 k rest Ha.
    destruct (Nat.le_gt_cases (length a) (length a0)) as [Hle|Hlt]; [exact Hle|].
    exfalso. apply app_eq_app in Ha. destruct Ha as (l & [[Ha Hl]|[Ha Hl]]).
    + assert (Hne : l <> []).
      { intros ->. rewrite app_nil_r in Ha. subst a0. lia. }
      pose proof (Hfirst a0 l Ha Hne) as Hn.
      rewrite <- Hl, re_match_assign, assign_match_here in Hn. discriminate.
    + rewrite Ha, length_app in Hlt. lia.
Qed.

(** C1 (amended).  In a text that holds [NK_A = 1], [NK_B = 2] and
    [NK_FLAGS = NK_A | NK_B], each at the first place where its name is
    followed by an equals sign, resolving [NK_FLAGS] gives 3; where it
    holds [NK_C = NK_A | NK_B], [NK_E = 4] and [NK_D = NK_C | NK_E] in the
    same way, resolving [NK_D] gives 7: each term is resolved through the
    first assignment the text has for it and the integers are reduced
    with bitwise OR. *)
Theorem or_chain_resolution (text : str) :
  assigns text (lit "NK_A") (lit "1") ->
  assigns text (lit "NK_B") (lit "2") ->
  assigns text (lit "NK_FLAGS") (lit "NK_A | NK_B") ->
  forall fuel,
  evaluate_or text (S (S fuel)) (lit "NK_FLAGS") = OK 3%Z /\
  (assigns text (lit "NK_C") (lit "NK_A | NK_B") ->
   assigns text (lit "NK_E") (lit "4") ->
   assigns text (lit "NK_D") (lit "NK_C | NK_E") ->
   evaluate_or text (S (S (S fuel))) (lit "NK_D") = OK 7%Z).
Proof.
  intros HA HB HF fuel.
  apply assigns_assigned in HA, HB, HF.
  destruct (or_chain_resolution_found text HA HB HF fuel) as [H3 H7].
  split; [exact H3|].
  intros HC HE HD. apply assigns_assigned in HC, HE, HD.
  apply H7; assumption.
Qed.

Lemma or_chain_resolution_witness :
  evaluate_or (lit "enum nk_flags {
  NK_A = 1,
  NK_B = 2,
  NK_FLAGS = NK_A | NK_B,
  NK_C = NK_A | NK_B,
  NK_E = 4,
  NK_D = NK_C | NK_E
};") 2 (lit "NK_FLAGS") = OK 3%Z /\
  evaluate_or (lit "enum nk_flags {
  NK_A = 1,
  NK_B = 2,
  NK_FLAGS = NK_A | NK_B,
  NK_C = NK_A | NK_B,
  NK_E = 4,
  NK_D = NK_C | NK_E
};") 3 (lit "NK_D") = OK 7%Z.
Proof.
  destruct (or_chain_resolution (lit "enum nk_flags {
  NK_A = 1,
  NK_B = 2,
  NK_FLAGS = NK_A | NK_B,
  NK_C = NK_A | NK_B,
  NK_E = 4,
  NK_D = NK_C | NK_E
};")) with (fuel := 0) as [H3 H7];
    [apply assigned_assigns; vm_compute; reflexivity..|].
  split; [exact H3|].
  apply H7; apply assigned_assigns; vm_compute; reflexivity.
Defined.

(** ** A chain in its place *)

(** A greedy star over a class, on a run of the class that ends where
    the text goes on with something else: what follows the star is tried
    at the end of the run first. *)
Lemma greedy_try_first (A : Type) (p : ascii -> bool) (w t : str) (cs : caps)
      (k : str -> caps -> option A) (a : A) :
  forallb p w = true ->
  match t with [] => True | c :: _ => p c = false end ->
  k t cs = Some a ->
  greedy_try p (w ++ t) cs k = Some a.
Proof.
  intros Hw Ht Hk. induction w as [|c w IH]; cbn [app].
  - destruct t as [|c t]; cbn [greedy_try]; [exact Hk|].
    rewrite Ht. exact Hk.
  - cbn [forallb] in Hw. apply andb_true_iff in Hw. destruct Hw as [Hc Hw].
    cbn [greedy_try]. rewrite Hc, (IH Hw). reflexivity.
Qed.

Lemma mtch_Alt (A : Type) (r1 r2 : regex) (s : str) (cs : caps)
      (k : str -> caps -> option A) :
  mtch (Alt r1 r2) s cs k =
  match mtch r1 s cs k with
  | Some a => Some a
  | None => mtch r2 s cs k
  end.
Proof. reflexivity. Qed.

(** The name pattern on a name that ends where the text goes on with
    something else than a character of a name. *)
Lemma val_expr_first (g : nat) (v t : str) (cs : caps) :
  val_name v -> starts_outside_name t = true ->
  exists cs', forall (A : Type) (k : str -> caps -> option A) (a : A),
    k t cs' = Some a -> mtch (val_expr_at g) (v ++ t) cs k = Some a.
Proof.
  intros (w & Hne & Hw & Hv) Ht.
  destruct w as [|c w]; [contradiction|].
  cbn [forallb] in Hw. apply andb_true_iff in Hw. destruct Hw as [Hc Hw].
  assert (Ht' : match t with [] => True | x :: _ => is_word x = false end).
  { destruct t as [|x t]; [exact I|]. cbn [starts_outside_name] in Ht.
    apply negb_true_iff, Ht. }
  assert (Hrest : forall (A : Type) (k : str -> caps -> option A) (a : A) cs',
    k t cs' = Some a ->
    mtch (Cat (Chr "_") (Plus Greedy (Cls is_word)))
         ("_"%char :: c :: w ++ t) cs' k = Some a).
  { intros A k a cs' Hk. unfold Plus.
    rewrite mtch_Cat, mtch_Chr, Ascii.eqb_refl, mtch_Cat.
    rewrite mtch_Cls, Hc, mtch_star_cls.
    apply greedy_try_first; assumption. }
  destruct Hv as [->| ->]; eexists; intros A k a Hk; unfold val_expr_at;
    rewrite mtch_Cat, mtch_Grp, mtch_Alt, !mtch_Lit;
    cbn [lit list_ascii_of_string app];
    simpl (strip_prefix _ _); cbv iota beta;
    (erewrite Hrest; [reflexivity|exact Hk]).
Qed.

Lemma val_name_head (v : str) :
  val_name v -> exists c rest, v = c :: rest /\ is_word c = true.
Proof.
  intros (w & _ & _ & [->| ->]); eexists; eexists; split; reflexivity.
Qed.

(** One more name of a chain: blanks, a bar, blanks and a name that ends
    where the text goes on with something else than a character of a
    name. *)
Lemma or_link_first (sp1 sp2 v t : str) (cs : caps) :
  forallb is_blank sp1 = true -> forallb is_blank sp2 = true ->
  val_name v -> starts_outside_name t = true ->
  exists cs', forall (A : Type) (k : str -> caps -> option A) (a : A),
    k t cs' = Some a ->
    mtch or_link ((sp1 ++ "|"%char :: sp2 ++ v) ++ t) cs k = Some a.
Proof.
  intros Hsp1 Hsp2 Hv Ht.
  destruct (val_expr_first 3 v t cs Hv Ht) as [csv Hval].
  destruct (val_name_head v Hv) as (c & rest & Ev & Hc).
  eexists. intros A k a Hk. unfold or_link.
  rewrite mtch_Grp, mtch_Cat, mtch_star_chr.
  replace ((sp1 ++ "|"%char :: sp2 ++ v) ++ t)
    with (sp1 ++ "|"%char :: sp2 ++ v ++ t)
    by (rewrite <- !app_assoc; cbn [app]; rewrite <- ?app_assoc; reflexivity).
  apply (greedy_try_first A (fun x => Ascii.eqb x " ") sp1); [exact Hsp1|reflexivity|].
  rewrite mtch_Cat, mtch_Chr, Ascii.eqb_refl, mtch_Cat, mtch_star_chr.
  apply (greedy_try_first A (fun x => Ascii.eqb x " ") sp2); [exact Hsp2| |].
  - rewrite Ev. cbn [app].
    destruct (Ascii.eqb_spec c " ") as [->|]; [discriminate|reflexivity].
  - apply Hval. exact Hk.
Qed.

Lemma is_blank_not_word (c : ascii) : is_blank c = true -> is_word c = false.
Proof.
  unfold is_blank. intros H. apply Ascii.eqb_eq in H. subst c. reflexivity.
Qed.

(** A text that cannot start one more name of a chain. *)
Lemma or_link_refuses (A : Type) (t : str) (cs : caps)
      (k : str -> caps -> option A) :
  no_bar_ahead t = true -> mtch or_link t cs k = None.
Proof.
  intros Ht. unfold or_link. rewrite mtch_Grp, mtch_Cat, mtch_star_chr.
  unfold no_bar_ahead in Ht.
  rewrite greedy_try_run.
  - fold is_blank. rewrite mtch_Cat, mtch_Chr.
    destruct (drop_while is_blank t) as [|x s]; [reflexivity|].
    apply negb_true_iff in Ht. rewrite Ht. reflexivity.
  - intros c s cs0 Hc. rewrite mtch_Cat, mtch_Chr.
    apply Ascii.eqb_eq in Hc. subst c. reflexivity.
Qed.

Lemma lang_or_link_head (m : str) :
  lang or_link m -> exists c rest, m = c :: rest /\ is_word c = false.
Proof.
  intros H. apply lang_or_link in H.
  destruct H as (sp1 & sp2 & v & -> & Hsp1 & _ & _).
  destruct sp1 as [|c sp1]; cbn [app].
  - eexists; eexists; split; reflexivity.
  - cbn [forallb] in Hsp1. apply andb_true_iff in Hsp1. destruct Hsp1 as [Hc _].
    eexists; eexists; split; [reflexivity|apply is_blank_not_word, Hc].
Qed.

(** The names of a chain after the first two, one after the other, up to
    a text that starts no further one. *)
Lemma or_links_first (m : str) :
  lang (Star Greedy or_link) m ->
  forall t, starts_outside_name t = true -> no_bar_ahead t = true ->
  starts_outside_name (m ++ t) = true /\
  forall n cs, length (m ++ t) <= n ->
  exists cs', forall (A : Type) (k : str -> caps -> option A) (a : A),
    k t cs' = Some a ->
    star_loop (mtch or_link) Greedy k n (m ++ t) cs = Some a.
Proof.
  intros H. remember (Star Greedy or_link) as r eqn:Er.
  induction H as [| | | | | | |g0 r0 m1 m2 H1 _ H2 IH2|]; try discriminate;
    intros t Ht Hbar.
  - split; [exact Ht|]. intros n cs _. exists cs. intros A k a Hk.
    cbn [app]. destruct n as [|n]; [exact Hk|].
    rewrite star_loop_S, or_link_refuses by exact Hbar. exact Hk.
  - inversion Er; subst g0 r0. clear Er.
    destruct (IH2 eq_refl t Ht Hbar) as [Hstart Hloop].
    destruct (lang_or_link_head m1 H1) as (c & rest & Em1 & Hc).
    split.
    { rewrite Em1. cbn [app starts_outside_name]. rewrite Hc. reflexivity. }
    intros n cs Hn.
    pose proof H1 as Hl. apply lang_or_link in Hl.
    destruct Hl as (sp1 & sp2 & v & E1 & Hsp1 & Hsp2 & Hv).
    destruct (or_link_first sp1 sp2 v (m2 ++ t) cs Hsp1 Hsp2 Hv Hstart)
      as [cs1 Hlink].
    destruct n as [|n].
    { exfalso. rewrite Em1 in Hn. cbn [app length] in Hn. lia. }
    destruct (Hloop n cs1) as [cs' Hrec].
    { rewrite Em1 in Hn. rewrite !length_app in *. cbn [length] in Hn. lia. }
    exists cs'. intros A k a Hk.
    rewrite star_loop_S, <- app_assoc, E1.
    erewrite Hlink; [reflexivity|].
    rewrite <- E1.
    replace (length (m2 ++ t) <? length (m1 ++ m2 ++ t)) with true.
    + apply Hrec, Hk.
    + symmetry. apply Nat.ltb_lt. rewrite Em1, !length_app. cbn [length]. lia.
Qed.

(** The chain pattern on a chain: the match is the whole chain, when the
    text goes on with something else than a character of a name or
    blanks and a bar. *)
Lemma re_match_chain (chain post : str) :
  lang or_expr chain ->
  starts_outside_name post = true -> no_bar_ahead post = true ->
  exists cs, re_match or_expr (chain ++ post) = Some (length chain, cs).
Proof.
  change or_expr with (Cat val_expr (Cat or_link (Star Greedy or_link))).
  intros H Hpost Hbar.
  inversion H as [| | |r1 r2 v0 m H0 H1| | | | |]; subst. clear H.
  inversion H1 as [| | |r1 r2 m1 m2 Hm1 Hm2| | | | |]; subst. clear H1.
  apply lang_val_expr in H0.
  destruct (or_links_first m2 Hm2 post Hpost Hbar) as [Hstart Hloop].
  pose proof Hm1 as Hl. apply lang_or_link in Hl.
  destruct Hl as (sp1 & sp2 & v1 & E1 & Hsp1 & Hsp2 & Hv1).
  destruct (lang_or_link_head m1 Hm1) as (c & rest & Em1 & Hc).
  assert (Hstart1 : starts_outside_name (m1 ++ m2 ++ post) = true).
  { rewrite Em1. cbn [app starts_outside_name]. rewrite Hc. reflexivity. }
  destruct (val_expr_first 1 v0 (m1 ++ m2 ++ post) [] H0 Hstart1) as [cs1 Hval].
  destruct (or_link_first sp1 sp2 v1 (m2 ++ post) cs1 Hsp1 Hsp2 Hv1 Hstart)
    as [cs2 Hlink].
  destruct (Hloop (length (m2 ++ post)) cs2 (Nat.le_refl _)) as [cs3 Hstar].
  exists cs3. unfold re_match, val_expr.
  rewrite mtch_Cat, <- !app_assoc.
  apply Hval. rewrite mtch_Cat, E1. apply Hlink.
  cbn [mtch]. apply Hstar.
  rewrite <- E1. f_equal. f_equal. rewrite !length_app. lia.
Qed.

Lemma first_bar_unique (c : ascii) (l r x y : str) :
  ~ In c l -> ~ In c r -> l ++ c :: x = r ++ c :: y -> l = r.
Proof.
  revert r. induction l as [|a l IH]; intros [|b r] Hl Hr E; cbn [app] in E.
  - reflexivity.
  - inversion E; subst. exfalso. apply Hr. left. reflexivity.
  - inversion E; subst. exfalso. apply Hl. left. reflexivity.
  - inversion E; subst. f_equal. apply (IH r); [| |assumption].
    + intros H. apply Hl. right. exact H.
    + intros H. apply Hr. right. exact H.
Qed.

(** In a name followed by blanks no character of a name comes after a
    character of another kind. *)
Lemma name_then_blanks (v sp a b : str) (x y : ascii) :
  forallb is_word v = true -> forallb is_blank sp = true ->
  v ++ sp = a ++ x :: y :: b ->
  is_word x = false -> is_word y = true -> False.
Proof.
  intros Hv Hsp. revert a. induction v as [|c v IH]; intros a E Hx Hy.
  - cbn [app] in E. rewrite E, forallb_app in Hsp.
    apply andb_true_iff in Hsp. destruct Hsp as [_ Hsp].
    cbn [forallb] in Hsp. apply andb_true_iff in Hsp. destruct Hsp as [_ Hsp].
    apply andb_true_iff in Hsp. destruct Hsp as [Hb _].
    apply is_blank_not_word in Hb. congruence.
  - cbn [forallb] in Hv. apply andb_true_iff in Hv. destruct Hv as [Hc Hv].
    destruct a as [|a0 a]; cbn [app] in E; inversion E; subst.
    + congruence.
    + apply (IH Hv a); assumption.
Qed.

Lemma lang_or_expr_shape (chain : str) :
  lang or_expr chain ->
  exists v0 sp1 rest,
    chain = v0 ++ sp1 ++ "|"%char :: rest /\
    val_name v0 /\ forallb is_blank sp1 = true.
Proof.
  change or_expr with (Cat val_expr (Cat or_link (Star Greedy or_link))).
  intros H.
  inversion H as [| | |r1 r2 v0 m H0 H1| | | | |]; subst. clear H.
  inversion H1 as [| | |r1 r2 m1 m2 Hm1 Hm2| | | | |]; subst. clear H1.
  apply lang_val_expr in H0. apply lang_or_link in Hm1.
  destruct Hm1 as (sp1 & sp2 & v1 & -> & Hsp1 & _ & _).
  exists v0, sp1, ((sp2 ++ v1) ++ m2). split; [|split; assumption].
  rewrite <- !app_assoc. cbn [app]. rewrite <- ?app_assoc. reflexivity.
Qed.

(** Before a chain that stands after a text without bar, which does not
    end with a character of a name, the chain pattern matches nowhere. *)
Lemma or_expr_none_before (pre chain post : str) :
  ~ In "|"%char pre -> ends_outside_name pre = true ->
  lang or_expr chain ->
  forall p1 p2, pre = p1 ++ p2 -> p2 <> [] ->
  re_match or_expr (p2 ++ chain ++ post) = None.
Proof.
  intros Hbar Hend Hchain p1 p2 Epre Hne.
  destruct (re_match or_expr (p2 ++ chain ++ post)) as [[len cs]|] eqn:E;
    [exfalso|reflexivity].
  unfold re_match in E. apply mtch_lang in E.
  destruct E as (m & s1 & cs1 & Heq & Hm & _).
  apply lang_or_expr_shape in Hm. destruct Hm as (v0 & sp & r & -> & Hv0 & Hsp).
  apply lang_or_expr_shape in Hchain.
  destruct Hchain as (cv0 & csp & cr & -> & Hcv0 & Hcsp).
  destruct (val_name_word v0 Hv0) as [_ Hw0].
  destruct (val_name_word cv0 Hcv0) as [_ Hcw0].
  destruct (val_name_head cv0 Hcv0) as (y & cv0' & Ecv0 & Hy).
  destruct (exists_last Hne) as (p2' & x & Ep2).
  assert (Hx : is_word x = false).
  { unfold ends_outside_name in Hend.
    rewrite Epre, Ep2, !rev_app_distr in Hend. cbn [rev app] in Hend.
    apply negb_true_iff, Hend. }
  assert (E : (p2 ++ cv0 ++ csp) ++ "|"%char :: (cr ++ post) =
              (v0 ++ sp) ++ "|"%char :: (r ++ s1)).
  { rewrite <- !app_assoc. cbn [app]. rewrite <- !app_assoc in Heq.
    cbn [app] in Heq. rewrite <- ?app_assoc in Heq. exact Heq. }
  apply first_bar_unique in E.
  - apply (name_then_blanks v0 sp p2' (cv0' ++ csp) x y Hw0 Hsp); [|exact Hx|exact Hy].
    rewrite <- E, Ep2, Ecv0, <- !app_assoc. reflexivity.
  - intros Hin. apply in_app_or in Hin. destruct Hin as [Hin|Hin].
    + apply Hbar. rewrite Epre. apply in_or_app. right. exact Hin.
    + apply (no_bar_padded [] cv0 csp eq_refl Hcw0 Hcsp Hin).
  - apply (no_bar_padded [] v0 sp eq_refl Hw0 Hsp).
Qed.

Lemma replace_or_ok (text : str) (fuel : nat) (m : str) (cs : caps) (v : Z) :
  evaluate_or text fuel m = OK v ->
  replace_or text fuel m cs = OK (str_of_Z v).
Proof. unfold replace_or. intros ->. reflexivity. Qed.

(** C7 (amended).  Every look-up of the OR-folding pass reads the text
    the pass started from.  Where a chain stands after a part without
    bar that does not end with a character of a name, and is followed
    neither by a character of a name nor by blanks and a bar, a pass
    whose look-ups read [text] keeps the part before the chain, writes
    the decimal string of the value the chain has in [text], and goes on
    with what it makes of the part after the chain, its look-ups still
    reading [text]: not the text with the value written in.  So it is
    for the whole text the pass is run on. *)
Theorem or_pass_reads_initial_text (text : str) (fuel : nat)
        (pre chain post : str) (v : Z) (post' : str) :
  ~ In "|"%char pre -> ends_outside_name pre = true ->
  lang or_expr chain ->
  starts_outside_name post = true -> no_bar_ahead post = true ->
  evaluate_or text fuel chain = OK v ->
  fold_or_in text fuel post = OK post' ->
  fold_or_in text fuel (pre ++ chain ++ post) =
    OK (pre ++ str_of_Z v ++ post') /\
  (text = pre ++ chain ++ post ->
   fold_or fuel text = OK (pre ++ str_of_Z v ++ post')).
Proof.
  intros Hbar Hend Hchain Hstart Hahead Hv Hpost.
  assert (H : fold_or_in text fuel (pre ++ chain ++ post) =
              OK (pre ++ str_of_Z v ++ post')).
  { unfold fold_or_in, re_sub in *.
    rewrite (re_sub_log_skip or_expr _ _ nonempty_or_expr pre
               (or_expr_none_before pre chain post Hbar Hend Hchain)).
    rewrite (re_sub_log_step or_expr _ _ nonempty_or_expr).
    destruct (re_match_chain chain post Hchain Hstart Hahead) as [cs ->].
    rewrite firstn_app, Nat.sub_diag, firstn_all, skipn_app, Nat.sub_diag,
      skipn_all. cbn [firstn skipn app]. rewrite app_nil_r.
    rewrite (replace_or_ok text fuel chain cs v Hv). cbn [bind].
    destruct (re_sub_log or_expr (replace_or text fuel) post) as [[o l]|e];
      [|discriminate].
    inversion Hpost; subst post'. reflexivity. }
  split; [exact H|]. intros E. rewrite <- E in H. exact H.
Qed.

(** A text the pattern matches from end to end is a text of the pattern. *)
Lemma lang_whole (r : regex) (s : str) (cs : caps) :
  re_match r s = Some (length s, cs) -> lang r s.
Proof.
  intros H. apply re_match_lang in H. rewrite firstn_all in H. exact H.
Qed.

Lemma or_pass_reads_initial_text_witness :
  fold_or 1000 (lit "NK_C | NK_A = 4,
NK_C = 8,
NK_A = 1,
NK_C | NK_A") = OK (lit "12 = 4,
NK_C = 8,
NK_A = 1,
12").
Proof.
  refine (proj2 (or_pass_reads_initial_text (lit "NK_C | NK_A = 4,
NK_C = 8,
NK_A = 1,
NK_C | NK_A") 1000 [] (lit "NK_C | NK_A") (lit " = 4,
NK_C = 8,
NK_A = 1,
NK_C | NK_A") 12%Z (lit " = 4,
NK_C = 8,
NK_A = 1,
12") _ _ _ _ _ _ _) eq_refl).
  - intros [].
  - reflexivity.
  - apply (lang_whole or_expr _ [(2, lit " | NK_A"); (3, lit "NK"); (1, lit "NK")]).
    vm_compute. reflexivity.
  - reflexivity.
  - reflexivity.
  - vm_compute. reflexivity.
  - vm_compute. reflexivity.
Defined.
